(** * Sudoku Duel: generator, candidate calculator, frontier and move engine

    A shallow embedding of [sudoku_duel.py].  The engine state of class
    [SudokuDuel] (board, initial board, turn flag, cell colours and the
    heap [pq]) is an explicit record threaded through the operations; every
    call to [random.*] reads its outcome from an explicit argument; the Tk
    widgets are left out, the text of the edited entry being an argument of
    [on_cell_edit]. *)

From Stdlib Require Import ZArith Lia.
From stdpp Require Import base numbers gmap sets list.

Local Open Scope nat_scope.

(** ** Grid *)

(** A board is a Python list of lists of ints; [0] is an empty cell. *)
Abbreviation grid := (list (list Z)).

(** [board[r][c]].  Python raises IndexError out of range; the embedding
    reads [0] there, and all results below are stated for 9x9 boards and
    coordinates below 9, where the two agree. *)
Definition cell (b : grid) (r c : nat) : Z :=
  match b !! r with
  | Some row => default 0%Z (row !! c)
  | None => 0%Z
  end.

(** [board[r][c] = v] *)
Definition set_cell (b : grid) (r c : nat) (v : Z) : grid :=
  alter (λ row, <[c := v]> row) r b.

Definition wf_board (b : grid) : Prop :=
  length b = 9 ∧ Forall (λ row, length row = 9) b.

(** [[[f(r, c) for c in range(9)] for r in range(9)]] *)
Definition grid_of (f : nat → nat → Z) : grid :=
  (λ r, (λ c, f r c) <$> seq 0 9) <$> seq 0 9.

(** [[(i, j) for i in range(9) for j in range(9)]] *)
Definition all_cells : list (nat * nat) :=
  r ← seq 0 9; (λ c, (r, c)) <$> seq 0 9.

(** *** The validity invariant *)

Definition same_box (r1 c1 r2 c2 : nat) : Prop :=
  r1 / 3 = r2 / 3 ∧ c1 / 3 = c2 / 3.

(** Two distinct cells that share a row, a column or a 3x3 box. *)
Definition peers (r1 c1 r2 c2 : nat) : Prop :=
  (r1, c1) ≠ (r2, c2) ∧ (r1 = r2 ∨ c1 = c2 ∨ same_box r1 c1 r2 c2).

(** No nonzero digit occurs twice in a row, a column or a box. *)
Definition valid_grid (b : grid) : Prop :=
  ∀ r1 c1 r2 c2, r1 < 9 → c1 < 9 → r2 < 9 → c2 < 9 →
    peers r1 c1 r2 c2 →
    cell b r1 c1 ≠ 0%Z → cell b r1 c1 ≠ cell b r2 c2.

Definition peersb (r1 c1 r2 c2 : nat) : bool :=
  negb (bool_decide ((r1, c1) = (r2, c2))) &&
  (bool_decide (r1 = r2) || bool_decide (c1 = c2) ||
   (bool_decide (r1 / 3 = r2 / 3) && bool_decide (c1 / 3 = c2 / 3))).

(** The executable form of [valid_grid]. *)
Definition valid_gridb (b : grid) : bool :=
  forallb (λ '(r1, c1),
    forallb (λ '(r2, c2),
      negb (peersb r1 c1 r2 c2) || bool_decide (cell b r1 c1 = 0%Z)
      || negb (bool_decide (cell b r1 c1 = cell b r2 c2)))
      all_cells) all_cells.

(** Every cell holds a digit of 1..9. *)
Definition full_grid (b : grid) : Prop :=
  ∀ r c, r < 9 → c < 9 → (1 ≤ cell b r c ≤ 9)%Z.

Definition solved_grid (b : grid) : Prop :=
  wf_board b ∧ full_grid b ∧ valid_grid b.

(** The three views of the grid the rules speak of. *)
Definition row_cells (b : grid) (r : nat) : list Z :=
  (λ c, cell b r c) <$> seq 0 9.

Definition col_cells (b : grid) (c : nat) : list Z :=
  (λ r, cell b r c) <$> seq 0 9.

(** [k] numbers the boxes row-major, 0..8. *)
Definition box_cells (b : grid) (k : nat) : list Z :=
  i ← seq (3 * (k / 3)) 3; (λ j, cell b i j) <$> seq (3 * (k mod 3)) 3.

(** ** Randomness *)

(** [random.shuffle(l)]: the outcome is described by the list [p] of the
    source positions, a permutation of [0 .. len(l)-1]; position [k] of the
    shuffled list holds [l[p[k]]]. *)
Definition shuffle {A} (p : list nat) (l : list A) : list A :=
  omap (λ i, l !! i) p.

Definition draw_ok (n : nat) (p : list nat) : Prop := p ≡ₚ seq 0 n.

(** One field per call of [random.*] made by [generate_puzzle], in program
    order. *)
Record draws := {
  g_nums : list nat;     (* get_base_pattern: random.shuffle(nums) *)
  g_rows0 : list nat;    (* shuffle_board step 1, i = 0 *)
  g_rows3 : list nat;    (* shuffle_board step 1, i = 3 *)
  g_rows6 : list nat;    (* shuffle_board step 1, i = 6 *)
  g_cols0 : list nat;    (* shuffle_board step 2, i = 0 *)
  g_cols3 : list nat;    (* shuffle_board step 2, i = 3 *)
  g_cols6 : list nat;    (* shuffle_board step 2, i = 6 *)
  g_bands : list nat;    (* shuffle_board step 3: random.shuffle(bands) *)
  g_stacks : list nat;   (* shuffle_board step 4: random.shuffle(stacks) *)
  g_cells : list nat;    (* generate_puzzle: random.shuffle(cells) *)
  g_count : nat          (* generate_puzzle: random.randint(40, 45) *)
}.

Record draws_ok (d : draws) : Prop := {
  ok_nums : draw_ok 9 (g_nums d);
  ok_rows0 : draw_ok 3 (g_rows0 d);
  ok_rows3 : draw_ok 3 (g_rows3 d);
  ok_rows6 : draw_ok 3 (g_rows6 d);
  ok_cols0 : draw_ok 3 (g_cols0 d);
  ok_cols3 : draw_ok 3 (g_cols3 d);
  ok_cols6 : draw_ok 3 (g_cols6 d);
  ok_bands : draw_ok 3 (g_bands d);
  ok_stacks : draw_ok 3 (g_stacks d);
  ok_cells : draw_ok 81 (g_cells d);
  ok_count : 40 ≤ g_count d ≤ 45
}.

(** ** Puzzle generator *)

(** [def pattern(r, c): return (3 * (r % 3) + r // 3 + c) % 9] *)
Definition pattern (r c : nat) : nat := (3 * (r mod 3) + r / 3 + c) mod 9.

(** [list(range(1, 10))] *)
Definition digits : list Z := [1; 2; 3; 4; 5; 6; 7; 8; 9]%Z.

(** [[[nums[pattern(r, c)] for c in range(9)] for r in range(9)]] *)
Definition base_board (nums : list Z) : grid :=
  grid_of (λ r c, default 0%Z (nums !! pattern r c)).

Definition get_base_pattern (d : draws) : grid :=
  let nums := shuffle (g_nums d) digits in
  base_board nums.

(** [l[i:j]] *)
Definition slice {A} (i j : nat) (l : list A) : list A :=
  take (j - i) (drop i l).

(** [l[i:j] = blk] *)
Definition slice_assign {A} (i j : nat) (blk l : list A) : list A :=
  take i l ++ blk ++ drop j l.

(** [block = board[i:i+3]; random.shuffle(block); board[i:i+3] = block] *)
Definition shuffle_block (p : list nat) (i : nat) (b : grid) : grid :=
  let block := slice i (i + 3) b in
  let block := shuffle p block in
  slice_assign i (i + 3) block b.

(** [for i in range(0, 9, 3): ...] *)
Definition shuffle_within (p0 p3 p6 : list nat) (b : grid) : grid :=
  shuffle_block p6 6 (shuffle_block p3 3 (shuffle_block p0 0 b)).

(** [list(map(list, zip( *board)))]: the rows are zipped, and [zip] stops at
    the shortest of them. *)
Definition transpose (b : grid) : grid :=
  match b with
  | [] => []
  | row0 :: rest =>
      let n := foldr (λ row m, length row `min` m) (length row0) rest in
      (λ j, (λ row, default 0%Z (row !! j)) <$> b) <$> seq 0 n
  end.

(** [bands = [board[i:i+3] for i in range(0, 9, 3)]; random.shuffle(bands);
     board = [row for band in bands for row in band]] *)
Definition shuffle_bands (p : list nat) (b : grid) : grid :=
  let bands := (λ i, slice i (i + 3) b) <$> [0; 3; 6] in
  let bands := shuffle p bands in
  concat bands.

Definition shuffle_step1 (d : draws) (b : grid) : grid :=
  shuffle_within (g_rows0 d) (g_rows3 d) (g_rows6 d) b.

Definition shuffle_step2 (d : draws) (b : grid) : grid :=
  transpose (shuffle_within (g_cols0 d) (g_cols3 d) (g_cols6 d) (transpose b)).

Definition shuffle_step3 (d : draws) (b : grid) : grid :=
  shuffle_bands (g_bands d) b.

Definition shuffle_step4 (d : draws) (b : grid) : grid :=
  transpose (shuffle_bands (g_stacks d) (transpose b)).

Definition shuffle_board (d : draws) (b : grid) : grid :=
  shuffle_step4 d (shuffle_step3 d (shuffle_step2 d (shuffle_step1 d b))).

(** [for i in range(remove_count): r, c = cells[i]; self.board[r][c] = 0] *)
Definition remove_cells (cs : list (nat * nat)) (b : grid) : grid :=
  foldl (λ b '(r, c), set_cell b r c 0%Z) b cs.

(** The board after steps 1 and 2 of [generate_puzzle], before removal. *)
Definition full_board (d : draws) : grid :=
  shuffle_board d (get_base_pattern d).

Definition generate_puzzle (d : draws) : grid :=
  let cells := shuffle (g_cells d) all_cells in
  remove_cells (take (g_count d) cells) (full_board d).

(** ** Candidate calculator *)

(** [find_empty]: the two nested loops return at the first empty cell, in
    the order of [all_cells]; [None] when they run to their end. *)
Definition find_empty (b : grid) : option (nat * nat) :=
  snd <$> list_find (λ rc, cell b rc.1 rc.2 = 0%Z) all_cells.

(** [board[row]] *)
Definition row_of (b : grid) (row : nat) : list Z := default [] (b !! row).

(** [[board[i][col] for i in range(9)]] *)
Definition column_of (b : grid) (col : nat) : list Z :=
  (λ i, cell b i col) <$> seq 0 9.

Definition is_valid (b : grid) (row col : nat) (num : Z) : bool :=
  (* Check row *)
  if bool_decide (num ∈ row_of b row) then false
  (* Check column *)
  else if bool_decide (num ∈ column_of b col) then false
  else
    (* Check 3x3 box *)
    let box_row := 3 * (row / 3) in
    let box_col := 3 * (col / 3) in
    forallb (λ i,
      forallb (λ j, negb (bool_decide (cell b i j = num))) (seq box_col 3))
      (seq box_row 3).

Definition get_candidates (b : grid) (row col : nat) : gset Z :=
  if bool_decide (cell b row col ≠ 0%Z) then ∅
  else
    let candidates : gset Z := list_to_set digits in
    (* Remove row conflicts *)
    let candidates := candidates ∖ list_to_set (row_of b row) in
    (* Remove column conflicts *)
    let candidates := candidates ∖ list_to_set (column_of b col) in
    (* Remove box conflicts *)
    let box_row := 3 * (row / 3) in
    let box_col := 3 * (col / 3) in
    foldl (λ candidates i,
      foldl (λ candidates j, candidates ∖ {[cell b i j]})
        candidates (seq box_col 3))
      candidates (seq box_row 3).

(** ** The frontier: a [heapq] binary heap on a Python list *)

(** A heap entry is the tuple [(len(candidates), row, col, candidates)]. *)
Abbreviation entry := (nat * nat * nat * gset Z)%type.

Definition entry_count (e : entry) : nat := e.1.1.1.
Definition entry_row (e : entry) : nat := e.1.1.2.
Definition entry_col (e : entry) : nat := e.1.2.
Definition entry_cands (e : entry) : gset Z := e.2.

(** Python's [<] on these tuples: the first component that differs
    decides; sets are compared by proper inclusion. *)
Definition entry_lt (x y : entry) : bool :=
  let '(n1, r1, c1, s1) := x in
  let '(n2, r2, c2, s2) := y in
  if bool_decide (n1 ≠ n2) then bool_decide (n1 < n2)
  else if bool_decide (r1 ≠ r2) then bool_decide (r1 < r2)
  else if bool_decide (c1 ≠ c2) then bool_decide (c1 < c2)
  else bool_decide (s1 ⊂ s2).

(** The [while pos > startpos] loop of [heapq._siftdown]; [pos] itself
    bounds the number of rounds. *)
Fixpoint siftdown_loop (fuel : nat) (heap : list entry)
    (startpos pos : nat) (newitem : entry) : list entry :=
  match fuel with
  | 0 => <[pos := newitem]> heap
  | S fuel =>
      if bool_decide (startpos < pos) then
        let parentpos := (pos - 1) / 2 in
        let parent := heap !!! parentpos in
        if entry_lt newitem parent
        then
          siftdown_loop fuel (<[pos := parent]> heap) startpos parentpos
            newitem
        else <[pos := newitem]> heap
      else <[pos := newitem]> heap
  end.

Definition siftdown (heap : list entry) (startpos pos : nat) : list entry :=
  let newitem := heap !!! pos in
  siftdown_loop pos heap startpos pos newitem.

(** The [while childpos < endpos] loop of [heapq._siftup]: the smaller
    child moves up until a leaf is reached; returns the heap and the
    position of the hole. *)
Fixpoint siftup_loop (fuel : nat) (heap : list entry) (endpos pos : nat)
    : list entry * nat :=
  match fuel with
  | 0 => (heap, pos)
  | S fuel =>
      let childpos := 2 * pos + 1 in
      if bool_decide (childpos < endpos) then
        let rightpos := childpos + 1 in
        let childpos :=
          if bool_decide (rightpos < endpos)
             && negb (entry_lt (heap !!! childpos) (heap !!! rightpos))
          then rightpos else childpos in
        siftup_loop fuel (<[pos := heap !!! childpos]> heap) endpos childpos
      else (heap, pos)
  end.

Definition siftup (heap : list entry) (pos : nat) : list entry :=
  let endpos := length heap in
  let startpos := pos in
  let newitem := heap !!! pos in
  let '(heap, pos) := siftup_loop endpos heap endpos pos in
  let heap := <[pos := newitem]> heap in
  siftdown heap startpos pos.

(** [heapq.heappush(heap, item)] *)
Definition heappush (heap : list entry) (item : entry) : list entry :=
  let heap := heap ++ [item] in
  siftdown heap 0 (length heap - 1).

(** [heapq.heappop(heap)]: [None] stands for the IndexError on an empty
    heap. *)
Definition heappop (heap : list entry) : option (entry * list entry) :=
  match last heap with
  | None => None
  | Some lastelt =>
      let heap := take (length heap - 1) heap in
      match heap with
      | returnitem :: _ =>
          let heap := <[0 := lastelt]> heap in
          Some (returnitem, siftup heap 0)
      | [] => Some (lastelt, [])
      end
  end.

(** ** Game session *)

Inductive turn := user | ai.

Definition turn_eqb (a b : turn) : bool :=
  match a, b with user, user | ai, ai => true | _, _ => false end.

(** The attributes of a [SudokuDuel] object the engine works on.  An entry
    of [cell_colors] is [None], ["user"] or ["ai"]. *)
Record session := {
  board : grid;
  initial_board : grid;
  current_turn : turn;
  cell_colors : list (list (option turn));
  pq : list entry
}.

Definition with_board (st : session) (b : grid) : session :=
  {| board := b; initial_board := initial_board st;
     current_turn := current_turn st; cell_colors := cell_colors st;
     pq := pq st |}.

Definition with_turn (st : session) (t : turn) : session :=
  {| board := board st; initial_board := initial_board st;
     current_turn := t; cell_colors := cell_colors st; pq := pq st |}.

Definition with_colors (st : session) (cs : list (list (option turn)))
    : session :=
  {| board := board st; initial_board := initial_board st;
     current_turn := current_turn st; cell_colors := cs; pq := pq st |}.

Definition with_pq (st : session) (q : list entry) : session :=
  {| board := board st; initial_board := initial_board st;
     current_turn := current_turn st; cell_colors := cell_colors st;
     pq := q |}.

(** [self.board[row][col] = v] *)
Definition write_cell (st : session) (row col : nat) (v : Z) : session :=
  with_board st (set_cell (board st) row col v).

(** [self.cell_colors[row][col] = who] *)
Definition paint (st : session) (row col : nat) (who : option turn)
    : session :=
  with_colors st (alter (λ l, <[col := who]> l) row (cell_colors st)).

(** [[[None]*9 for _ in range(9)]] *)
Definition no_colors : list (list (option turn)) :=
  replicate 9 (replicate 9 None).

(** [[[0]*9 for _ in range(9)]] *)
Definition zero_grid : grid := replicate 9 (replicate 9 0%Z).

(** [build_priority_queue] fills a local heap and returns it; the object is
    not changed. *)
Definition build_priority_queue (st : session) : list entry :=
  foldl (λ pq '(i, j),
    if bool_decide (cell (board st) i j = 0%Z) then
      let candidates := get_candidates (board st) i j in
      if bool_decide (candidates ≠ ∅)
      then heappush pq (size candidates, i, j, candidates)
      else pq
    else pq) [] all_cells.

Definition initialize_priority_queue (st : session) : session :=
  let st := with_pq st [] in
  foldl (λ st '(i, j),
    if bool_decide (cell (board st) i j = 0%Z) then
      let candidates := get_candidates (board st) i j in
      if bool_decide (candidates ≠ ∅)
      then with_pq st (heappush (pq st) (size candidates, i, j, candidates))
      else st
    else st) st all_cells.

(** The set [neighbours] built by [update_neighbors]. *)
Definition neighbours (row col : nat) : gset (nat * nat) :=
  let neighbours : gset (nat * nat) := ∅ in
  let neighbours :=
    foldl (λ nb i, nb ∪ {[(row, i)]} ∪ {[(i, col)]}) neighbours (seq 0 9)
  in
  let box_row := 3 * (row / 3) in
  let box_col := 3 * (col / 3) in
  foldl (λ nb i, foldl (λ nb j, nb ∪ {[(i, j)]}) nb (seq box_col 3))
    neighbours (seq box_row 3).

(** The entry pushed for one neighbour. *)
Definition fresh_entry (b : grid) (rc : nat * nat) : entry :=
  let candidates := get_candidates b rc.1 rc.2 in
  (size candidates, rc.1, rc.2, candidates).

(** Iterating over a Python set visits its elements in an order the
    language does not fix; [elements] plays that part here. *)
Definition update_neighbors (st : session) (row col : nat) : session :=
  foldl (λ st rc, with_pq st (heappush (pq st) (fresh_entry (board st) rc)))
    st (elements (neighbours row col)).

(** [random.choice(l)], the draw being [k].  It is applied to
    [list(current_candidates)], a list in no fixed order; [elements] plays
    that part, and every element is the choice for some [k]. *)
Definition choice (k : nat) (l : list Z) : Z :=
  default 0%Z (l !! (k mod length l)).

(** What [ai_make_move] did: [Placed row col value] when it returns [True]
    (the digit it wrote into board and entry widget), [NoMove] when it
    returns [False]. *)
Inductive ai_result := Placed (row col : nat) (value : Z) | NoMove.

(** The [while self.pq] loop.  [None] is not a result of the program: it
    marks fuel running out or a pop from an empty heap (see
    [ai_make_move_total]). *)
Fixpoint ai_loop (fuel : nat) (k : nat) (st : session)
    : option (ai_result * session) :=
  match pq st with
  | [] => Some (NoMove, st)
  | _ :: _ =>
      match fuel with
      | 0 => None
      | S fuel =>
          match heappop (pq st) with
          | None => None
          | Some ((count, row, col, candidates), rest) =>
              let st := with_pq st rest in
              (* lazy deletion check *)
              if bool_decide (cell (board st) row col ≠ 0%Z)
              then ai_loop fuel k st
              else
                let current_candidates := get_candidates (board st) row col in
                if bool_decide (current_candidates = ∅)
                then Some (NoMove, st)
                else
                  (* greedy choice *)
                  let value := choice k (elements current_candidates) in
                  let st := write_cell st row col value in
                  let st := paint st row col (Some ai) in
                  let st := update_neighbors st row col in
                  Some (Placed row col value, st)
          end
      end
  end.

Definition ai_make_move (k : nat) (st : session)
    : option (ai_result * session) :=
  ai_loop (length (pq st)) k st.

Definition is_complete (st : session) : bool :=
  forallb (λ i,
    forallb (λ j, negb (bool_decide (cell (board st) i j = 0%Z))) (seq 0 9))
    (seq 0 9).

(** The text of the edited entry after [cell.get().strip()], by what
    [int(value)] makes of it. *)
Inductive entry_text :=
  | Blank                (* value == "" *)
  | NotInt               (* int(value) raises ValueError *)
  | IntText (num : Z).   (* int(value) == num *)

(** The path [on_cell_edit] took. *)
Inductive edit_result :=
  | Ignored              (* not the user's turn, or a locked cell *)
  | Cleared              (* empty text: the cell is emptied *)
  | Accepted (complete : bool)  (* the digit was written *)
  | InvalidMove          (* the digit conflicts with a peer *)
  | BadInput.            (* the ValueError handler ran *)

Definition on_cell_edit (st : session) (row col : nat) (value : entry_text)
    : edit_result * session :=
  if negb (turn_eqb (current_turn st) user) then (Ignored, st)
  else if bool_decide (cell (initial_board st) row col ≠ 0%Z)
  then (Ignored, st)
  else
    match value with
    | Blank => (Cleared, paint (write_cell st row col 0%Z) row col None)
    | NotInt => (BadInput, write_cell st row col 0%Z)
    | IntText num =>
        if bool_decide (num < 1)%Z || bool_decide (9 < num)%Z
        then (BadInput, write_cell st row col 0%Z)
        else
          let temp := cell (board st) row col in
          let st := write_cell st row col 0%Z in
          if is_valid (board st) row col num then
            let st := write_cell st row col num in
            let st := update_neighbors st row col in
            let st := paint st row col (Some user) in
            if is_complete st then (Accepted true, st)
            else (Accepted false, with_turn st ai)
          else (InvalidMove, write_cell st row col temp)
    end.

Definition ai_turn (k : nat) (st : session) : option (ai_result * session) :=
  match ai_make_move k st with
  | None => None
  | Some (NoMove, st) => Some (NoMove, st)
  | Some (Placed r c v, st) =>
      if is_complete st then Some (Placed r c v, st)
      else Some (Placed r c v, with_turn st user)
  end.

(** [ai_play] differs from [ai_make_move] only in the dialogs it shows. *)
Definition ai_play (k : nat) (st : session) : option (ai_result * session) :=
  ai_make_move k st.

Definition new_game (d : draws) (st : session) : session :=
  let st := with_board st (generate_puzzle d) in
  let st := {| board := board st; initial_board := board st;
               current_turn := user; cell_colors := no_colors;
               pq := pq st |} in
  initialize_priority_queue st.

(** The attributes [__init__] sets before it calls [new_game].  The
    object has no [pq] yet at that point; [new_game] assigns it (in
    [initialize_priority_queue]) before anything reads it. *)
Definition blank_session : session :=
  {| board := zero_grid; initial_board := zero_grid;
     current_turn := user; cell_colors := no_colors; pq := [] |}.

(** [SudokuDuel.__init__]: [new_game] runs first, then [self.pq = []]. *)
Definition init (d : draws) : session :=
  let st := blank_session in
  let st := new_game d st in
  with_pq st [].

Definition reset_board (st : session) : session :=
  {| board := initial_board st; initial_board := initial_board st;
     current_turn := user; cell_colors := no_colors; pq := pq st |}.

(** What [show_hint] reports. *)
Inductive hint_result :=
  | NoHint          (* the dialog "No empty cells remaining!" *)
  | Hint (row col : nat) (candidates : gset Z).
                    (* the highlighted cell and the candidates shown *)

(** [while self.pq and self.board[self.pq[0][1]][self.pq[0][2]] != 0:
      heapq.heappop(self.pq)] *)
Fixpoint clean_top (fuel : nat) (b : grid) (q : list entry)
    : option (list entry) :=
  match q with
  | [] => Some []
  | top :: _ =>
      if bool_decide (cell b (entry_row top) (entry_col top) ≠ 0%Z) then
        match fuel with
        | 0 => None
        | S fuel =>
            match heappop q with
            | None => None
            | Some (_, rest) => clean_top fuel b rest
            end
        end
      else Some q
  end.

Definition show_hint (st : session) : option (hint_result * session) :=
  match pq st with
  | [] => Some (NoHint, st)
  | _ :: _ =>
      match clean_top (length (pq st)) (board st) (pq st) with
      | None => None
      | Some [] => Some (NoHint, with_pq st [])
      | Some (((count, row, col, candidates) :: _) as q) =>
          let real_candidates := get_candidates (board st) row col in
          Some (Hint row col real_candidates, with_pq st q)
      end
  end.

(** *** Reachable sessions *)

(** The sessions a run of the program can be in: the constructor ran, and
    then buttons and key events in any order.  Key events come from the 81
    entry widgets, so their coordinates are below 9. *)
Inductive reachable : session → Prop :=
  | reach_init d : draws_ok d → reachable (init d)
  | reach_new_game d st :
      draws_ok d → reachable st → reachable (new_game d st)
  | reach_edit st row col value :
      reachable st → row < 9 → col < 9 →
      reachable (on_cell_edit st row col value).2
  | reach_ai_turn st k r st' :
      reachable st → ai_turn k st = Some (r, st') → reachable st'
  | reach_ai_play st k r st' :
      reachable st → ai_play k st = Some (r, st') → reachable st'
  | reach_hint st r st' :
      reachable st → show_hint st = Some (r, st') → reachable st'
  | reach_reset st : reachable st → reachable (reset_board st).

(** ** Auxiliary notions for the proofs *)

(** Where [shuffle_block p i] takes row [r] of its result from. *)
Definition block_src (p : list nat) (i r : nat) : nat :=
  if (i <=? r) && (r <? i + 3) then i + default 0 (p !! (r - i)) else r.

(** Where [shuffle_bands p] takes row [r] of its result from. *)
Definition band_src (p : list nat) (r : nat) : nat :=
  3 * default 0 (p !! (r / 3)) + r mod 3.

(** A renumbering of the nine rows (or columns) that keeps the three bands
    (or stacks) together. *)
Definition band_map (σ : nat → nat) : Prop :=
  ∀ r1 r2, r1 < 9 → r2 < 9 →
    σ r1 < 9 ∧ (σ r1 = σ r2 → r1 = r2)
    ∧ (r1 / 3 = r2 / 3 → σ r1 / 3 = σ r2 / 3).

Definition band_mapb (σ : nat → nat) : bool :=
  forallb (λ r1, forallb (λ r2,
    (σ r1 <? 9) && (negb (σ r1 =? σ r2) || (r1 =? r2))
    && (negb (r1 / 3 =? r2 / 3) || (σ r1 / 3 =? σ r2 / 3)))
    (seq 0 9)) (seq 0 9).

(** A transformation of boards that keeps the shape, the validity
    invariant and fullness. *)
Definition preserving (T : grid → grid) : Prop :=
  ∀ b, wf_board b →
    wf_board (T b) ∧ (valid_grid b → valid_grid (T b))
    ∧ (full_grid b → full_grid (T b)).

(** The canonical pattern gives two peers different indices. *)
Definition pattern_separatesb : bool :=
  forallb (λ '(r1, c1),
    forallb (λ '(r2, c2),
      negb (peersb r1 c1 r2 c2) || negb (pattern r1 c1 =? pattern r2 c2))
      all_cells) all_cells.

(** [b'] is [b] with some cells emptied. *)
Definition erased (b' b : grid) : Prop :=
  ∀ r c, cell b' r c = 0%Z ∨ cell b' r c = cell b r c.

(** Digit [d] occurs neither in row [r], nor in column [c], nor in the box
    of [(r, c)]. *)
Definition no_conflict (b : grid) (r c : nat) (d : Z) : Prop :=
  ∀ r' c', r' < 9 → c' < 9 →
    r' = r ∨ c' = c ∨ same_box r c r' c' → cell b r' c' ≠ d.

(** The candidate set in the words of the specification: empty on a filled
    cell, otherwise 1..9 minus the digits of the row, of the column and of
    the containing box. *)
Definition candidates_spec (b : grid) (r c : nat) : gset Z :=
  if bool_decide (cell b r c ≠ 0%Z) then ∅
  else
    list_to_set digits ∖ list_to_set (row_cells b r)
      ∖ list_to_set (col_cells b c)
      ∖ list_to_set (box_cells b (3 * (r / 3) + c / 3)).

(** No digit occurs twice in a row, in a column or in a box. *)
Definition distinct_lines (b : grid) : Prop :=
  ∀ k, k < 9 →
    NoDup (row_cells b k) ∧ NoDup (col_cells b k) ∧ NoDup (box_cells b k).

(** The coordinates of the cells of box [k]. *)
Definition box_coords (k : nat) : list (nat * nat) :=
  i ← seq (3 * (k / 3)) 3; (λ j, (i, j)) <$> seq (3 * (k mod 3)) 3.

(** ** Session invariants *)

Definition entry_in_range (e : entry) : Prop :=
  entry_row e < 9 ∧ entry_col e < 9.

(** A heap entry is stale once its cell has been filled. *)
Definition stale (b : grid) (e : entry) : Prop :=
  cell b (entry_row e) (entry_col e) ≠ 0%Z.

(** What every reachable session satisfies. *)
Record session_inv (st : session) : Prop := {
  inv_board : wf_board (board st);
  inv_initial : wf_board (initial_board st);
  inv_valid : valid_grid (board st);
  inv_initial_valid : valid_grid (initial_board st);
  inv_pq : Forall entry_in_range (pq st)
}.

(** The cells [initialize_priority_queue] pushes an entry for. *)
Definition live_cell (b : grid) (rc : nat * nat) : bool :=
  bool_decide (cell b rc.1 rc.2 = 0%Z)
  && bool_decide (get_candidates b rc.1 rc.2 ≠ ∅).

(** Input that [on_cell_edit] does not take for a digit of 1..9. *)
Definition not_a_digit (value : entry_text) : Prop :=
  value = NotInt ∨ ∃ num, value = IntText num ∧ ¬ (1 ≤ num ≤ 9)%Z.

(** ** The runs of the move engine, by the path taken *)

(** [ai_make_move]: entries are popped while they are stale; the first live
    one either has no candidate left (the move fails) or is played. *)
Inductive ai_outcome (st : session) : ai_result → session → Prop :=
  | ai_exhausted dropped st' :
      pq st ≡ₚ dropped → Forall (stale (board st)) dropped →
      board st' = board st → initial_board st' = initial_board st →
      current_turn st' = current_turn st → cell_colors st' = cell_colors st →
      pq st' = [] →
      ai_outcome st NoMove st'
  | ai_dead dropped count row col candidates rest :
      pq st ≡ₚ dropped ++ (count, row, col, candidates) :: rest →
      Forall (stale (board st)) dropped →
      cell (board st) row col = 0%Z →
      get_candidates (board st) row col = ∅ →
      ai_outcome st NoMove (with_pq st rest)
  | ai_placed dropped count row col candidates rest value :
      pq st ≡ₚ dropped ++ (count, row, col, candidates) :: rest →
      Forall (stale (board st)) dropped →
      cell (board st) row col = 0%Z →
      value ∈ get_candidates (board st) row col →
      ai_outcome st (Placed row col value)
        (update_neighbors
           (paint (write_cell (with_pq st rest) row col value)
              row col (Some ai)) row col).

(** [on_cell_edit] *)
Inductive edit_outcome (st : session) (row col : nat)
    : entry_text → edit_result → session → Prop :=
  | edit_not_turn value :
      current_turn st ≠ user → edit_outcome st row col value Ignored st
  | edit_locked value :
      current_turn st = user → cell (initial_board st) row col ≠ 0%Z →
      edit_outcome st row col value Ignored st
  | edit_blank :
      current_turn st = user → cell (initial_board st) row col = 0%Z →
      edit_outcome st row col Blank Cleared
        (paint (write_cell st row col 0%Z) row col None)
  | edit_not_int :
      current_turn st = user → cell (initial_board st) row col = 0%Z →
      edit_outcome st row col NotInt BadInput (write_cell st row col 0%Z)
  | edit_out_of_range num :
      current_turn st = user → cell (initial_board st) row col = 0%Z →
      ¬ (1 ≤ num ≤ 9)%Z →
      edit_outcome st row col (IntText num) BadInput
        (write_cell st row col 0%Z)
  | edit_invalid num :
      current_turn st = user → cell (initial_board st) row col = 0%Z →
      (1 ≤ num ≤ 9)%Z →
      is_valid (set_cell (board st) row col 0%Z) row col num = false →
      edit_outcome st row col (IntText num) InvalidMove
        (write_cell (write_cell st row col 0%Z) row col
           (cell (board st) row col))
  | edit_accepted num st1 :
      current_turn st = user → cell (initial_board st) row col = 0%Z →
      (1 ≤ num ≤ 9)%Z →
      is_valid (set_cell (board st) row col 0%Z) row col num = true →
      st1 = paint (update_neighbors
                     (write_cell (write_cell st row col 0%Z) row col num)
                     row col) row col (Some user) →
      edit_outcome st row col (IntText num) (Accepted (is_complete st1))
        (if is_complete st1 then st1 else with_turn st1 ai).

(** ** The two claims the code does not meet, as they are stated *)

(** The claim about [update_neighbors] as the specification words it: at
    most 20 cells are recomputed, and no entry is pushed with an empty
    candidate set or for a filled cell. *)
Definition refresh_claim_as_stated : Prop :=
  ∀ st row col, row < 9 → col < 9 →
    size (neighbours row col) ≤ 20
    ∧ ∀ new, pq (update_neighbors st row col) ≡ₚ new ++ pq st →
        Forall (λ e, entry_cands e ≠ ∅ ∧ ¬ stale (board st) e) new.

(** The claim about rejected input as the specification words it: the
    grid is unchanged. *)
Definition bad_input_claim_as_stated : Prop :=
  ∀ st row col value, row < 9 → col < 9 → not_a_digit value →
    board (on_cell_edit st row col value).2 = board st.

(** ** The order of the heap *)

(** The count of an entry is the size of its candidate set, as for every
    entry the program pushes. *)
Definition sized (e : entry) : Prop := entry_count e = size (entry_cands e).

(** Python compares heap entries as tuples, so [(count, row, col)] decides
    first: [a] is not above [b] in that order.  Entries that agree on all
    three are above and below each other. *)
Definition key_le (a b : entry) : Prop :=
  entry_count a < entry_count b
  ∨ (entry_count a = entry_count b
     ∧ (entry_row a < entry_row b
        ∨ (entry_row a = entry_row b ∧ entry_col a ≤ entry_col b))).

(** Position [c] is a child of position [p] in the implicit binary tree. *)
Definition child (p c : nat) : Prop := c = 2 * p + 1 ∨ c = 2 * p + 2.

(** The heap invariant of [heapq]: no entry is below its parent. *)
Definition heap_ordered (h : list entry) : Prop :=
  ∀ p c, c < length h → child p c → key_le (h !!! p) (h !!! c).

(** The heap with a hole at [pos], into which [x] is about to be put:
    the order holds away from the hole, [x] fits above the children of the
    hole, and so does the parent of the hole. *)
Definition hole_fits (h : list entry) (pos : nat) (x : entry) : Prop :=
  (∀ p c, c < length h → child p c → c ≠ pos → p ≠ pos →
          key_le (h !!! p) (h !!! c))
  ∧ (∀ c, c < length h → child pos c → key_le x (h !!! c))
  ∧ (∀ pp c, child pp pos → c < length h → child pos c →
             key_le (h !!! pp) (h !!! c)).

(** The same while the hole sinks and the item is not looked at. *)
Definition hole_sinks (h : list entry) (pos : nat) : Prop :=
  (∀ p c, c < length h → child p c → c ≠ pos → p ≠ pos →
          key_le (h !!! p) (h !!! c))
  ∧ (∀ pp c, child pp pos → c < length h → child pos c →
             key_le (h !!! pp) (h !!! c)).

(** ** More of what every reachable session satisfies *)

(** The clues are in place. *)
Definition clues_kept (st : session) : Prop :=
  ∀ r c, cell (initial_board st) r c ≠ 0%Z →
         cell (board st) r c = cell (initial_board st) r c.

(** Every cell holds 0 or a digit of 1..9. *)
Definition digits_only (b : grid) : Prop :=
  ∀ r c, (0 ≤ cell b r c ≤ 9)%Z.

Record session_order (st : session) : Prop := {
  ord_heap : heap_ordered (pq st);
  ord_sized : Forall sized (pq st);
  ord_clues : clues_kept st;
  ord_digits : digits_only (board st)
}.

(** The number of empty cells of a board. *)
Definition empty_cells (b : grid) : list (nat * nat) :=
  filter (λ rc, cell b rc.1 rc.2 = 0%Z) all_cells.

(** [(row, col)] is an empty cell with the fewest candidates, and among
    those the first in row-major order. *)
Definition most_constrained (b : grid) (row col : nat) : Prop :=
  cell b row col = 0%Z
  ∧ ∀ r c, r < 9 → c < 9 → cell b r c = 0%Z →
      key_le (fresh_entry b (row, col)) (fresh_entry b (r, c)).

(** ** Popping in sequence *)

(** [n] calls of [heapq.heappop] in a row: the entries they return, in
    order, and the heap they leave; [None] when the heap runs out. *)
Fixpoint pops (n : nat) (q : list entry)
    : option (list entry * list entry) :=
  match n with
  | 0 => Some ([], q)
  | S n =>
      match heappop q with
      | None => None
      | Some (e, rest) =>
          match pops n rest with
          | None => None
          | Some (es, q') => Some (e :: es, q')
          end
      end
  end.

(** ** A sample run *)

(** One outcome of the draws of [generate_puzzle]. *)
Definition sample_draws : draws := {|
  g_nums := [4; 0; 8; 2; 6; 1; 7; 3; 5];
  g_rows0 := [1; 2; 0]; g_rows3 := [0; 2; 1]; g_rows6 := [2; 1; 0];
  g_cols0 := [2; 0; 1]; g_cols3 := [1; 0; 2]; g_cols6 := [0; 1; 2];
  g_bands := [2; 0; 1]; g_stacks := [1; 2; 0];
  g_cells := (λ i, (37 * i + 11) mod 81) <$> seq 0 81;
  g_count := 42
|}.

(** The session after "New Game" with these draws. *)
Definition sample_game : session := new_game sample_draws (init sample_draws).

(** The user types 9 into the empty cell (0, 1) of a fresh session. *)
Definition sample_moved : session :=
  (on_cell_edit (init sample_draws) 0 1 (IntText 9)).2.

(** A fresh session in which 9 has just been written into cell (0, 1):
    the state in which [on_cell_edit] calls [update_neighbors]. *)
Definition sample_written : session :=
  write_cell (init sample_draws) 0 1 9%Z.

(** In [sample_game]: the user plays 9 at (0, 1), then the AI answers. *)
Definition sample_played : session :=
  let st := (on_cell_edit sample_game 0 1 (IntText 9)).2 in
  match ai_turn 0 st with
  | Some (_, st') => st'
  | None => st
  end.

(** The button "AI Play" pressed once for each draw of [ks]. *)
Definition ai_plays (ks : list nat) (st : session) : session :=
  foldl (λ st k,
    match ai_play k st with Some (_, st') => st' | None => st end) st ks.

(** [sample_game] played to its end by the AI alone. *)
Definition sample_finished : session := ai_plays (replicate 42 0) sample_game.

(** The user types 5 into the empty cell (0, 4) of a fresh session: the
    move is accepted, and it takes the last candidate of a neighbour. *)
Definition sample_stuck : session :=
  (on_cell_edit (init sample_draws) 0 4 (IntText 5)).2.

(** In [sample_game] the user has played 9 at (0, 1) and the AI has not
    answered yet. *)
Definition sample_user_moved : session :=
  (on_cell_edit sample_game 0 1 (IntText 9)).2.

(** [sample_stuck] after the AI's turn. *)
Definition sample_locked : session :=
  match ai_turn 0 sample_stuck with
  | Some (_, st') => st'
  | None => sample_stuck
  end.

(** * Proofs *)

(** ** Grids and their cell functions *)

(** Case analysis on a number below 9. *)
Ltac below9 r H :=
  lazymatch type of H with
  | _ < 0 => exfalso; exact (Nat.nlt_0_r _ H)
  | _ => destruct r as [|r]; [|apply Nat.succ_lt_mono in H; below9 r H]
  end.

(** Case analysis on a list of length 9. *)
Ltac list9 l H :=
  do 9 (destruct l as [|? l]; [discriminate H|]);
  destruct l; [clear H | discriminate H].

Lemma forallb_seq_true (P : nat → bool) (n : nat) :
  forallb P (seq 0 n) = true ↔ ∀ i, i < n → P i = true.
Proof.
  rewrite forallb_forall. split.
  - intros H i Hi. apply H, in_seq. lia.
  - intros H i Hi%in_seq. apply H. lia.
Qed.

Lemma cell_grid_of f r c : r < 9 → c < 9 → cell (grid_of f) r c = f r c.
Proof.
  intros Hr Hc. below9 r Hr; below9 c Hc; reflexivity.
Qed.

Lemma wf_grid_of f : wf_board (grid_of f).
Proof.
  split; [done|]. unfold grid_of. simpl. repeat constructor.
Qed.

(** A 9x9 board is the table of its cells. *)
Lemma wf_board_grid_of b : wf_board b → b = grid_of (cell b).
Proof.
  intros [Hl Hf]. list9 b Hl.
  repeat (apply Forall_cons in Hf as [? Hf]).
  repeat match goal with
         | H : length ?l = 9 |- _ => list9 l H
         end.
  reflexivity.
Qed.

Lemma grid_of_ext f g :
  (∀ r c, r < 9 → c < 9 → f r c = g r c) → grid_of f = grid_of g.
Proof.
  intros E. unfold grid_of.
  apply list_fmap_ext. intros i r Hr%lookup_seq. 
  apply list_fmap_ext. intros j c Hc%lookup_seq. apply E; lia.
Qed.

Lemma all_cells_spec r c : (r, c) ∈ all_cells ↔ r < 9 ∧ c < 9.
Proof.
  unfold all_cells. rewrite list_elem_of_bind. split.
  - intros (r' & Hc & Hr). apply list_elem_of_fmap in Hc as (c' & [= -> ->] & Hc).
    apply elem_of_seq in Hr, Hc. lia.
  - intros [Hr Hc]. exists r. split; [|apply elem_of_seq; lia].
    apply list_elem_of_fmap. exists c. split; [done|]. apply elem_of_seq. lia.
Qed.

Lemma peersb_spec r1 c1 r2 c2 : peersb r1 c1 r2 c2 = true ↔ peers r1 c1 r2 c2.
Proof.
  unfold peersb, peers, same_box.
  rewrite andb_true_iff, negb_true_iff, bool_decide_eq_false.
  rewrite !orb_true_iff, andb_true_iff, !bool_decide_eq_true. tauto.
Qed.

Lemma forallb_all_cells (P : nat * nat → bool) :
  forallb P all_cells = true ↔ ∀ r c, r < 9 → c < 9 → P (r, c) = true.
Proof.
  rewrite forallb_forall. split.
  - intros H r c Hr Hc. apply H, list_elem_of_In, all_cells_spec. done.
  - intros H [r c] [? ?]%list_elem_of_In%all_cells_spec. by apply H.
Qed.

Lemma valid_gridb_spec b : valid_gridb b = true ↔ valid_grid b.
Proof.
  unfold valid_gridb, valid_grid. rewrite forallb_all_cells.
  setoid_rewrite forallb_all_cells.
  setoid_rewrite orb_true_iff. setoid_rewrite orb_true_iff.
  setoid_rewrite negb_true_iff. setoid_rewrite bool_decide_eq_false.
  setoid_rewrite bool_decide_eq_true.
  setoid_rewrite <-not_true_iff_false. setoid_rewrite peersb_spec.
  split.
  - intros H r1 c1 r2 c2 Hr1 Hc1 Hr2 Hc2 Hp Hz.
    destruct (H r1 c1 Hr1 Hc1 r2 c2 Hr2 Hc2) as [[?|?]|?]; done.
  - intros H r1 c1 Hr1 Hc1 r2 c2 Hr2 Hc2.
    destruct (decide (cell b r1 c1 = 0%Z)); [tauto|].
    destruct (decide (peers r1 c1 r2 c2)); [|tauto].
    right. by apply H.
Qed.

(** ** The shuffle moves whole rows and columns *)

Lemma draw3_cases p : draw_ok 3 p → p ∈ permutations (seq 0 3).
Proof. intros H. by apply permutations_Permutation. Qed.

(** Case analysis on the six outcomes of shuffling three items. *)
Ltac each_draw3 H :=
  apply draw3_cases in H; vm_compute in H;
  repeat (apply elem_of_cons in H as [->|H]);
  [.. | by apply elem_of_nil in H].

Ltac each_elem H :=
  repeat (apply elem_of_cons in H as [->|H]);
  [.. | by apply elem_of_nil in H].

Lemma band_mapb_spec σ : band_mapb σ = true → band_map σ.
Proof.
  unfold band_mapb. rewrite forallb_seq_true. intros H r1 r2 Hr1 Hr2.
  specialize (H r1 Hr1). rewrite forallb_seq_true in H.
  specialize (H r2 Hr2).
  rewrite !andb_true_iff, !orb_true_iff, !negb_true_iff in H.
  rewrite Nat.ltb_lt, !Nat.eqb_eq, !Nat.eqb_neq in H. intuition.
Qed.

Lemma block_src_band_map p i :
  draw_ok 3 p → i ∈ [0; 3; 6] → band_map (block_src p i).
Proof.
  intros Hp Hi. apply band_mapb_spec.
  each_elem Hi; each_draw3 Hp; vm_compute; reflexivity.
Qed.

Lemma band_src_band_map p : draw_ok 3 p → band_map (band_src p).
Proof.
  intros Hp. apply band_mapb_spec. each_draw3 Hp; vm_compute; reflexivity.
Qed.

Lemma shuffle_block_grid p i f :
  draw_ok 3 p → i ∈ [0; 3; 6] →
  shuffle_block p i (grid_of f) = grid_of (λ r c, f (block_src p i r) c).
Proof.
  intros Hp Hi. each_elem Hi; each_draw3 Hp; reflexivity.
Qed.

Lemma shuffle_bands_grid p f :
  draw_ok 3 p →
  shuffle_bands p (grid_of f) = grid_of (λ r c, f (band_src p r) c).
Proof.
  intros Hp. each_draw3 Hp; reflexivity.
Qed.

Lemma transpose_grid f : transpose (grid_of f) = grid_of (λ r c, f c r).
Proof. reflexivity. Qed.

Lemma peers_flip r1 c1 r2 c2 : peers r1 c1 r2 c2 → peers c1 r1 c2 r2.
Proof. unfold peers, same_box. intros [Hne H]. split; [congruence|tauto]. Qed.

Lemma peers_band_map σ r1 c1 r2 c2 :
  band_map σ → r1 < 9 → r2 < 9 →
  peers r1 c1 r2 c2 → peers (σ r1) c1 (σ r2) c2.
Proof.
  intros Hσ Hr1 Hr2 [Hne H]. destruct (Hσ r1 r2 Hr1 Hr2) as (_ & Hinj & Hband).
  split.
  - intros [= E1 E2]. apply Hne. f_equal; auto.
  - unfold same_box in *. destruct H as [->|[->|[? ?]]]; auto.
Qed.

(** Renumbering the rows by a [band_map] keeps the three properties. *)
Lemma rows_moved_preserving (T : grid → grid) (σ : nat → nat) :
  band_map σ →
  (∀ f, T (grid_of f) = grid_of (λ r c, f (σ r) c)) →
  preserving T.
Proof.
  intros Hσ HT b Hwf. rewrite (wf_board_grid_of b Hwf), HT.
  set (f := cell b). split; [apply wf_grid_of|]. split.
  - intros Hv r1 c1 r2 c2 Hr1 Hc1 Hr2 Hc2 Hp.
    rewrite !cell_grid_of by done.
    destruct (Hσ r1 r2 Hr1 Hr2) as (Hlt1 & _). 
    destruct (Hσ r2 r1 Hr2 Hr1) as (Hlt2 & _).
    specialize (Hv (σ r1) c1 (σ r2) c2 Hlt1 Hc1 Hlt2 Hc2).
    rewrite !cell_grid_of in Hv by done.
    apply Hv. by apply peers_band_map.
  - intros Hfull r c Hr Hc. rewrite cell_grid_of by done.
    destruct (Hσ r r Hr Hr) as (Hlt & _).
    specialize (Hfull (σ r) c Hlt Hc). by rewrite cell_grid_of in Hfull.
Qed.

Lemma transpose_preserving : preserving transpose.
Proof.
  intros b Hwf. rewrite (wf_board_grid_of b Hwf), transpose_grid.
  set (f := cell b). split; [apply wf_grid_of|]. split.
  - intros Hv r1 c1 r2 c2 Hr1 Hc1 Hr2 Hc2 Hp.
    rewrite !cell_grid_of by done.
    specialize (Hv c1 r1 c2 r2 Hc1 Hr1 Hc2 Hr2).
    rewrite !cell_grid_of in Hv by done. apply Hv. by apply peers_flip.
  - intros Hfull r c Hr Hc. rewrite cell_grid_of by done.
    specialize (Hfull c r Hc Hr). by rewrite cell_grid_of in Hfull.
Qed.

Lemma preserving_compose T1 T2 :
  preserving T1 → preserving T2 → preserving (λ b, T2 (T1 b)).
Proof.
  intros H1 H2 b Hwf. destruct (H1 b Hwf) as (Hwf1 & Hv1 & Hf1).
  destruct (H2 (T1 b) Hwf1) as (Hwf2 & Hv2 & Hf2). auto.
Qed.

Lemma shuffle_block_preserving p i :
  draw_ok 3 p → i ∈ [0; 3; 6] → preserving (shuffle_block p i).
Proof.
  intros Hp Hi. apply (rows_moved_preserving _ (block_src p i)).
  - by apply block_src_band_map.
  - intros f. by apply shuffle_block_grid.
Qed.

Lemma shuffle_within_preserving p0 p3 p6 :
  draw_ok 3 p0 → draw_ok 3 p3 → draw_ok 3 p6 →
  preserving (shuffle_within p0 p3 p6).
Proof.
  intros H0 H3 H6. unfold shuffle_within.
  apply (preserving_compose (λ b, shuffle_block p3 3 (shuffle_block p0 0 b))
           (shuffle_block p6 6)).
  - apply (preserving_compose (shuffle_block p0 0) (shuffle_block p3 3));
      apply shuffle_block_preserving; auto; set_solver.
  - apply shuffle_block_preserving; auto; set_solver.
Qed.

Lemma shuffle_bands_preserving p : draw_ok 3 p → preserving (shuffle_bands p).
Proof.
  intros Hp. apply (rows_moved_preserving _ (band_src p)).
  - by apply band_src_band_map.
  - intros f. by apply shuffle_bands_grid.
Qed.

(** The same move applied to the columns: transpose, move, transpose. *)
Lemma via_transpose_preserving T :
  preserving T → preserving (λ b, transpose (T (transpose b))).
Proof.
  intros HT.
  apply (preserving_compose (λ b, T (transpose b)) transpose);
    [|apply transpose_preserving].
  apply (preserving_compose transpose T); [apply transpose_preserving|done].
Qed.

Lemma shuffle_step1_preserving d : draws_ok d → preserving (shuffle_step1 d).
Proof. intros []. by apply shuffle_within_preserving. Qed.

Lemma shuffle_step2_preserving d : draws_ok d → preserving (shuffle_step2 d).
Proof.
  intros []. unfold shuffle_step2.
  apply (via_transpose_preserving (shuffle_within _ _ _)).
  by apply shuffle_within_preserving.
Qed.

Lemma shuffle_step3_preserving d : draws_ok d → preserving (shuffle_step3 d).
Proof. intros []. by apply shuffle_bands_preserving. Qed.

Lemma shuffle_step4_preserving d : draws_ok d → preserving (shuffle_step4 d).
Proof.
  intros []. unfold shuffle_step4.
  apply (via_transpose_preserving (shuffle_bands _)).
  by apply shuffle_bands_preserving.
Qed.

Lemma shuffle_board_preserving d : draws_ok d → preserving (shuffle_board d).
Proof.
  intros Hd. unfold shuffle_board.
  apply (preserving_compose
           (λ b, shuffle_step3 d (shuffle_step2 d (shuffle_step1 d b)))
           (shuffle_step4 d)); [|by apply shuffle_step4_preserving].
  apply (preserving_compose (λ b, shuffle_step2 d (shuffle_step1 d b))
           (shuffle_step3 d)); [|by apply shuffle_step3_preserving].
  apply (preserving_compose (shuffle_step1 d) (shuffle_step2 d)).
  - by apply shuffle_step1_preserving.
  - by apply shuffle_step2_preserving.
Qed.

(** ** [random.shuffle] yields exactly the permutations *)

Lemma omap_lookup_seq {A} (k l : list A) :
  omap (λ i, (k ++ l) !! i) (seq (length k) (length l)) = l.
Proof.
  revert k. induction l as [|x l IH]; intros k; [done|]. simpl.
  rewrite list_lookup_middle by done. f_equal.
  specialize (IH (k ++ [x])).
  rewrite length_app, Nat.add_1_r, <-(assoc_L (++)) in IH. exact IH.
Qed.

Lemma shuffle_id {A} (l : list A) : shuffle (seq 0 (length l)) l = l.
Proof. exact (omap_lookup_seq [] l). Qed.

Lemma shuffle_Permutation {A} p (l : list A) :
  draw_ok (length l) p → shuffle p l ≡ₚ l.
Proof.
  intros Hp. rewrite <-(shuffle_id l) at 2.
  unfold shuffle, draw_ok in *. by rewrite Hp.
Qed.

Lemma shuffle_length {A} p (l : list A) :
  draw_ok (length l) p → length (shuffle p l) = length l.
Proof. intros Hp. by rewrite (shuffle_Permutation p l Hp). Qed.

Lemma lookup_shuffle {A} p (l : list A) j :
  Forall (λ i, i < length l) p →
  shuffle p l !! j = p !! j ≫= (λ i, l !! i).
Proof.
  intros Hp. revert j. unfold shuffle.
  induction Hp as [|i p Hi Hp IH]; intros j; [done|].
  simpl. destruct (lookup_lt_is_Some_2 l i Hi) as [x Hx]. rewrite Hx.
  destruct j; simpl; [done|]. apply IH.
Qed.

Lemma shuffle_shuffle {A} p q (l : list A) :
  Forall (λ i, i < length l) p →
  shuffle q (shuffle p l) = shuffle (shuffle q p) l.
Proof.
  intros Hp. induction q as [|j q IH]; [done|].
  change (shuffle (j :: q) (shuffle p l)) with
    (match shuffle p l !! j with
     | Some x => x :: shuffle q (shuffle p l)
     | None => shuffle q (shuffle p l)
     end).
  change (shuffle (j :: q) p) with
    (match p !! j with
     | Some i => i :: shuffle q p
     | None => shuffle q p
     end).
  rewrite lookup_shuffle, IH by done.
  destruct (p !! j) as [i|]; simpl; [|done].
  unfold shuffle at 3. simpl. by destruct (l !! i).
Qed.

Lemma shuffle_cons_S {A} p x (l : list A) :
  shuffle (S <$> p) (x :: l) = shuffle p l.
Proof.
  unfold shuffle. induction p as [|i p IH]; [done|].
  csimpl. by rewrite IH.
Qed.

(** Every rearrangement of [l] is the outcome of some draw. *)
Lemma Permutation_shuffle {A} (l l' : list A) :
  l ≡ₚ l' → ∃ p, draw_ok (length l) p ∧ l' = shuffle p l.
Proof.
  induction 1 as [|x l l' HP (p & Hp & ->)|x y l|l l' l'' HP1 (p & Hp & ->) HP2 (q & Hq & ->)].
  - exists []. split; [constructor|done].
  - exists (0 :: (S <$> p)). split.
    + unfold draw_ok in *. simpl. by rewrite Hp, fmap_S_seq.
    + change (shuffle (0 :: (S <$> p)) (x :: l))
        with (x :: shuffle (S <$> p) (x :: l)).
      by rewrite shuffle_cons_S.
  - exists (1 :: 0 :: seq 2 (length l)). split; [apply perm_swap|].
    unfold shuffle. simpl. do 2 f_equal.
    symmetry. exact (omap_lookup_seq [y; x] l).
  - exists (shuffle q p). 
    assert (length p = length l) as Hlen.
    { unfold draw_ok in Hp. by rewrite Hp, length_seq. }
    rewrite shuffle_length in Hq by done. split.
    + unfold draw_ok in *. etrans; [|exact Hp]. apply shuffle_Permutation.
      unfold draw_ok. by rewrite Hlen.
    + apply shuffle_shuffle. unfold draw_ok in Hp.
      rewrite Hp. apply Forall_forall. intros i Hi%elem_of_seq. lia.
Qed.

(** ** The canonical pattern *)

Lemma pattern_lt r c : pattern r c < 9.
Proof. unfold pattern. apply Nat.mod_upper_bound. done. Qed.

Lemma pattern_separates r1 c1 r2 c2 :
  r1 < 9 → c1 < 9 → r2 < 9 → c2 < 9 →
  peers r1 c1 r2 c2 → pattern r1 c1 ≠ pattern r2 c2.
Proof.
  intros Hr1 Hc1 Hr2 Hc2 Hp.
  assert (pattern_separatesb = true) as H by (vm_compute; reflexivity).
  unfold pattern_separatesb in H. rewrite forallb_all_cells in H.
  specialize (H r1 c1 Hr1 Hc1). cbv beta iota in H.
  rewrite forallb_all_cells in H. specialize (H r2 c2 Hr2 Hc2).
  cbv beta iota in H.
  apply peersb_spec in Hp. rewrite Hp in H. simpl in H.
  by apply negb_true_iff, Nat.eqb_neq in H.
Qed.

Lemma digits_range d : d ∈ digits ↔ (1 ≤ d ≤ 9)%Z.
Proof.
  unfold digits. rewrite !elem_of_cons, elem_of_nil. lia.
Qed.

Lemma NoDup_digits : NoDup digits.
Proof. apply (bool_decide_unpack _). vm_compute. exact I. Qed.

(** The pattern, relabelled by any permutation of the digits, is a solved
    grid. *)
Lemma base_board_solved nums : nums ≡ₚ digits → solved_grid (base_board nums).
Proof.
  intros Hn. unfold base_board.
  assert (length nums = 9) as Hlen by (by rewrite Hn).
  assert (NoDup nums) as Hnd by (rewrite Hn; apply NoDup_digits).
  assert (∀ r c, ∃ v, nums !! pattern r c = Some v) as Hsome.
  { intros r c. apply lookup_lt_is_Some_2. rewrite Hlen. apply pattern_lt. }
  split; [apply wf_grid_of|]. split.
  - intros r c Hr Hc. rewrite cell_grid_of by done.
    destruct (Hsome r c) as [v Hv]. rewrite Hv. simpl.
    apply digits_range. rewrite <-Hn. by eapply list_elem_of_lookup_2.
  - intros r1 c1 r2 c2 Hr1 Hc1 Hr2 Hc2 Hp _.
    rewrite !cell_grid_of by done.
    destruct (Hsome r1 c1) as [v1 Hv1]. destruct (Hsome r2 c2) as [v2 Hv2].
    rewrite Hv1, Hv2. simpl. intros ->.
    apply (pattern_separates r1 c1 r2 c2); try done.
    by eapply NoDup_lookup.
Qed.

Lemma get_base_pattern_solved d : draws_ok d → solved_grid (get_base_pattern d).
Proof.
  intros Hd. apply base_board_solved, shuffle_Permutation. apply Hd.
Qed.

Lemma full_board_solved d : draws_ok d → solved_grid (full_board d).
Proof.
  intros Hd. destruct (get_base_pattern_solved d Hd) as (Hwf & Hfull & Hv).
  destruct (shuffle_board_preserving d Hd _ Hwf) as (? & ? & ?).
  unfold full_board, solved_grid. auto.
Qed.

(** ** Writing cells *)

Lemma wf_set_cell b r c v : wf_board b → wf_board (set_cell b r c v).
Proof.
  intros [Hl Hf]. unfold set_cell. split; [by rewrite length_alter|].
  apply Forall_alter; [done|]. intros row Hrow.
  rewrite length_insert. intros _.
  rewrite Forall_forall in Hf. apply Hf. by eapply list_elem_of_lookup_2.
Qed.

Lemma cell_set_cell_ne b r c v r' c' :
  (r', c') ≠ (r, c) → cell (set_cell b r c v) r' c' = cell b r' c'.
Proof.
  intros Hne. unfold cell, set_cell.
  destruct (decide (r' = r)) as [->|Hr].
  - rewrite list_lookup_alter_eq. destruct (b !! r); simpl; [|done].
    rewrite list_lookup_insert_ne; [done|congruence].
  - by rewrite list_lookup_alter_ne.
Qed.

Lemma cell_set_cell_eq b r c v :
  wf_board b → r < 9 → c < 9 → cell (set_cell b r c v) r c = v.
Proof.
  intros [Hl Hf] Hr Hc. unfold cell, set_cell.
  rewrite list_lookup_alter_eq.
  destruct (lookup_lt_is_Some_2 b r) as [row Hrow]; [lia|].
  rewrite Hrow. simpl. rewrite list_lookup_insert_eq; [done|].
  rewrite Forall_forall in Hf. rewrite (Hf row); [done|].
  by eapply list_elem_of_lookup_2.
Qed.

Lemma cell_set_cell_zero b r c : cell (set_cell b r c 0%Z) r c = 0%Z.
Proof.
  unfold cell, set_cell. rewrite list_lookup_alter_eq.
  destruct (b !! r) as [row|]; simpl; [|done].
  destruct (decide (c < length row)).
  - by rewrite list_lookup_insert_eq.
  - rewrite list_insert_ge by lia. by rewrite lookup_ge_None_2 by lia.
Qed.

Lemma erased_refl b : erased b b.
Proof. intros r c. by right. Qed.

Lemma erased_trans b1 b2 b3 : erased b1 b2 → erased b2 b3 → erased b1 b3.
Proof.
  intros H12 H23 r c. destruct (H12 r c) as [?|E]; [by left|].
  rewrite E. apply H23.
Qed.

Lemma erased_set_cell b r c : erased (set_cell b r c 0%Z) b.
Proof.
  intros r' c'. destruct (decide ((r', c') = (r, c))) as [[= -> ->]|Hne].
  - left. apply cell_set_cell_zero.
  - right. by apply cell_set_cell_ne.
Qed.

Lemma erased_valid b' b : erased b' b → valid_grid b → valid_grid b'.
Proof.
  intros He Hv r1 c1 r2 c2 Hr1 Hc1 Hr2 Hc2 Hp Hnz.
  destruct (He r1 c1) as [?|E1]; [done|].
  destruct (He r2 c2) as [E2|E2].
  - by rewrite E2.
  - rewrite E1, E2. apply Hv; try done. by rewrite <-E1.
Qed.

Lemma remove_cells_erased cs b : erased (remove_cells cs b) b.
Proof.
  revert b. induction cs as [|[r c] cs IH]; intros b; [apply erased_refl|].
  simpl. eapply erased_trans; [apply IH|apply erased_set_cell].
Qed.

Lemma remove_cells_wf cs b : wf_board b → wf_board (remove_cells cs b).
Proof.
  revert b. induction cs as [|[r c] cs IH]; intros b Hwf; [done|].
  simpl. by apply IH, wf_set_cell.
Qed.

Lemma remove_cells_zero cs b r c :
  (r, c) ∈ cs → cell (remove_cells cs b) r c = 0%Z.
Proof.
  revert b. induction cs as [|[r' c'] cs IH]; intros b Hin.
  - by apply elem_of_nil in Hin.
  - simpl. apply elem_of_cons in Hin as [[= <- <-]|Hin]; [|by apply IH].
    destruct (remove_cells_erased cs (set_cell b r c 0%Z) r c) as [?|E];
      [done|].
    rewrite E. apply cell_set_cell_zero.
Qed.

Lemma generate_puzzle_erased d : erased (generate_puzzle d) (full_board d).
Proof. apply remove_cells_erased. Qed.

Lemma generate_puzzle_wf d : draws_ok d → wf_board (generate_puzzle d).
Proof. intros Hd. apply remove_cells_wf, full_board_solved, Hd. Qed.

Lemma generate_puzzle_valid d : draws_ok d → valid_grid (generate_puzzle d).
Proof.
  intros Hd. eapply erased_valid; [apply generate_puzzle_erased|].
  apply full_board_solved, Hd.
Qed.

(** At least one cell of the puzzle is empty: the first one drawn. *)
Lemma generate_puzzle_has_empty d :
  draws_ok d → ∃ r c, r < 9 ∧ c < 9 ∧ cell (generate_puzzle d) r c = 0%Z.
Proof.
  intros Hd. pose proof (ok_cells d Hd) as Hc. pose proof (ok_count d Hd) as Hn.
  assert (length all_cells = 81) as Hlen by reflexivity.
  assert (shuffle (g_cells d) all_cells ≡ₚ all_cells) as HP.
  { apply shuffle_Permutation. by rewrite Hlen. }
  destruct (shuffle (g_cells d) all_cells) as [|[r c] cs] eqn:E.
  { apply Permutation_length in HP. by rewrite Hlen in HP. }
  assert ((r, c) ∈ all_cells) as Hin by (rewrite <-HP; left).
  apply all_cells_spec in Hin as [Hr Hc']. exists r, c. repeat split; try done.
  unfold generate_puzzle. rewrite E. apply remove_cells_zero.
  destruct (g_count d) as [|n]; [lia|]. simpl. left.
Qed.

(** ** Candidate calculator *)

Lemma row_of_cells b r : wf_board b → r < 9 → row_of b r = row_cells b r.
Proof.
  intros Hwf Hr. rewrite (wf_board_grid_of b Hwf).
  below9 r Hr; reflexivity.
Qed.

Lemma column_of_cells b c : column_of b c = col_cells b c.
Proof. reflexivity. Qed.

Lemma box_cells_at b r c :
  r < 9 → c < 9 →
  box_cells b (3 * (r / 3) + c / 3)
  = i ← seq (3 * (r / 3)) 3; (λ j, cell b i j) <$> seq (3 * (c / 3)) 3.
Proof. intros Hr Hc. below9 r Hr; below9 c Hc; reflexivity. Qed.

Lemma in_box_same_box r c r' c' :
  r < 9 → c < 9 →
  r' ∈ seq (3 * (r / 3)) 3 ∧ c' ∈ seq (3 * (c / 3)) 3
  ↔ r' < 9 ∧ c' < 9 ∧ same_box r c r' c'.
Proof.
  intros Hr Hc. unfold same_box. rewrite !elem_of_seq.
  pose proof (Nat.div_mod_eq r 3). pose proof (Nat.mod_upper_bound r 3).
  pose proof (Nat.div_mod_eq c 3). pose proof (Nat.mod_upper_bound c 3).
  pose proof (Nat.div_mod_eq r' 3). pose proof (Nat.mod_upper_bound r' 3).
  pose proof (Nat.div_mod_eq c' 3). pose proof (Nat.mod_upper_bound c' 3).
  lia.
Qed.

Lemma not_in_row_cells b r d :
  d ∉ row_cells b r ↔ ∀ c', c' < 9 → cell b r c' ≠ d.
Proof.
  unfold row_cells. rewrite list_elem_of_fmap. split.
  - intros H c' Hc' E. apply H. exists c'. split; [done|]. apply elem_of_seq. lia.
  - intros H (c' & -> & Hc'%elem_of_seq). apply (H c'); [lia|done].
Qed.

Lemma not_in_col_cells b c d :
  d ∉ col_cells b c ↔ ∀ r', r' < 9 → cell b r' c ≠ d.
Proof.
  unfold col_cells. rewrite list_elem_of_fmap. split.
  - intros H r' Hr' E. apply H. exists r'. split; [done|]. apply elem_of_seq. lia.
  - intros H (r' & -> & Hr'%elem_of_seq). apply (H r'); [lia|done].
Qed.

Lemma not_in_box b (rows cols : list nat) d :
  d ∉ (i ← rows; (λ j, cell b i j) <$> cols)
  ↔ ∀ i j, i ∈ rows → j ∈ cols → cell b i j ≠ d.
Proof.
  rewrite list_elem_of_bind. split.
  - intros H i j Hi Hj E. apply H. exists i. split; [|done].
    apply list_elem_of_fmap. by exists j.
  - intros H (i & (j & -> & Hj)%list_elem_of_fmap & Hi). by apply (H i j).
Qed.

(** The three tests of [is_valid] and of [get_candidates], on a 9x9 board,
    say that no cell of the row, the column or the box holds the digit. *)
Lemma three_tests_no_conflict b r c d :
  wf_board b → r < 9 → c < 9 →
  ((d ∉ row_of b r) ∧ (d ∉ column_of b c)
   ∧ (∀ i j, i ∈ seq (3 * (r / 3)) 3 → j ∈ seq (3 * (c / 3)) 3 →
        cell b i j ≠ d))
  ↔ no_conflict b r c d.
Proof.
  intros Hwf Hr Hc. rewrite row_of_cells, column_of_cells by done.
  rewrite not_in_row_cells, not_in_col_cells. unfold no_conflict. split.
  - intros (Hrow & Hcol & Hbox) r' c' Hr' Hc' [->|[->|Hb]]; auto.
    apply Hbox; by apply (in_box_same_box r c r' c').
  - intros H. split; [|split].
    + intros c' Hc'. apply H; auto.
    + intros r' Hr'. apply H; auto.
    + intros i j Hi Hj.
      destruct (proj1 (in_box_same_box r c i j Hr Hc)) as (? & ? & ?); auto.
Qed.

Lemma is_valid_tests b r c d :
  is_valid b r c d = true
  ↔ (d ∉ row_of b r) ∧ (d ∉ column_of b c)
    ∧ (∀ i j, i ∈ seq (3 * (r / 3)) 3 → j ∈ seq (3 * (c / 3)) 3 →
         cell b i j ≠ d).
Proof.
  unfold is_valid.
  case_bool_decide as H1; [split; [done|intros (? & _); done]|].
  case_bool_decide as H2; [split; [done|intros (_ & ? & _); done]|].
  rewrite forallb_forall. setoid_rewrite forallb_forall.
  setoid_rewrite negb_true_iff. setoid_rewrite bool_decide_eq_false.
  setoid_rewrite <-list_elem_of_In. split.
  - intros H. repeat split; auto.
  - intros (_ & _ & H) i Hi j Hj. auto.
Qed.

Lemma elem_of_discard_cells (f : nat → Z) (l : list nat) (s : gset Z) d :
  d ∈ foldl (λ s j, s ∖ {[f j]}) s l ↔ d ∈ s ∧ ∀ j, j ∈ l → f j ≠ d.
Proof.
  revert s. induction l as [|j l IH]; intros s; simpl.
  - split; [|tauto]. intros H. split; [done|]. intros j Hj.
    by apply elem_of_nil in Hj.
  - rewrite IH, elem_of_difference, elem_of_singleton.
    setoid_rewrite elem_of_cons. split.
    + intros [[? ?] Hl]. split; [done|]. intros j' [->|?]; auto.
    + intros [? Hl]. repeat split; auto. intros ->. apply (Hl j); [by left|done].
Qed.

Lemma elem_of_discard_box (f : nat → nat → Z) (rows cols : list nat)
    (s : gset Z) d :
  d ∈ foldl (λ s i, foldl (λ s j, s ∖ {[f i j]}) s cols) s rows
  ↔ d ∈ s ∧ ∀ i j, i ∈ rows → j ∈ cols → f i j ≠ d.
Proof.
  revert s. induction rows as [|i rows IH]; intros s; simpl.
  - split; [|tauto]. intros H. split; [done|]. intros i j Hi.
    by apply elem_of_nil in Hi.
  - rewrite IH, (elem_of_discard_cells (f i)).
    setoid_rewrite elem_of_cons. split.
    + intros [[? ?] Hl]. split; [done|]. intros i' j [->|?]; auto.
    + intros [? Hl]. repeat split; auto.
Qed.

Lemma elem_of_get_candidates b r c d :
  d ∈ get_candidates b r c
  ↔ cell b r c = 0%Z ∧ d ∈ digits ∧ (d ∉ row_of b r) ∧ (d ∉ column_of b c)
    ∧ (∀ i j, i ∈ seq (3 * (r / 3)) 3 → j ∈ seq (3 * (c / 3)) 3 →
         cell b i j ≠ d).
Proof.
  unfold get_candidates. case_bool_decide as Hz.
  - split; [set_solver|]. intros [? _]. done.
  - rewrite (elem_of_discard_box (cell b)).
    rewrite !elem_of_difference, !elem_of_list_to_set. tauto.
Qed.

(** On an empty cell the move validator and the candidate set agree. *)
Lemma is_valid_iff_candidate b r c d :
  cell b r c = 0%Z → (1 ≤ d ≤ 9)%Z →
  is_valid b r c d = true ↔ d ∈ get_candidates b r c.
Proof.
  intros Hz Hd. rewrite is_valid_tests, elem_of_get_candidates.
  apply digits_range in Hd. tauto.
Qed.

Lemma get_candidates_filled b r c :
  cell b r c ≠ 0%Z → get_candidates b r c = ∅.
Proof. intros H. unfold get_candidates. by rewrite bool_decide_eq_true_2. Qed.

Lemma get_candidates_range b r c d :
  d ∈ get_candidates b r c → (1 ≤ d ≤ 9)%Z.
Proof. rewrite elem_of_get_candidates, digits_range. tauto. Qed.

(** The code computes the candidate set of the specification. *)
Lemma get_candidates_spec b r c :
  wf_board b → r < 9 → c < 9 → get_candidates b r c = candidates_spec b r c.
Proof.
  intros Hwf Hr Hc. apply set_eq. intros d.
  rewrite elem_of_get_candidates. unfold candidates_spec.
  case_bool_decide as Hz.
  - split; [tauto|set_solver].
  - rewrite !elem_of_difference, !elem_of_list_to_set.
    rewrite box_cells_at, not_in_box by done.
    rewrite row_of_cells, column_of_cells by done. tauto.
Qed.

Lemma candidate_no_conflict b r c d :
  wf_board b → r < 9 → c < 9 →
  d ∈ get_candidates b r c
  ↔ cell b r c = 0%Z ∧ (1 ≤ d ≤ 9)%Z ∧ no_conflict b r c d.
Proof.
  intros Hwf Hr Hc.
  rewrite elem_of_get_candidates, digits_range, three_tests_no_conflict by done.
  tauto.
Qed.

Lemma is_valid_no_conflict b r c d :
  wf_board b → r < 9 → c < 9 →
  is_valid b r c d = true ↔ no_conflict b r c d.
Proof.
  intros Hwf Hr Hc. by rewrite is_valid_tests, three_tests_no_conflict.
Qed.

(** Writing a digit that conflicts with no peer keeps the grid valid. *)
Lemma valid_set_cell b r c d :
  wf_board b → r < 9 → c < 9 →
  valid_grid b → no_conflict (set_cell b r c 0%Z) r c d →
  valid_grid (set_cell b r c d).
Proof.
  intros Hwf Hr Hc Hv Hnc r1 c1 r2 c2 Hr1 Hc1 Hr2 Hc2 Hp Hnz.
  assert (∀ r' c', r' < 9 → c' < 9 → (r', c') ≠ (r, c) →
            r' = r ∨ c' = c ∨ same_box r c r' c' → cell b r' c' ≠ d) as Hfree.
  { intros r' c' Hr' Hc' Hne Hrel.
    rewrite <-(cell_set_cell_ne b r c 0%Z r' c') by done. by apply Hnc. }
  destruct Hp as [Hne Hrel].
  destruct (decide ((r1, c1) = (r, c))) as [[= -> ->]|Hne1];
    destruct (decide ((r2, c2) = (r, c))) as [[= -> ->]|Hne2].
  - congruence.
  - rewrite cell_set_cell_eq by done.
    rewrite cell_set_cell_ne by done. apply not_eq_sym, Hfree; try done.
    destruct Hrel as [->|[->|?]]; auto.
  - rewrite cell_set_cell_ne by done.
    rewrite cell_set_cell_eq by done. apply Hfree; try done.
    unfold same_box in *. destruct Hrel as [->|[->|[? ?]]]; auto.
  - rewrite !cell_set_cell_ne by done.
    rewrite cell_set_cell_ne in Hnz by done. apply Hv; try done.
Qed.

(** ** The heap keeps its entries *)

Section heap.
Implicit Types (heap : list entry) (item : entry).

Lemma insert_Permutation heap i item :
  i < length heap → <[i := item]> heap ≡ₚ item :: delete i heap.
Proof.
  revert i. induction heap as [|y heap IH]; intros i Hi; simpl in *; [lia|].
  destruct i as [|i]; simpl; [done|].
  rewrite IH by lia. apply perm_swap.
Qed.

(** Moving the entry at [j] to [i] and putting [item] at [j] gives the
    same entries as putting [item] at [i]. *)
Lemma insert_move_Permutation heap i j item y :
  i ≠ j → i < length heap → heap !! j = Some y →
  <[j := item]> (<[i := y]> heap) ≡ₚ <[i := item]> heap.
Proof.
  intros Hne Hi Hj.
  assert (j < length heap) as Hjlt by (by eapply lookup_lt_Some).
  assert (delete j (<[i := y]> heap) ≡ₚ delete i heap) as Hdel.
  { apply (Permutation_cons_inv (a := y)).
    trans (<[i := y]> heap); [|by apply insert_Permutation].
    symmetry. apply delete_Permutation.
    by rewrite list_lookup_insert_ne. }
  rewrite insert_Permutation by (by rewrite length_insert).
  rewrite Hdel. symmetry. by apply insert_Permutation.
Qed.

Lemma parent_lt pos : 0 < pos → (pos - 1) / 2 < pos.
Proof.
  intros Hpos. pose proof (Nat.div_mod_eq (pos - 1) 2). lia.
Qed.

Lemma siftdown_loop_Permutation fuel heap startpos pos item :
  pos < length heap →
  siftdown_loop fuel heap startpos pos item ≡ₚ <[pos := item]> heap.
Proof.
  revert heap pos. induction fuel as [|fuel IH]; intros heap pos Hpos.
  { reflexivity. }
  cbn [siftdown_loop]. case_bool_decide as Hgt; [|reflexivity].
  destruct (entry_lt item (heap !!! ((pos - 1) / 2))); [|reflexivity].
  assert ((pos - 1) / 2 < pos) as Hlt by (apply parent_lt; lia).
  rewrite IH by (rewrite length_insert; lia).
  apply insert_move_Permutation; [lia|done|].
  apply list_lookup_lookup_total_lt. lia.
Qed.

Lemma siftdown_Permutation heap startpos pos :
  pos < length heap → siftdown heap startpos pos ≡ₚ heap.
Proof.
  intros Hpos. unfold siftdown.
  rewrite siftdown_loop_Permutation by done.
  by rewrite list_insert_id by (by apply list_lookup_lookup_total_lt).
Qed.

(** The fuel of [siftdown_loop] never runs out before the loop ends: any
    two amounts of at least [pos] give the same heap. *)
Lemma siftdown_loop_fuel fuel fuel' heap startpos pos item :
  pos ≤ fuel → pos ≤ fuel' →
  siftdown_loop fuel heap startpos pos item
  = siftdown_loop fuel' heap startpos pos item.
Proof.
  revert fuel' heap pos.
  induction fuel as [|fuel IH]; intros fuel' heap pos H1 H2.
  - assert (pos = 0) as -> by lia. destruct fuel'; [done|].
    cbn [siftdown_loop]. by rewrite bool_decide_eq_false_2 by lia.
  - destruct fuel' as [|fuel'].
    + assert (pos = 0) as -> by lia. cbn [siftdown_loop].
      by rewrite bool_decide_eq_false_2 by lia.
    + cbn [siftdown_loop]. case_bool_decide as Hgt; [|done].
      destruct (entry_lt item (heap !!! ((pos - 1) / 2))); [|done].
      assert ((pos - 1) / 2 < pos) by (apply parent_lt; lia).
      apply IH; lia.
Qed.

Lemma siftup_loop_Permutation fuel heap endpos pos item :
  pos < length heap → endpos ≤ length heap →
  (siftup_loop fuel heap endpos pos).2 < length heap
  ∧ length (siftup_loop fuel heap endpos pos).1 = length heap
  ∧ <[(siftup_loop fuel heap endpos pos).2 := item]>
      (siftup_loop fuel heap endpos pos).1
    ≡ₚ <[pos := item]> heap.
Proof.
  revert heap pos. induction fuel as [|fuel IH]; intros heap pos Hpos Hend.
  { simpl. split; [done|]. split; [done|reflexivity]. }
  cbn [siftup_loop]. case_bool_decide as Hchild.
  2: { simpl. split; [done|]. split; [done|reflexivity]. }
  set (childpos := if bool_decide (2 * pos + 1 + 1 < endpos)
                      && negb (entry_lt (heap !!! (2 * pos + 1))
                                 (heap !!! (2 * pos + 1 + 1)))
                   then 2 * pos + 1 + 1 else 2 * pos + 1).
  assert (pos < childpos ∧ childpos < endpos) as [Hc1 Hc2].
  { unfold childpos. destruct (bool_decide (2 * pos + 1 + 1 < endpos)) eqn:E;
      simpl; [|lia].
    apply bool_decide_eq_true in E.
    destruct (negb _); lia. }
  destruct (IH (<[pos := heap !!! childpos]> heap) childpos)
    as (H1 & H2 & H3); [rewrite length_insert; lia..|].
  rewrite length_insert in H1, H2.
  split; [done|]. split; [done|]. rewrite H3.
  apply insert_move_Permutation; [lia|done|].
  apply list_lookup_lookup_total_lt. lia.
Qed.

(** Likewise for [siftup_loop], whose hole moves down at every round. *)
Lemma siftup_loop_fuel fuel fuel' heap endpos pos :
  endpos ≤ fuel + pos → endpos ≤ fuel' + pos →
  siftup_loop fuel heap endpos pos = siftup_loop fuel' heap endpos pos.
Proof.
  revert fuel' heap pos.
  induction fuel as [|fuel IH]; intros fuel' heap pos H1 H2.
  - destruct fuel'; [done|].
    cbn [siftup_loop]. by rewrite bool_decide_eq_false_2 by lia.
  - destruct fuel' as [|fuel'].
    + cbn [siftup_loop]. by rewrite bool_decide_eq_false_2 by lia.
    + cbn [siftup_loop]. case_bool_decide as Hchild; [|done].
      apply IH; destruct (_ && _); lia.
Qed.

Lemma siftup_Permutation heap pos :
  pos < length heap → siftup heap pos ≡ₚ heap.
Proof.
  intros Hpos. unfold siftup.
  destruct (siftup_loop_Permutation (length heap) heap (length heap) pos
              (heap !!! pos)) as (H1 & H2 & H3); [done..|].
  destruct (siftup_loop (length heap) heap (length heap) pos)
    as [heap' pos']. simpl in *.
  rewrite siftdown_Permutation by (by rewrite length_insert, H2).
  rewrite H3.
  by rewrite list_insert_id by (by apply list_lookup_lookup_total_lt).
Qed.

Lemma heappush_Permutation heap item : heappush heap item ≡ₚ item :: heap.
Proof.
  unfold heappush. rewrite siftdown_Permutation.
  - by rewrite Permutation_app_comm.
  - rewrite length_app. simpl. lia.
Qed.

Lemma heappush_length heap item :
  length (heappush heap item) = S (length heap).
Proof. by rewrite heappush_Permutation. Qed.

Lemma heappop_Permutation heap item rest :
  heappop heap = Some (item, rest) → heap ≡ₚ item :: rest.
Proof.
  unfold heappop. destruct (last heap) as [lastelt|] eqn:Hlast; [|done].
  apply last_Some in Hlast as [front ->].
  rewrite length_app, Nat.add_sub, take_app_length.
  destruct front as [|returnitem front]; intros [= <- <-]; [done|].
  rewrite siftup_Permutation by (simpl; lia). simpl.
  by rewrite <-Permutation_cons_append.
Qed.

(** [heappop] fails on the empty heap only. *)
Lemma heappop_is_Some heap : heap ≠ [] → is_Some (heappop heap).
Proof.
  intros Hne. unfold heappop.
  destruct (last heap) eqn:Hlast; [|by apply last_None in Hlast].
  by destruct (take _ heap).
Qed.

Lemma heappop_length heap item rest :
  heappop heap = Some (item, rest) → length heap = S (length rest).
Proof. intros H%heappop_Permutation. by rewrite H. Qed.
End heap.

(** ** The frontier operations *)

(** Reads of a field of a freshly updated session. *)
Ltac sess_simpl :=
  cbn [board initial_board current_turn cell_colors pq with_pq with_board
       with_turn with_colors write_cell paint] in *.

Lemma set_cell_set_cell b r c v w :
  set_cell (set_cell b r c v) r c w = set_cell b r c w.
Proof.
  unfold set_cell. rewrite list_alter_alter_eq.
  apply list_alter_ext; [|done]. intros row _. simpl.
  apply list_insert_insert_eq.
Qed.

Lemma set_cell_same b r c : set_cell b r c (cell b r c) = b.
Proof.
  unfold set_cell, cell. apply list_eq. intros i.
  destruct (decide (i = r)) as [->|Hne].
  - rewrite list_lookup_alter_eq. destruct (b !! r) as [row|]; simpl; [|done].
    f_equal. apply list_insert_id'. intros Hc.
    destruct (lookup_lt_is_Some_2 row c Hc) as [x Hx]. by rewrite Hx.
  - by rewrite list_lookup_alter_ne.
Qed.

(** The neighbour set holds the cells of the row, of the column and of the
    box, the cell itself among them. *)
Lemma elem_of_neighbours r c r' c' :
  r < 9 → c < 9 →
  (r', c') ∈ neighbours r c
  ↔ r' < 9 ∧ c' < 9 ∧ (r' = r ∨ c' = c ∨ same_box r c r' c').
Proof.
  intros Hr Hc. unfold neighbours.
  assert (∀ (l : list nat) (s : gset (nat * nat)) x,
            x ∈ foldl (λ nb i, nb ∪ {[(r, i)]} ∪ {[(i, c)]}) s l
            ↔ x ∈ s ∨ ∃ i, i ∈ l ∧ (x = (r, i) ∨ x = (i, c))) as Hline.
  { induction l as [|i l IH]; intros s x; simpl.
    - split; [by left|]. intros [?|(i & Hi & _)]; [done|].
      by apply elem_of_nil in Hi.
    - rewrite IH, !elem_of_union, !elem_of_singleton.
      setoid_rewrite elem_of_cons. naive_solver. }
  assert (∀ (cols : list nat) i (s : gset (nat * nat)) x,
            x ∈ foldl (λ nb j, nb ∪ {[(i, j)]}) s cols
            ↔ x ∈ s ∨ ∃ j, j ∈ cols ∧ x = (i, j)) as Hcols.
  { induction cols as [|j cols IH]; intros i s x; simpl.
    - split; [by left|]. intros [?|(j & Hj & _)]; [done|].
      by apply elem_of_nil in Hj.
    - rewrite IH, !elem_of_union, !elem_of_singleton.
      setoid_rewrite elem_of_cons. naive_solver. }
  assert (∀ (rows cols : list nat) (s : gset (nat * nat)) x,
            x ∈ foldl (λ nb i, foldl (λ nb j, nb ∪ {[(i, j)]}) nb cols) s rows
            ↔ x ∈ s ∨ ∃ i j, i ∈ rows ∧ j ∈ cols ∧ x = (i, j)) as Hbox.
  { induction rows as [|i rows IH]; intros cols s x; simpl.
    - split; [by left|]. intros [?|(i & j & Hi & _)]; [done|].
      by apply elem_of_nil in Hi.
    - rewrite IH, Hcols. setoid_rewrite elem_of_cons. naive_solver. }
  rewrite Hbox, Hline. split.
  - intros [[Hin|(i & Hi%elem_of_seq & [[= -> ->]|[= -> ->]])]
           |(i & j & Hi & Hj & [= -> ->])].
    + set_solver.
    + split; [done|]. split; [lia|]. by left.
    + split; [lia|]. split; [done|]. right. by left.
    + destruct (proj1 (in_box_same_box r c i j Hr Hc)) as (? & ? & ?); auto.
  - intros (Hr' & Hc' & [->|[->|Hb]]).
    + left. right. exists c'. split; [apply elem_of_seq; lia|by left].
    + left. right. exists r'. split; [apply elem_of_seq; lia|by right].
    + right. exists r', c'.
      destruct (proj2 (in_box_same_box r c r' c' Hr Hc)) as (? & ?); auto.
Qed.

(** Twenty peers and the cell itself. *)
Lemma size_neighbours r c : r < 9 → c < 9 → size (neighbours r c) = 21.
Proof.
  intros Hr Hc. below9 r Hr; below9 c Hc; vm_compute; reflexivity.
Qed.

Lemma neighbours_self r c : r < 9 → c < 9 → (r, c) ∈ neighbours r c.
Proof. intros Hr Hc. apply elem_of_neighbours; auto. Qed.

Lemma update_fold st (l : list (nat * nat)) :
  let st' :=
    foldl (λ st rc, with_pq st (heappush (pq st) (fresh_entry (board st) rc)))
      st l in
  board st' = board st ∧ initial_board st' = initial_board st
  ∧ current_turn st' = current_turn st ∧ cell_colors st' = cell_colors st
  ∧ pq st' ≡ₚ (fresh_entry (board st) <$> l) ++ pq st.
Proof.
  revert st. induction l as [|rc l IH]; intros st; simpl; [done|].
  destruct (IH (with_pq st (heappush (pq st) (fresh_entry (board st) rc))))
    as (Hb & Hi & Ht & Hc & Hq).
  sess_simpl. repeat split; try done.
  rewrite Hq, heappush_Permutation. by rewrite Permutation_middle.
Qed.

Lemma update_neighbors_board st r c :
  board (update_neighbors st r c) = board st.
Proof. apply (update_fold st (elements (neighbours r c))). Qed.

Lemma update_neighbors_initial st r c :
  initial_board (update_neighbors st r c) = initial_board st.
Proof. apply (update_fold st (elements (neighbours r c))). Qed.

Lemma update_neighbors_turn st r c :
  current_turn (update_neighbors st r c) = current_turn st.
Proof. apply (update_fold st (elements (neighbours r c))). Qed.

Lemma update_neighbors_colors st r c :
  cell_colors (update_neighbors st r c) = cell_colors st.
Proof. apply (update_fold st (elements (neighbours r c))). Qed.

(** [update_neighbors] only pushes: one fresh entry for every cell of the
    neighbour set, on top of the entries already there. *)
Lemma update_neighbors_pq st r c :
  pq (update_neighbors st r c)
  ≡ₚ (fresh_entry (board st) <$> elements (neighbours r c)) ++ pq st.
Proof. apply (update_fold st (elements (neighbours r c))). Qed.

Lemma update_neighbors_length st r c :
  r < 9 → c < 9 →
  length (pq (update_neighbors st r c)) = 21 + length (pq st).
Proof.
  intros Hr Hc. rewrite update_neighbors_pq, length_app, length_fmap.
  f_equal. by apply size_neighbours.
Qed.

Lemma fresh_entry_in_range b r c rc :
  r < 9 → c < 9 → rc ∈ elements (neighbours r c) →
  entry_in_range (fresh_entry b rc).
Proof.
  intros Hr Hc Hin. destruct rc as [r' c'].
  apply elem_of_elements, elem_of_neighbours in Hin; [|done..].
  unfold entry_in_range, fresh_entry, entry_row, entry_col. simpl. tauto.
Qed.

Lemma update_neighbors_in_range st r c :
  r < 9 → c < 9 → Forall entry_in_range (pq st) →
  Forall entry_in_range (pq (update_neighbors st r c)).
Proof.
  intros Hr Hc Hpq. rewrite update_neighbors_pq.
  apply Forall_app. split; [|done].
  apply Forall_fmap, Forall_forall. intros rc Hin. simpl.
  by apply (fresh_entry_in_range _ r c).
Qed.

(** [initialize_priority_queue] starts from the empty heap and pushes one
    entry for every empty cell that has a candidate. *)
Lemma initialize_priority_queue_spec st :
  let st' := initialize_priority_queue st in
  board st' = board st ∧ initial_board st' = initial_board st
  ∧ current_turn st' = current_turn st ∧ cell_colors st' = cell_colors st
  ∧ pq st' ≡ₚ fresh_entry (board st) <$> filter (live_cell (board st)) all_cells.
Proof.
  unfold initialize_priority_queue.
  assert (∀ (l : list (nat * nat)) st,
    let st' := foldl (λ st '(i, j),
      if bool_decide (cell (board st) i j = 0%Z) then
        let candidates := get_candidates (board st) i j in
        if bool_decide (candidates ≠ ∅)
        then with_pq st (heappush (pq st) (size candidates, i, j, candidates))
        else st
      else st) st l in
    board st' = board st ∧ initial_board st' = initial_board st
    ∧ current_turn st' = current_turn st ∧ cell_colors st' = cell_colors st
    ∧ pq st' ≡ₚ (fresh_entry (board st) <$> filter (live_cell (board st)) l)
               ++ pq st) as Hfold.
  { induction l as [|[i j] l IH]; intros st0; [done|].
    cbn [foldl]. rewrite filter_cons.
    destruct (decide (live_cell (board st0) (i, j))) as [Hl|Hl].
    - unfold live_cell in Hl. cbn [fst snd] in Hl.
      apply andb_True in Hl as [H1%bool_decide_unpack H2%bool_decide_unpack].
      rewrite (bool_decide_eq_true_2 _ H1), (bool_decide_eq_true_2 _ H2).
      destruct (IH (with_pq st0 (heappush (pq st0)
          (size (get_candidates (board st0) i j), i, j,
           get_candidates (board st0) i j)))) as (Hb & Hi & Ht & Hc & Hq).
      sess_simpl. repeat split; try done.
      rewrite Hq, heappush_Permutation, fmap_cons.
      symmetry. apply Permutation_middle.
    - unfold live_cell in Hl. cbn [fst snd] in Hl.
      destruct (bool_decide (cell (board st0) i j = 0%Z)); [|apply IH].
      destruct (bool_decide (get_candidates (board st0) i j ≠ ∅));
        [|apply IH].
      by destruct Hl. }
  destruct (Hfold all_cells (with_pq st [])) as (Hb & Hi & Ht & Hc & Hq).
  sess_simpl. repeat split; try done. by rewrite Hq, app_nil_r.
Qed.

(** ** The automated mover *)

Lemma choice_elem k (l : list Z) : l ≠ [] → choice k l ∈ l.
Proof.
  intros Hne. unfold choice.
  assert (k mod length l < length l) as Hlt.
  { apply Nat.mod_upper_bound. by destruct l. }
  destruct (lookup_lt_is_Some_2 l _ Hlt) as [x Hx]. rewrite Hx. simpl.
  by eapply list_elem_of_lookup_2.
Qed.

Lemma choice_candidate k (s : gset Z) : s ≠ ∅ → choice k (elements s) ∈ s.
Proof.
  intros Hne. apply elem_of_elements, choice_elem.
  intros E. apply Hne. by apply leibniz_equiv, elements_empty_inv.
Qed.

(** The loop of [ai_make_move] ends: the heap shrinks at every round, so
    fuel equal to its length is enough. *)
Lemma ai_loop_total fuel k st :
  length (pq st) ≤ fuel → is_Some (ai_loop fuel k st).
Proof.
  revert st. induction fuel as [|fuel IH]; intros st Hlen.
  - destruct (pq st) eqn:E; simpl in Hlen; [|lia]. simpl. by rewrite E.
  - cbn [ai_loop]. destruct (pq st) as [|e0 q0] eqn:E; [done|].
    destruct (heappop_is_Some (e0 :: q0)) as [[[[[count row] col] cands] rest] Hpop];
      [done|].
    rewrite Hpop. apply heappop_length in Hpop. simpl in Hpop, Hlen.
    sess_simpl. case_bool_decide; [|by case_bool_decide].
    apply IH. sess_simpl. lia.
Qed.

Lemma ai_make_move_total k st : is_Some (ai_make_move k st).
Proof. by apply ai_loop_total. Qed.

Lemma ai_loop_outcome fuel k st res st' :
  ai_loop fuel k st = Some (res, st') → ai_outcome st res st'.
Proof.
  revert st. induction fuel as [|fuel IH]; intros st Hrun.
  - destruct (pq st) eqn:E; simpl in Hrun; rewrite E in Hrun; [|done].
    injection Hrun as <- <-. by apply (ai_exhausted st []); rewrite ?E.
  - cbn [ai_loop] in Hrun. destruct (pq st) as [|e0 q0] eqn:E.
    { injection Hrun as <- <-. by apply (ai_exhausted st []); rewrite ?E. }
    destruct (heappop (e0 :: q0)) as [[[[[count row] col] cands] rest]|] eqn:Hpop;
      [|done].
    apply heappop_Permutation in Hpop. rewrite <-E in Hpop. sess_simpl.
    case_bool_decide as Hstale.
    + apply IH in Hrun. sess_simpl.
      inversion Hrun as [dropped st1 Hq Hd Hb Hi Ht Hc Hp
                        |dropped n r c s q Hq Hd Hz Hc
                        |dropped n r c s q v Hq Hd Hz Hv]; subst; sess_simpl.
      * apply (ai_exhausted st ((count, row, col, cands) :: dropped));
          try done.
        -- by rewrite Hpop, Hq.
        -- by constructor.
      * apply (ai_dead st ((count, row, col, cands) :: dropped) n r c s q);
          try done.
        -- by rewrite Hpop, Hq.
        -- by constructor.
      * apply (ai_placed st ((count, row, col, cands) :: dropped) n r c s q v);
          try done.
        -- by rewrite Hpop, Hq.
        -- by constructor.
    + case_bool_decide as Hnone; injection Hrun as <- <-.
      * by apply (ai_dead st [] count row col cands rest).
      * apply (ai_placed st [] count row col cands rest); try done.
        by apply choice_candidate.
Qed.

Lemma ai_make_move_outcome k st res st' :
  ai_make_move k st = Some (res, st') → ai_outcome st res st'.
Proof. apply ai_loop_outcome. Qed.

(** ** The human mover *)

Lemma turn_eqb_spec a b : turn_eqb a b = true ↔ a = b.
Proof. destruct a, b; simpl; split; congruence. Qed.

Lemma on_cell_edit_outcome st row col value :
  edit_outcome st row col value
    (on_cell_edit st row col value).1 (on_cell_edit st row col value).2.
Proof.
  unfold on_cell_edit.
  destruct (turn_eqb (current_turn st) user) eqn:Hturn; cbn [negb fst snd].
  2: { apply edit_not_turn. intros E%turn_eqb_spec. congruence. }
  apply turn_eqb_spec in Hturn.
  case_bool_decide as Hlock; cbn [fst snd]; [by apply edit_locked|].
  destruct value as [| |num]; cbn [fst snd].
  - by apply edit_blank.
  - by apply edit_not_int.
  - destruct (bool_decide (num < 1)%Z || bool_decide (9 < num)%Z) eqn:Hrange;
      cbn [fst snd].
    { apply edit_out_of_range; try done.
      apply orb_true_iff in Hrange as [H%bool_decide_eq_true|H%bool_decide_eq_true];
        lia. }
    apply orb_false_iff in Hrange as [H1%bool_decide_eq_false H2%bool_decide_eq_false].
    sess_simpl.
    destruct (is_valid _ row col num) eqn:Hvalid.
    + set (st1 := paint _ row col (Some user)).
      pose proof (edit_accepted st row col num st1 Hturn Hlock) as Hacc.
      destruct (is_complete st1) eqn:Hdone; cbn [fst snd]; apply Hacc;
        try done; lia.
    + cbn [fst snd]. apply edit_invalid; try done. lia.
Qed.

(** What an accepted digit does. *)
Lemma edit_accepted_inv st row col value complete st' :
  edit_outcome st row col value (Accepted complete) st' →
  ∃ num, value = IntText num ∧ (1 ≤ num ≤ 9)%Z
    ∧ current_turn st = user ∧ cell (initial_board st) row col = 0%Z
    ∧ is_valid (set_cell (board st) row col 0%Z) row col num = true
    ∧ board st' = set_cell (board st) row col num
    ∧ initial_board st' = initial_board st
    ∧ pq st' ≡ₚ (fresh_entry (board st') <$> elements (neighbours row col))
               ++ pq st.
Proof.
  inversion 1 as [| | | | | |num st1 Ht Hl Hn Hv Hst1 Hval Hcomp Hst'].
  exists num. do 5 (split; [done|]).
  assert (board st1 = set_cell (board st) row col num) as Hb.
  { subst st1. sess_simpl. rewrite update_neighbors_board. sess_simpl.
    apply set_cell_set_cell. }
  assert (initial_board st1 = initial_board st) as Hi.
  { subst st1. sess_simpl. by rewrite update_neighbors_initial. }
  assert (pq st1 ≡ₚ (fresh_entry (board st1) <$> elements (neighbours row col))
                    ++ pq st) as Hq.
  { rewrite Hb. subst st1. sess_simpl. rewrite update_neighbors_pq. sess_simpl.
    by rewrite set_cell_set_cell. }
  destruct (is_complete st1); sess_simpl; done.
Qed.

(** What a placed digit does. *)
Lemma ai_placed_inv st row col value st' :
  ai_outcome st (Placed row col value) st' →
  cell (board st) row col = 0%Z
  ∧ value ∈ get_candidates (board st) row col
  ∧ board st' = set_cell (board st) row col value
  ∧ initial_board st' = initial_board st
  ∧ current_turn st' = current_turn st
  ∧ ∃ dropped count candidates rest,
      pq st ≡ₚ dropped ++ (count, row, col, candidates) :: rest
      ∧ Forall (stale (board st)) dropped
      ∧ pq st' ≡ₚ (fresh_entry (board st') <$> elements (neighbours row col))
                 ++ rest.
Proof.
  inversion 1 as [| |dropped n r c s rest v Hq Hd Hz Hv]; subst.
  split; [done|]. split; [done|].
  rewrite update_neighbors_board, update_neighbors_initial,
    update_neighbors_turn. sess_simpl.
  do 3 (split; [done|]). exists dropped, n, s, rest.
  split; [done|]. split; [done|].
  rewrite update_neighbors_pq. by sess_simpl.
Qed.

(** What a failed move does: entries leave the heap, nothing else. *)
Lemma ai_nomove_inv st st' :
  ai_outcome st NoMove st' →
  board st' = board st ∧ initial_board st' = initial_board st
  ∧ current_turn st' = current_turn st ∧ cell_colors st' = cell_colors st
  ∧ ∃ dropped, pq st ≡ₚ dropped ++ pq st'.
Proof.
  inversion 1 as [dropped st1 Hq Hd Hb Hi Ht Hc Hp
                 |dropped n r c s rest Hq Hd Hz Hc|]; subst.
  - do 4 (split; [done|]). exists dropped. by rewrite Hp, app_nil_r.
  - sess_simpl. do 4 (split; [done|]).
    exists (dropped ++ [(n, r, c, s)]). by rewrite <-(assoc_L (++)).
Qed.

(** ** The hint *)

Lemma heappop_head top q item rest :
  heappop (top :: q) = Some (item, rest) → item = top.
Proof.
  unfold heappop. destruct (last (top :: q)) as [lastelt|] eqn:Hlast; [|done].
  destruct q as [|x q]; simpl in *.
  - by intros [= <- <-]; injection Hlast as ->.
  - by intros [= <- <-].
Qed.

Lemma clean_top_total fuel b q : length q ≤ fuel → is_Some (clean_top fuel b q).
Proof.
  revert q. induction fuel as [|fuel IH]; intros q Hlen.
  - destruct q; simpl in *; [done|lia].
  - destruct q as [|top q]; [done|]. cbn [clean_top].
    case_bool_decide; [|done].
    destruct (heappop_is_Some (top :: q)) as [[item rest] Hpop]; [done|].
    rewrite Hpop. apply heappop_length in Hpop. simpl in *.
    apply IH. lia.
Qed.

(** Only stale entries are dropped, and the entry left on top is live. *)
Lemma clean_top_spec fuel b q q' :
  clean_top fuel b q = Some q' →
  (∃ dropped, q ≡ₚ dropped ++ q' ∧ Forall (stale b) dropped)
  ∧ (∀ top rest, q' = top :: rest → ¬ stale b top).
Proof.
  revert q. induction fuel as [|fuel IH]; intros q Hrun.
  - destruct q as [|top q]; simpl in Hrun.
    + injection Hrun as <-. split; [exists []; split; [reflexivity|constructor]|done].
    + case_bool_decide as Hs; [done|]. injection Hrun as <-.
      split; [exists []; split; [reflexivity|constructor]|]. intros ?? [= <- <-] Hst. by apply Hst.
  - destruct q as [|top q]; cbn [clean_top] in Hrun.
    + injection Hrun as <-. split; [exists []; split; [reflexivity|constructor]|done].
    + case_bool_decide as Hs.
      * destruct (heappop (top :: q)) as [[item rest]|] eqn:Hpop; [|done].
        pose proof (heappop_head _ _ _ _ Hpop) as ->.
        apply heappop_Permutation in Hpop.
        destruct (IH _ Hrun) as [(dropped & Hq & Hd) Htop].
        split; [|done]. exists (top :: dropped). split.
        -- by rewrite Hpop, Hq.
        -- by constructor.
      * injection Hrun as <-. split; [exists []; split; [reflexivity|constructor]|].
        intros ?? [= <- <-] Hst. by apply Hst.
Qed.

Lemma show_hint_total st : is_Some (show_hint st).
Proof.
  unfold show_hint. destruct (pq st) as [|e0 q0] eqn:E; [done|].
  destruct (clean_top_total (length (e0 :: q0)) (board st) (e0 :: q0))
    as [q' Hq']; [done|].
  rewrite Hq'. destruct q' as [|[[[count row] col] cands] rest]; done.
Qed.

Lemma show_hint_spec st res st' :
  show_hint st = Some (res, st') →
  board st' = board st ∧ initial_board st' = initial_board st
  ∧ current_turn st' = current_turn st ∧ cell_colors st' = cell_colors st
  ∧ (∃ dropped, pq st ≡ₚ dropped ++ pq st' ∧ Forall (stale (board st)) dropped)
  ∧ match res with
    | NoHint => pq st' = []
    | Hint row col candidates =>
        cell (board st) row col = 0%Z
        ∧ candidates = get_candidates (board st) row col
        ∧ ∃ count snapshot rest, pq st' = (count, row, col, snapshot) :: rest
    end.
Proof.
  unfold show_hint. destruct (pq st) as [|e0 q0] eqn:E.
  { intros [= <- <-]. rewrite E. repeat split; try done. exists []; split; [reflexivity|constructor]. }
  destruct (clean_top _ _ _) as [q'|] eqn:Hclean; [|done].
  apply clean_top_spec in Hclean as [Hdrop Htop].
  destruct q' as [|[[[count row] col] cands] rest]; intros [= <- <-];
    sess_simpl; (split; [done|]); (split; [done|]); (split; [done|]);
    (split; [done|]); (split; [done|]); [done|].
  split; [|split; [done|by exists count, cands, rest]].
  specialize (Htop _ _ eq_refl). unfold stale in Htop.
  by destruct (decide (cell (board st) row col = 0%Z)).
Qed.

(** ** Every reachable session is well formed and valid *)

Lemma new_game_board d st : board (new_game d st) = generate_puzzle d.
Proof.
  unfold new_game.
  exact (proj1 (initialize_priority_queue_spec
    {| board := generate_puzzle d; initial_board := generate_puzzle d;
       current_turn := user; cell_colors := no_colors; pq := pq st |})).
Qed.

Lemma new_game_initial d st : initial_board (new_game d st) = generate_puzzle d.
Proof.
  unfold new_game.
  exact (proj1 (proj2 (initialize_priority_queue_spec
    {| board := generate_puzzle d; initial_board := generate_puzzle d;
       current_turn := user; cell_colors := no_colors; pq := pq st |}))).
Qed.

Lemma new_game_turn d st : current_turn (new_game d st) = user.
Proof.
  unfold new_game.
  exact (proj1 (proj2 (proj2 (initialize_priority_queue_spec
    {| board := generate_puzzle d; initial_board := generate_puzzle d;
       current_turn := user; cell_colors := no_colors; pq := pq st |})))).
Qed.

Lemma new_game_pq d st :
  pq (new_game d st)
  ≡ₚ fresh_entry (generate_puzzle d)
       <$> filter (live_cell (generate_puzzle d)) all_cells.
Proof.
  unfold new_game.
  exact (proj2 (proj2 (proj2 (proj2 (initialize_priority_queue_spec
    {| board := generate_puzzle d; initial_board := generate_puzzle d;
       current_turn := user; cell_colors := no_colors; pq := pq st |}))))).
Qed.

Lemma init_unfold d : init d = with_pq (new_game d blank_session) [].
Proof. reflexivity. Qed.

Lemma with_pq_fields st q :
  board (with_pq st q) = board st
  ∧ initial_board (with_pq st q) = initial_board st
  ∧ current_turn (with_pq st q) = current_turn st.
Proof. done. Qed.

Lemma init_board d : board (init d) = generate_puzzle d.
Proof.
  rewrite init_unfold, (proj1 (with_pq_fields _ _)). apply new_game_board.
Qed.

Lemma init_initial d : initial_board (init d) = generate_puzzle d.
Proof.
  rewrite init_unfold, (proj1 (proj2 (with_pq_fields _ _))).
  apply new_game_initial.
Qed.

Lemma init_turn d : current_turn (init d) = user.
Proof.
  rewrite init_unfold, (proj2 (proj2 (with_pq_fields _ _))).
  apply new_game_turn.
Qed.

Lemma init_pq d : pq (init d) = [].
Proof. by rewrite init_unfold. Qed.

(** On an empty heap the automated mover and the hint find nothing. *)
Lemma ai_make_move_empty k st : pq st = [] → ai_make_move k st = Some (NoMove, st).
Proof. intros H. unfold ai_make_move. rewrite H. simpl. by rewrite H. Qed.

Lemma show_hint_empty st : pq st = [] → show_hint st = Some (NoHint, st).
Proof. intros H. unfold show_hint. by rewrite H. Qed.

Lemma inv_new_game d st : draws_ok d → session_inv (new_game d st).
Proof.
  intros Hd. split.
  - rewrite new_game_board. by apply generate_puzzle_wf.
  - rewrite new_game_initial. by apply generate_puzzle_wf.
  - rewrite new_game_board. by apply generate_puzzle_valid.
  - rewrite new_game_initial. by apply generate_puzzle_valid.
  - rewrite new_game_pq. apply Forall_fmap, Forall_forall.
    intros [r c] [_ Hin%all_cells_spec]%list_elem_of_filter. done.
Qed.

Lemma inv_with_pq st q :
  session_inv st → Forall entry_in_range q → session_inv (with_pq st q).
Proof. intros [] Hq. by split. Qed.

Lemma inv_init d : draws_ok d → session_inv (init d).
Proof.
  intros Hd. unfold init. apply inv_with_pq; [|constructor].
  by apply inv_new_game.
Qed.

Lemma inv_reset st : session_inv st → session_inv (reset_board st).
Proof. intros []. by split. Qed.

(** Emptying a cell. *)
Lemma inv_erase st row col :
  session_inv st → session_inv (write_cell st row col 0%Z).
Proof.
  intros []. split; sess_simpl; try done.
  - by apply wf_set_cell.
  - eapply erased_valid; [apply erased_set_cell|done].
Qed.

(** Writing a digit that passed one of the two legality tests. *)
Lemma inv_write st row col d :
  session_inv st → row < 9 → col < 9 →
  no_conflict (set_cell (board st) row col 0%Z) row col d →
  session_inv (write_cell st row col d).
Proof.
  intros [] Hr Hc Hnc. split; sess_simpl; try done.
  - by apply wf_set_cell.
  - by apply valid_set_cell.
Qed.

Lemma inv_paint st row col who :
  session_inv st → session_inv (paint st row col who).
Proof. intros []. by split. Qed.

Lemma inv_with_turn st t : session_inv st → session_inv (with_turn st t).
Proof. intros []. by split. Qed.

Lemma inv_update_neighbors st row col :
  session_inv st → row < 9 → col < 9 →
  session_inv (update_neighbors st row col).
Proof.
  intros [] Hr Hc. split.
  - by rewrite update_neighbors_board.
  - by rewrite update_neighbors_initial.
  - by rewrite update_neighbors_board.
  - by rewrite update_neighbors_initial.
  - by apply update_neighbors_in_range.
Qed.

Lemma inv_edit st row col value res st' :
  session_inv st → row < 9 → col < 9 →
  edit_outcome st row col value res st' → session_inv st'.
Proof.
  intros Hinv Hr Hc Hout.
  destruct Hout as [| | | | |num Ht Hl Hn Hv|num st1 Ht Hl Hn Hv ->];
    try done; try (by apply inv_erase).
  - by apply inv_paint, inv_erase.
  - unfold write_cell at 1. sess_simpl.
    rewrite set_cell_set_cell, set_cell_same. by destruct Hinv, st.
  - assert (session_inv (paint (update_neighbors
        (write_cell (write_cell st row col 0%Z) row col num) row col)
        row col (Some user))) as Hinv'.
    { apply inv_paint, inv_update_neighbors; try done.
      unfold write_cell at 1. sess_simpl. rewrite set_cell_set_cell.
      apply (inv_write st); try done.
      apply is_valid_no_conflict; try done.
      apply wf_set_cell, Hinv. }
    destruct (is_complete _); [done|]. by apply inv_with_turn.
Qed.

Lemma in_range_of_Permutation (q : list entry) dropped e rest :
  q ≡ₚ dropped ++ e :: rest → Forall entry_in_range q →
  entry_in_range e ∧ Forall entry_in_range rest.
Proof.
  intros Hq Hall. rewrite Hq in Hall.
  apply Forall_app in Hall as [_ Hall]. by apply Forall_cons in Hall.
Qed.

Lemma inv_ai st res st' :
  session_inv st → ai_outcome st res st' → session_inv st'.
Proof.
  intros Hinv Hout.
  destruct Hout as [dropped st' Hq Hd Hb Hi Ht Hc Hp
                   |dropped n r c s rest Hq Hd Hz Hc
                   |dropped n r c s rest v Hq Hd Hz Hv].
  - destruct Hinv. split; rewrite ?Hb, ?Hi, ?Hp; done.
  - apply inv_with_pq; [done|].
    by apply (in_range_of_Permutation _ _ _ _ Hq), Hinv.
  - destruct (in_range_of_Permutation _ _ _ _ Hq (inv_pq _ Hinv))
      as [[Hr Hc] Hrest].
    unfold entry_row, entry_col in Hr, Hc. simpl in Hr, Hc.
    apply inv_update_neighbors; try done. apply inv_paint.
    apply (inv_write (with_pq st rest)); try done.
    + by apply inv_with_pq.
    + sess_simpl. rewrite <-Hz, set_cell_same.
      eapply candidate_no_conflict; try done. apply Hinv.
Qed.

Lemma inv_ai_make_move k st res st' :
  session_inv st → ai_make_move k st = Some (res, st') → session_inv st'.
Proof. intros Hinv Hrun%ai_make_move_outcome. by eapply inv_ai. Qed.

Lemma inv_ai_turn k st res st' :
  session_inv st → ai_turn k st = Some (res, st') → session_inv st'.
Proof.
  intros Hinv. unfold ai_turn.
  destruct (ai_make_move k st) as [[[r c v|] st1]|] eqn:Hrun; [| |done].
  - apply (inv_ai_make_move _ _ _ _ Hinv) in Hrun.
    destruct (is_complete st1); intros [= <- <-]; [done|].
    by apply inv_with_turn.
  - intros [= <- <-]. by apply (inv_ai_make_move _ _ _ _ Hinv) in Hrun.
Qed.

Lemma inv_hint st res st' :
  session_inv st → show_hint st = Some (res, st') → session_inv st'.
Proof.
  intros [? ? ? ? Hpq] (Hb & Hi & Ht & Hc & (dropped & Hq & _) & _)%show_hint_spec.
  split; rewrite ?Hb, ?Hi; try done.
  rewrite Hq in Hpq. by apply Forall_app in Hpq as [_ ?].
Qed.

Theorem reachable_inv st : reachable st → session_inv st.
Proof.
  induction 1 as [d Hd|d st Hd _ _|st row col value _ IH Hr Hc
                 |st k r st' _ IH Hrun|st k r st' _ IH Hrun
                 |st r st' _ IH Hrun|st _ IH].
  - by apply inv_init.
  - by apply inv_new_game.
  - exact (inv_edit st row col value _ _ IH Hr Hc
             (on_cell_edit_outcome st row col value)).
  - by eapply inv_ai_turn.
  - by eapply inv_ai_make_move.
  - by eapply inv_hint.
  - by apply inv_reset.
Qed.

(** ** Rows, columns and boxes of a solved grid *)

Lemma box_cells_coords b k :
  k < 9 → box_cells b k = (λ rc, cell b rc.1 rc.2) <$> box_coords k.
Proof. intros Hk. below9 k Hk; reflexivity. Qed.

Lemma box_coords_spec k r c :
  k < 9 → (r, c) ∈ box_coords k → r < 9 ∧ c < 9 ∧ r / 3 = k / 3 ∧ c / 3 = k mod 3.
Proof.
  intros Hk. unfold box_coords. rewrite list_elem_of_bind.
  intros (i & (j & [= -> ->] & Hj%elem_of_seq)%list_elem_of_fmap
            & Hi%elem_of_seq).
  pose proof (Nat.div_mod_eq k 3). pose proof (Nat.mod_upper_bound k 3).
  pose proof (Nat.div_mod_eq i 3). pose proof (Nat.mod_upper_bound i 3).
  pose proof (Nat.div_mod_eq j 3). pose proof (Nat.mod_upper_bound j 3).
  lia.
Qed.

Lemma NoDup_box_coords k : k < 9 → NoDup (box_coords k).
Proof.
  intros Hk. below9 k Hk; apply (bool_decide_unpack _); vm_compute; exact I.
Qed.

Lemma solved_grid_distinct_lines b : solved_grid b → distinct_lines b.
Proof.
  intros (Hwf & Hfull & Hv) k Hk.
  assert (∀ r1 c1 r2 c2, r1 < 9 → c1 < 9 → r2 < 9 → c2 < 9 →
            (r1 = r2 ∨ c1 = c2 ∨ same_box r1 c1 r2 c2) →
            cell b r1 c1 = cell b r2 c2 → (r1, c1) = (r2, c2)) as Hinj.
  { intros r1 c1 r2 c2 Hr1 Hc1 Hr2 Hc2 Hrel Heq.
    destruct (decide ((r1, c1) = (r2, c2))) as [|Hne]; [done|].
    exfalso. apply (Hv r1 c1 r2 c2); try done.
    specialize (Hfull r1 c1 Hr1 Hc1). lia. }
  split; [|split].
  - apply NoDup_fmap_2_strong; [|apply NoDup_seq].
    intros c1 c2 Hc1%elem_of_seq Hc2%elem_of_seq Heq.
    assert ((k, c1) = (k, c2)) as [= ->]; [|done].
    apply Hinj; auto; lia.
  - apply NoDup_fmap_2_strong; [|apply NoDup_seq].
    intros r1 r2 Hr1%elem_of_seq Hr2%elem_of_seq Heq.
    assert ((r1, k) = (r2, k)) as [= ->]; [|done].
    apply Hinj; auto; lia.
  - rewrite box_cells_coords by done.
    apply NoDup_fmap_2_strong; [|by apply NoDup_box_coords].
    intros [r1 c1] [r2 c2] H1 H2 Heq. simpl in Heq.
    apply (box_coords_spec k) in H1 as (? & ? & ? & ?); [|done].
    apply (box_coords_spec k) in H2 as (? & ? & ? & ?); [|done].
    apply Hinj; try done. right. right. unfold same_box. lia.
Qed.

(** In a puzzle cut out of a solved grid, the digit removed from a cell is
    a candidate of that cell. *)
Lemma erased_cell_candidate b' b r c :
  wf_board b' → erased b' b → solved_grid b → r < 9 → c < 9 →
  cell b' r c = 0%Z → cell b r c ∈ get_candidates b' r c.
Proof.
  intros Hwf He (_ & Hfull & Hv) Hr Hc Hz.
  apply candidate_no_conflict; try done.
  pose proof (Hfull r c Hr Hc) as Hrange.
  split; [done|]. split; [done|].
  intros r' c' Hr' Hc' Hrel.
  destruct (decide ((r', c') = (r, c))) as [[= -> ->]|Hne]; [lia|].
  destruct (He r' c') as [E|E]; [lia|]. rewrite E.
  apply not_eq_sym, Hv; try done; [|lia].
  split; [congruence|]. unfold same_box in *.
  destruct Hrel as [->|[->|[? ?]]]; auto.
Qed.

Lemma generate_puzzle_live_cell d :
  draws_ok d →
  ∃ r c, r < 9 ∧ c < 9 ∧ cell (generate_puzzle d) r c = 0%Z
         ∧ get_candidates (generate_puzzle d) r c ≠ ∅.
Proof.
  intros Hd. destruct (generate_puzzle_has_empty d Hd) as (r & c & Hr & Hc & Hz).
  exists r, c. repeat split; try done.
  pose proof (erased_cell_candidate _ _ r c (generate_puzzle_wf d Hd)
                (generate_puzzle_erased d) (full_board_solved d Hd) Hr Hc Hz).
  set_solver.
Qed.

(** "New Game" leaves a non-empty frontier. *)
Lemma new_game_pq_nonempty d st : draws_ok d → pq (new_game d st) ≠ [].
Proof.
  intros Hd Hnil.
  destruct (generate_puzzle_live_cell d Hd) as (r & c & Hr & Hc & Hz & Hne).
  pose proof (new_game_pq d st) as Hq. rewrite Hnil in Hq.
  apply Permutation_nil_l in Hq. symmetry in Hq. apply fmap_nil_inv in Hq.
  assert ((r, c) ∈ filter (live_cell (generate_puzzle d)) all_cells) as Hin.
  { apply list_elem_of_filter. split; [|by apply all_cells_spec].
    unfold live_cell. simpl.
    by rewrite !bool_decide_eq_true_2. }
  rewrite Hq in Hin. by apply elem_of_nil in Hin.
Qed.

(** ** The sample run *)

Example sample_full_board :
  full_board sample_draws
  = [[3; 9; 7; 2; 8; 4; 1; 6; 5]; [5; 6; 1; 9; 3; 7; 4; 2; 8];
     [8; 2; 4; 6; 5; 1; 7; 9; 3]; [4; 8; 6; 5; 1; 9; 2; 3; 7];
     [1; 5; 9; 3; 7; 2; 6; 8; 4]; [7; 3; 2; 8; 4; 6; 9; 5; 1];
     [2; 7; 8; 4; 6; 5; 3; 1; 9]; [9; 1; 3; 7; 2; 8; 5; 4; 6];
     [6; 4; 5; 1; 9; 3; 8; 7; 2]]%Z.
Proof. vm_compute. reflexivity. Qed.

Example sample_puzzle :
  generate_puzzle sample_draws
  = [[3; 0; 7; 0; 0; 4; 0; 6; 0]; [5; 0; 0; 9; 0; 7; 0; 2; 0];
     [8; 2; 0; 6; 0; 1; 0; 9; 3]; [0; 8; 0; 5; 0; 9; 0; 0; 7];
     [0; 5; 0; 3; 0; 0; 6; 0; 4]; [0; 3; 0; 0; 4; 0; 9; 0; 1];
     [0; 7; 8; 0; 6; 0; 3; 0; 9]; [9; 0; 3; 0; 2; 0; 5; 0; 0];
     [6; 0; 5; 0; 9; 0; 0; 7; 0]]%Z.
Proof. vm_compute. reflexivity. Qed.

(** In the sample game the user plays 9 at (0, 1); the AI, drawing 0,
    answers 8 at (1, 8). *)
Example sample_played_board :
  board sample_played
  = [[3; 9; 7; 0; 0; 4; 0; 6; 0]; [5; 0; 0; 9; 0; 7; 0; 2; 8];
     [8; 2; 0; 6; 0; 1; 0; 9; 3]; [0; 8; 0; 5; 0; 9; 0; 0; 7];
     [0; 5; 0; 3; 0; 0; 6; 0; 4]; [0; 3; 0; 0; 4; 0; 9; 0; 1];
     [0; 7; 8; 0; 6; 0; 3; 0; 9]; [9; 0; 3; 0; 2; 0; 5; 0; 0];
     [6; 0; 5; 0; 9; 0; 0; 7; 0]]%Z.
Proof. vm_compute. reflexivity. Qed.

Lemma sample_draws_ok : draws_ok sample_draws.
Proof.
  split; unfold draw_ok; apply (bool_decide_unpack _); vm_compute; exact I.
Qed.

Lemma sample_game_reachable : reachable sample_game.
Proof.
  apply reach_new_game; [|apply reach_init]; apply sample_draws_ok.
Qed.

Lemma sample_moved_reachable : reachable sample_moved.
Proof.
  apply reach_edit; [|lia..]. apply reach_init, sample_draws_ok.
Qed.

Lemma sample_played_reachable : reachable sample_played.
Proof.
  unfold sample_played.
  set (st := (on_cell_edit sample_game 0 1 (IntText 9)).2).
  assert (reachable st) as Hst.
  { apply reach_edit; [|lia..]. apply sample_game_reachable. }
  destruct (ai_turn 0 st) as [[r st']|] eqn:Hrun; [|done].
  by eapply reach_ai_turn.
Qed.

(** ** Further facts used by the claims *)

Lemma fresh_entry_inj b : Inj (=) (=) (fresh_entry b).
Proof.
  intros [r1 c1] [r2 c2]. unfold fresh_entry. simpl. by intros [= _ -> ->].
Qed.

(** An edit that is not accepted leaves the heap alone. *)
Lemma edit_rejected_pq st row col value res st' :
  edit_outcome st row col value res st' →
  (∀ complete, res ≠ Accepted complete) → pq st' = pq st.
Proof.
  intros Hout Hres. destruct Hout; try done. by destruct (Hres (is_complete st1)).
Qed.

(** Input that is no digit is not a move: the edit is ignored or ends in
    the ValueError handler. *)
Lemma edit_not_a_digit st row col value res st' :
  edit_outcome st row col value res st' → not_a_digit value →
  (res = Ignored ∧ st' = st)
  ∨ (res = BadInput ∧ current_turn st = user
     ∧ cell (initial_board st) row col = 0%Z
     ∧ st' = write_cell st row col 0%Z).
Proof.
  intros Hout Hbad.
  destruct Hout as [| | | | |num Ht Hl Hn Hv|num st1 Ht Hl Hn Hv Hst1].
  - by left.
  - by left.
  - by destruct Hbad as [?|(? & ? & ?)].
  - right. by repeat split.
  - right. by repeat split.
  - destruct Hbad as [?|(? & ? & ?)]; simplify_eq; done.
  - destruct Hbad as [?|(? & ? & ?)]; simplify_eq; done.
Qed.

(** ** The entries the loops pop *)

(** [ai_make_move] pops stale entries, one after the other, and stops at
    the first entry whose cell is empty, or when the heap is empty. *)
Lemma ai_loop_pops fuel k st res st' :
  ai_loop fuel k st = Some (res, st') →
  ∃ n dropped q',
    pops n (pq st) = Some (dropped, q')
    ∧ Forall (stale (board st)) dropped
    ∧ match res with
      | Placed row col value =>
          ∃ count candidates rest,
            heappop q' = Some ((count, row, col, candidates), rest)
            ∧ cell (board st) row col = 0%Z
            ∧ value ∈ get_candidates (board st) row col
            ∧ board st' = set_cell (board st) row col value
            ∧ pq st' ≡ₚ (fresh_entry (board st') <$>
                           elements (neighbours row col)) ++ rest
      | NoMove =>
          board st' = board st
          ∧ ((q' = [] ∧ pq st' = [])
             ∨ ∃ count row col candidates rest,
                 heappop q' = Some ((count, row, col, candidates), rest)
                 ∧ cell (board st) row col = 0%Z
                 ∧ get_candidates (board st) row col = ∅
                 ∧ pq st' = rest)
      end.
Proof.
  revert st. induction fuel as [|fuel IH]; intros st; cbn [ai_loop];
    destruct (pq st) as [|e0 q0] eqn:E; try done.
  { intros [= <- <-]. exists 0, [], []. split; [done|]. split; [constructor|].
    split; [done|]. left. by rewrite E. }
  { intros [= <- <-]. exists 0, [], []. split; [done|]. split; [constructor|].
    split; [done|]. left. by rewrite E. }
  rewrite <- E in *.
  destruct (heappop (pq st)) as [[[[[count row] col] cands] rest]|] eqn:Hpop;
    [|done].
  sess_simpl. case_bool_decide as Hstale.
  { intros Hrun. apply IH in Hrun as (n & dropped & q' & Hpops & Hd & Hres).
    sess_simpl. exists (S n), ((count, row, col, cands) :: dropped), q'.
    split; [cbn [pops]; by rewrite Hpop, Hpops|].
    split; [by constructor|]. exact Hres. }
  case_bool_decide as Hdead.
  { intros [= <- <-]. exists 0, [], (pq st). split; [done|].
    split; [constructor|]. sess_simpl. split; [done|]. right.
    by exists count, row, col, cands, rest. }
  intros [= <- <-]. exists 0, [], (pq st). split; [done|].
  split; [constructor|]. exists count, cands, rest.
  split; [done|]. split; [done|]. split; [by apply choice_candidate|].
  rewrite update_neighbors_board, update_neighbors_pq. by sess_simpl.
Qed.

(** The loop of [show_hint] pops stale entries and stops at the first
    entry whose cell is empty. *)
Lemma clean_top_pops fuel b q q' :
  clean_top fuel b q = Some q' →
  ∃ n dropped, pops n q = Some (dropped, q') ∧ Forall (stale b) dropped.
Proof.
  revert q. induction fuel as [|fuel IH]; intros q; cbn [clean_top];
    destruct q as [|top q0].
  - intros [= <-]. by exists 0, [].
  - case_bool_decide as Hstale; [done|]. intros [= <-]. by exists 0, [].
  - intros [= <-]. by exists 0, [].
  - case_bool_decide as Hstale; [|intros [= <-]; by exists 0, []].
    destruct (heappop (top :: q0)) as [[item rest]|] eqn:Hpop; [|done].
    pose proof (heappop_head _ _ _ _ Hpop) as ->.
    intros Hrun. apply IH in Hrun as (n & dropped & Hpops & Hd).
    exists (S n), (top :: dropped).
    split; [cbn [pops]; by rewrite Hpop, Hpops|]. by constructor.
Qed.

Lemma show_hint_pops st res st' :
  show_hint st = Some (res, st') →
  ∃ n dropped,
    pops n (pq st) = Some (dropped, pq st')
    ∧ Forall (stale (board st)) dropped.
Proof.
  unfold show_hint. destruct (pq st) as [|e0 q0] eqn:E.
  { intros [= <- <-]. exists 0, []. by rewrite E. }
  rewrite <- E in *.
  destruct (clean_top _ _ _) as [q'|] eqn:Hclean; [|done].
  apply clean_top_pops in Hclean as (n & dropped & Hpops & Hd).
  destruct q' as [|[[[count row] col] cands] rest]; intros [= <- <-];
    sess_simpl; by exists n, dropped.
Qed.

(** A key event is ignored only when it is not the user's turn or the
    cell is a clue. *)
Lemma edit_ignored_guard st row col value :
  (on_cell_edit st row col value).1 = Ignored →
  current_turn st ≠ user ∨ cell (initial_board st) row col ≠ 0%Z.
Proof.
  unfold on_cell_edit.
  destruct (current_turn st) eqn:Ht; cbn [turn_eqb negb]; [|by left].
  case_bool_decide as Hl; [by right|].
  destruct value as [| |num]; try done.
  destruct (_ || _); [done|]. cbn zeta.
  destruct (is_valid _ _ _ _); [|done]. by destruct (is_complete _).
Qed.

(** * The claims *)

(** C1. For every permutation [nums] of the digits 1..9 the board
    [nums[pattern(r, c)]] built by [get_base_pattern] is a solved Sudoku:
    9x9, every cell a digit of 1..9, no digit twice in a row, a column or a
    box.  For every outcome [d] of the random draws, the full board that
    [generate_puzzle] obtains from it by shuffling is a solved Sudoku too,
    and the puzzle it returns (that board with cells emptied) satisfies the
    validity invariant. *)
Theorem generated_grid_is_valid_sudoku (nums : list Z) (d : draws) :
  nums ≡ₚ digits → draws_ok d →
  (solved_grid (base_board nums) ∧ distinct_lines (base_board nums))
  ∧ (solved_grid (full_board d) ∧ distinct_lines (full_board d))
  ∧ (wf_board (generate_puzzle d) ∧ valid_grid (generate_puzzle d)
     ∧ erased (generate_puzzle d) (full_board d)).
Proof.
  intros Hnums Hd.
  pose proof (base_board_solved nums Hnums) as Hbase.
  pose proof (full_board_solved d Hd) as Hfull.
  split; [|split].
  - split; [done|]. by apply solved_grid_distinct_lines.
  - split; [done|]. by apply solved_grid_distinct_lines.
  - split; [by apply generate_puzzle_wf|].
    split; [by apply generate_puzzle_valid|apply generate_puzzle_erased].
Qed.

(** An instance: one relabelling of the pattern, and the sample draws. *)
Lemma generated_grid_is_valid_sudoku_witness :
  valid_grid (base_board [5; 1; 9; 3; 7; 2; 8; 4; 6]%Z)
  ∧ valid_grid (full_board sample_draws)
  ∧ valid_grid (generate_puzzle sample_draws).
Proof.
  assert ([5; 1; 9; 3; 7; 2; 8; 4; 6]%Z ≡ₚ digits) as Hnums.
  { apply (bool_decide_unpack _). vm_compute. exact I. }
  assert (draws_ok sample_draws) as Hd.
  { split; unfold draw_ok; apply (bool_decide_unpack _); vm_compute; exact I. }
  destruct (generated_grid_is_valid_sudoku _ _ Hnums Hd)
    as ([(_ & _ & H1) _] & [(_ & _ & H2) _] & (_ & H3 & _)).
  exact (conj H1 (conj H2 H3)).
Defined.

(** C2. On every 9x9 grid that satisfies the validity invariant, each of
    the four transformations of [shuffle_board] (rows within the bands,
    columns within the stacks, the bands, the stacks), and so their
    composition, yields a grid that satisfies the invariant, whatever the
    random permutations drawn. *)
Theorem shuffle_preserves_validity (d : draws) (b : grid) :
  draws_ok d → wf_board b → valid_grid b →
  valid_grid (shuffle_step1 d b) ∧ valid_grid (shuffle_step2 d b)
  ∧ valid_grid (shuffle_step3 d b) ∧ valid_grid (shuffle_step4 d b)
  ∧ wf_board (shuffle_board d b) ∧ valid_grid (shuffle_board d b).
Proof.
  intros Hd Hwf Hv.
  destruct (shuffle_step1_preserving d Hd b Hwf) as (_ & H1 & _).
  destruct (shuffle_step2_preserving d Hd b Hwf) as (_ & H2 & _).
  destruct (shuffle_step3_preserving d Hd b Hwf) as (_ & H3 & _).
  destruct (shuffle_step4_preserving d Hd b Hwf) as (_ & H4 & _).
  destruct (shuffle_board_preserving d Hd b Hwf) as (H5 & H6 & _).
  auto 10.
Qed.

(** An instance: the sample puzzle, shuffled once more. *)
Lemma shuffle_preserves_validity_witness :
  valid_grid (shuffle_board sample_draws (generate_puzzle sample_draws)).
Proof.
  assert (draws_ok sample_draws) as Hd.
  { split; unfold draw_ok; apply (bool_decide_unpack _); vm_compute; exact I. }
  assert (wf_board (generate_puzzle sample_draws)) as Hwf.
  { split; [reflexivity|]. vm_compute. repeat constructor. }
  assert (valid_grid (generate_puzzle sample_draws)) as Hv.
  { apply valid_gridb_spec. vm_compute. reflexivity. }
  exact (proj2 (proj2 (proj2 (proj2 (proj2
    (shuffle_preserves_validity _ _ Hd Hwf Hv)))))).
Defined.

(** C3. In every reachable session whose grid satisfies the validity
    invariant, a key event that [on_cell_edit] accepts and a call of
    [ai_make_move] that places a digit both leave a grid that satisfies
    the invariant: the digit just written into the cell differs from the
    content of every peer of the cell. *)
Theorem moves_preserve_validity (st : session) :
  reachable st → valid_grid (board st) →
  (∀ row col value complete,
     row < 9 → col < 9 →
     (on_cell_edit st row col value).1 = Accepted complete →
     let st' := (on_cell_edit st row col value).2 in
     valid_grid (board st')
     ∧ ∃ num, value = IntText num ∧ cell (board st') row col = num
        ∧ ∀ r' c', r' < 9 → c' < 9 → peers row col r' c' →
            cell (board st') r' c' ≠ num)
  ∧ (∀ k row col value st',
       ai_make_move k st = Some (Placed row col value, st') →
       valid_grid (board st')
       ∧ cell (board st') row col = value
       ∧ ∀ r' c', r' < 9 → c' < 9 → peers row col r' c' →
           cell (board st') r' c' ≠ value).
Proof.
  intros Hreach _. pose proof (reachable_inv st Hreach) as Hinv. split.
  - intros row col value complete Hr Hc Hres st'.
    assert (session_inv st') as Hinv'.
    { apply reachable_inv. by apply reach_edit. }
    split; [apply Hinv'|].
    pose proof (on_cell_edit_outcome st row col value) as Hout.
    fold st' in Hout. rewrite Hres in Hout. clearbody st'.
    apply edit_accepted_inv in Hout
      as (num & -> & Hn & _ & _ & _ & Hb & _).
    exists num. split; [done|].
    assert (cell (board st') row col = num) as Hcell.
    { rewrite Hb. apply cell_set_cell_eq; try done. apply Hinv. }
    split; [done|]. intros r' c' Hr' Hc' Hp.
    rewrite <-Hcell. apply not_eq_sym, (inv_valid _ Hinv'); try done.
    rewrite Hcell. lia.
  - intros k row col value st' Hrun.
    assert (session_inv st') as Hinv'.
    { apply reachable_inv. by eapply reach_ai_play. }
    split; [apply Hinv'|].
    apply ai_make_move_outcome, ai_placed_inv in Hrun
      as (Hz & Hv & Hb & _ & _ & dropped & n & s & rest & Hq & _).
    destruct (in_range_of_Permutation _ _ _ _ Hq (inv_pq _ Hinv))
      as [[Hr Hc] _].
    unfold entry_row, entry_col in Hr, Hc. simpl in Hr, Hc.
    assert (cell (board st') row col = value) as Hcell.
    { rewrite Hb. apply cell_set_cell_eq; try done. apply Hinv. }
    split; [done|]. intros r' c' Hr' Hc' Hp.
    rewrite <-Hcell. apply not_eq_sym, (inv_valid _ Hinv'); try done.
    rewrite Hcell. apply get_candidates_range in Hv. lia.
Qed.

(** An instance: in the sample game, the user's 9 at (0, 1) and the
    AI's first move. *)
Lemma moves_preserve_validity_witness :
  valid_grid (board (on_cell_edit sample_game 0 1 (IntText 9)).2)
  ∧ valid_grid
      (board (default sample_game (snd <$> ai_make_move 0 sample_game))).
Proof.
  assert (reachable sample_game) as Hreach.
  { apply reach_new_game; [|apply reach_init];
      split; unfold draw_ok; apply (bool_decide_unpack _); vm_compute;
      exact I. }
  assert (valid_grid (board sample_game)) as Hv.
  { apply valid_gridb_spec. vm_compute. reflexivity. }
  destruct (moves_preserve_validity sample_game Hreach Hv) as [Hedit Hai].
  split.
  - refine (proj1 (Hedit 0 1 (IntText 9) false _ _ _)); [lia|lia|].
    vm_compute. reflexivity.
  - refine (proj1 (Hai 0 1 8 8%Z _ _)). vm_compute. reflexivity.
Defined.

(** C4, as amended.  For every session and every cell [(row, col)],
    [update_neighbors] recomputes the candidates of the 21 distinct cells
    that share row [row], column [col] or the box of [(row, col)] (the 20
    peers and the cell itself), and of no other cell.  It leaves the grid
    alone and only adds to the heap: every added entry is the fresh
    snapshot [(len(candidates), r, c, candidates)] of one of these cells on
    the current grid, no cell gets two, every one of these cells whose
    candidate set is not empty gets one, and the entries that were in the
    heap stay. *)
Theorem update_neighbors_refreshes_21_cells (st : session) (row col : nat) :
  row < 9 → col < 9 →
  size (neighbours row col) = 21
  ∧ (∀ r c, (r, c) ∈ neighbours row col
            ↔ r < 9 ∧ c < 9 ∧ (r = row ∨ c = col ∨ same_box row col r c))
  ∧ board (update_neighbors st row col) = board st
  ∧ ∃ new, pq (update_neighbors st row col) ≡ₚ new ++ pq st
      ∧ NoDup ((λ e, (entry_row e, entry_col e)) <$> new)
      ∧ (∀ e, e ∈ new →
           (entry_row e, entry_col e) ∈ neighbours row col
           ∧ entry_cands e = get_candidates (board st) (entry_row e) (entry_col e)
           ∧ entry_count e = size (entry_cands e))
      ∧ (∀ r c, (r, c) ∈ neighbours row col →
           get_candidates (board st) r c ≠ ∅ →
           (size (get_candidates (board st) r c), r, c,
            get_candidates (board st) r c) ∈ new).
Proof.
  intros Hr Hc. split; [by apply size_neighbours|].
  split; [intros r c; by apply elem_of_neighbours|].
  split; [apply update_neighbors_board|].
  exists (fresh_entry (board st) <$> elements (neighbours row col)).
  split; [apply update_neighbors_pq|]. split; [|split].
  - rewrite <-list_fmap_compose.
    rewrite (list_fmap_ext _ id _ (λ _ '(r, c) _, eq_refl)), list_fmap_id.
    apply NoDup_elements.
  - intros e ([r c] & -> & Hin%elem_of_elements)%list_elem_of_fmap. done.
  - intros r c Hin _. apply list_elem_of_fmap. exists (r, c).
    split; [done|]. by apply elem_of_elements.
Qed.

(** An instance: the neighbours of cell (0, 1). *)
Lemma update_neighbors_refreshes_21_cells_witness :
  size (neighbours 0 1) = 21
  ∧ board (update_neighbors sample_written 0 1) = board sample_written.
Proof.
  destruct (update_neighbors_refreshes_21_cells sample_written 0 1)
    as (H1 & _ & H2 & _); [lia|lia|].
  exact (conj H1 H2).
Defined.

(** C4 as stated fails: when 9 has been written into cell (0, 1) of a
    fresh session (whose heap is empty), [update_neighbors] visits 21
    cells, not 20, and among the 21 entries it pushes is the one of the
    filled cell (0, 1) itself, with count 0 and an empty candidate set. *)
Lemma update_neighbors_counterexample :
  pq sample_written = []
  ∧ cell (board sample_written) 0 1 = 9%Z
  ∧ size (neighbours 0 1) = 21
  ∧ length (pq (update_neighbors sample_written 0 1)) = 21
  ∧ (0, 0, 1, ∅) ∈ pq (update_neighbors sample_written 0 1)
  ∧ ¬ refresh_claim_as_stated.
Proof.
  split; [reflexivity|]. split; [vm_compute; reflexivity|].
  split; [vm_compute; reflexivity|]. split; [vm_compute; reflexivity|].
  split; [apply (bool_decide_unpack _); vm_compute; exact I|].
  intros Hclaim.
  destruct (Hclaim sample_written 0 1) as [Hsize _]; [lia|lia|].
  vm_compute in Hsize. lia.
Qed.

(** C5, as amended.  Input that is not a digit of 1..9 never enters the
    grid.  When it is not the user's turn or the cell is locked, the key
    event is ignored and the session is unchanged.  Otherwise, that is on
    the user's turn and on a cell that is not a clue, the ValueError
    handler runs: it empties the target cell and leaves every other cell,
    the initial board and the heap as they were; so the grid is unchanged
    exactly when the target cell was empty already. *)
Theorem bad_input_empties_target_only
    (st : session) (row col : nat) (value : entry_text) :
  not_a_digit value →
  let res := (on_cell_edit st row col value).1 in
  let st' := (on_cell_edit st row col value).2 in
  (current_turn st ≠ user ∨ cell (initial_board st) row col ≠ 0%Z →
     res = Ignored ∧ st' = st)
  ∧ (current_turn st = user → cell (initial_board st) row col = 0%Z →
       res = BadInput
       ∧ board st' = set_cell (board st) row col 0%Z
       ∧ cell (board st') row col = 0%Z
       ∧ (board st' = board st ↔ cell (board st) row col = 0%Z))
  ∧ (∀ r c, cell (board st') r c = cell (board st) r c
            ∨ cell (board st') r c = 0%Z)
  ∧ (∀ r c, (r, c) ≠ (row, col) → cell (board st') r c = cell (board st) r c)
  ∧ (cell (board st) row col = 0%Z → board st' = board st)
  ∧ initial_board st' = initial_board st
  ∧ pq st' = pq st.
Proof.
  intros Hbad res st'.
  destruct (edit_not_a_digit _ _ _ _ _ _
              (on_cell_edit_outcome st row col value) Hbad)
    as [[Hres Hst]|(Hres & Ht & Hl & Hst)];
    fold res in Hres; fold st' in Hst.
  - pose proof (edit_ignored_guard st row col value Hres) as Hguard.
    rewrite Hst. split; [done|]. split.
    { intros Ht Hl. by destruct Hguard. }
    split; [intros r c; by left|]. done.
  - rewrite Hst. sess_simpl. split.
    { intros [Hnot|Hlocked]; done. }
    split.
    { intros _ _. split; [done|]. split; [done|].
      split; [apply cell_set_cell_zero|]. split.
      - intros Heq. rewrite <- Heq. apply cell_set_cell_zero.
      - intros <-. apply set_cell_same. }
    split.
    { intros r c. destruct (decide ((r, c) = (row, col))) as [[= -> ->]|Hne].
      - right. apply cell_set_cell_zero.
      - left. by apply cell_set_cell_ne. }
    split; [intros r c Hne; by apply cell_set_cell_ne|].
    split; [|done]. intros <-. apply set_cell_same.
Qed.

(** An instance: on the user's turn, typing 0 into cell (0, 1), which
    holds the 9 the user entered, empties that cell. *)
Lemma bad_input_empties_target_only_witness :
  (on_cell_edit sample_played 0 1 (IntText 0)).1 = BadInput
  ∧ cell (board (on_cell_edit sample_played 0 1 (IntText 0)).2) 0 1 = 0%Z.
Proof.
  assert (not_a_digit (IntText 0)) as Hbad.
  { right. exists 0%Z. split; [reflexivity|lia]. }
  destruct (proj1 (proj2 (bad_input_empties_target_only
                            sample_played 0 1 (IntText 0) Hbad)))
    as (Hres & _ & Hz & _); [vm_compute; reflexivity|vm_compute; reflexivity|].
  exact (conj Hres Hz).
Defined.

(** C5 as stated fails: in a reachable session where it is the user's
    turn and cell (0, 1), not a clue, holds the 9 the user entered, typing
    0 (or text that is no number) into that cell runs the ValueError
    handler, and the cell holds 0 afterwards. *)
Lemma bad_input_counterexample :
  reachable sample_played
  ∧ current_turn sample_played = user
  ∧ cell (initial_board sample_played) 0 1 = 0%Z
  ∧ cell (board sample_played) 0 1 = 9%Z
  ∧ (on_cell_edit sample_played 0 1 (IntText 0)).1 = BadInput
  ∧ cell (board (on_cell_edit sample_played 0 1 (IntText 0)).2) 0 1 = 0%Z
  ∧ (on_cell_edit sample_played 0 1 NotInt).1 = BadInput
  ∧ cell (board (on_cell_edit sample_played 0 1 NotInt).2) 0 1 = 0%Z
  ∧ ¬ bad_input_claim_as_stated.
Proof.
  split; [apply sample_played_reachable|].
  do 7 (split; [vm_compute; reflexivity|]).
  intros Hclaim.
  assert (not_a_digit (IntText 0)) as Hbad.
  { right. exists 0%Z. split; [reflexivity|lia]. }
  specialize (Hclaim sample_played 0 1 (IntText 0)).
  assert (cell (board (on_cell_edit sample_played 0 1 (IntText 0)).2) 0 1
          = cell (board sample_played) 0 1) as Heq.
  { rewrite Hclaim; [done|lia|lia|done]. }
  vm_compute in Heq. discriminate Heq.
Qed.

(** C6. On every 9x9 board, for every empty cell [(r, c)] and every digit
    [d] of 1..9, [is_valid board r c d] holds exactly when [d] is in
    [get_candidates board r c]; and that set is 1..9 minus the digits of
    row [r], of column [c] and of the box of [(r, c)]. *)
Theorem is_valid_agrees_with_candidates (b : grid) (r c : nat) (d : Z) :
  wf_board b → r < 9 → c < 9 → cell b r c = 0%Z → (1 ≤ d ≤ 9)%Z →
  (is_valid b r c d = true ↔ d ∈ get_candidates b r c)
  ∧ get_candidates b r c = candidates_spec b r c
  ∧ get_candidates b r c
    = list_to_set digits ∖ list_to_set (row_cells b r)
        ∖ list_to_set (col_cells b c)
        ∖ list_to_set (box_cells b (3 * (r / 3) + c / 3)).
Proof.
  intros Hwf Hr Hc Hz Hd. split; [by apply is_valid_iff_candidate|].
  split; [by apply get_candidates_spec|].
  rewrite get_candidates_spec by done. unfold candidates_spec.
  by rewrite bool_decide_eq_false_2 by (by intros ?).
Qed.

(** An instance: the digits 9 and 7 at the empty cell (0, 1) of the sample
    puzzle. *)
Lemma is_valid_agrees_with_candidates_witness :
  (is_valid (generate_puzzle sample_draws) 0 1 9 = true
   ↔ 9%Z ∈ get_candidates (generate_puzzle sample_draws) 0 1)
  ∧ (is_valid (generate_puzzle sample_draws) 0 1 7 = true
     ↔ 7%Z ∈ get_candidates (generate_puzzle sample_draws) 0 1).
Proof.
  assert (wf_board (generate_puzzle sample_draws)) as Hwf.
  { split; [reflexivity|]. vm_compute. repeat constructor. }
  assert (cell (generate_puzzle sample_draws) 0 1 = 0%Z) as Hz
    by (vm_compute; reflexivity).
  split.
  - refine (proj1 (is_valid_agrees_with_candidates _ 0 1 9 Hwf _ _ Hz _));
      lia.
  - refine (proj1 (is_valid_agrees_with_candidates _ 0 1 7 Hwf _ _ Hz _));
      lia.
Defined.

(** C7. In every session [ai_make_move] returns, and the cell it selects
    is empty in the current grid.  The loop pops entries one after the
    other; every entry it pops whose cell is filled is discarded (it is
    neither played nor put back: the heap afterwards is built from what
    is left after these pops), and the loop stops at the first popped
    entry whose cell is empty, or when the heap is empty.  The digit goes
    into that cell, which held 0, and no filled cell is ever written to.
    Likewise [show_hint] pops and discards the stale entries at the top,
    reports a cell that is empty, and does not touch the grid. *)
Theorem ai_never_selects_filled_cell (st : session) (k : nat) :
  is_Some (ai_make_move k st)
  ∧ (∀ res st', ai_make_move k st = Some (res, st') →
       (∀ r c, cell (board st) r c ≠ 0%Z →
               cell (board st') r c = cell (board st) r c)
       ∧ ∃ n dropped q',
           pops n (pq st) = Some (dropped, q')
           ∧ Forall (stale (board st)) dropped
           ∧ match res with
             | Placed row col value =>
                 ∃ count candidates rest,
                   heappop q' = Some ((count, row, col, candidates), rest)
                   ∧ cell (board st) row col = 0%Z
                   ∧ value ∈ get_candidates (board st) row col
                   ∧ board st' = set_cell (board st) row col value
                   ∧ pq st' ≡ₚ (fresh_entry (board st') <$>
                                  elements (neighbours row col)) ++ rest
             | NoMove =>
                 board st' = board st
                 ∧ ((q' = [] ∧ pq st' = [])
                    ∨ ∃ count row col candidates rest,
                        heappop q' = Some ((count, row, col, candidates), rest)
                        ∧ cell (board st) row col = 0%Z
                        ∧ get_candidates (board st) row col = ∅
                        ∧ pq st' = rest)
             end)
  ∧ is_Some (show_hint st)
  ∧ (∀ res st', show_hint st = Some (res, st') →
       board st' = board st
       ∧ (∃ n dropped,
            pops n (pq st) = Some (dropped, pq st')
            ∧ Forall (stale (board st)) dropped)
       ∧ match res with
         | Hint row col candidates =>
             cell (board st) row col = 0%Z
             ∧ candidates = get_candidates (board st) row col
             ∧ ∃ count snapshot rest, pq st' = (count, row, col, snapshot) :: rest
         | NoHint => pq st' = []
         end).
Proof.
  split; [apply ai_make_move_total|]. split; [|split].
  - intros res st' Hrun. split.
    + pose proof (ai_make_move_outcome _ _ _ _ Hrun) as Hout.
      destruct res as [row col value|].
      * apply ai_placed_inv in Hout as (Hz & _ & Hb & _).
        intros r c Hfilled. rewrite Hb. apply cell_set_cell_ne.
        intros [= -> ->]. done.
      * apply ai_nomove_inv in Hout as (Hb & _). intros r c _. by rewrite Hb.
    + by eapply ai_loop_pops.
  - apply show_hint_total.
  - intros res st' Hrun.
    pose proof (show_hint_pops _ _ _ Hrun) as Hpops.
    apply show_hint_spec in Hrun as (Hb & _ & _ & _ & _ & Hres). done.
Qed.

(** An instance: in the sample game the AI selects the empty cell (1, 8);
    after the user's move it first discards the stale entry of the cell
    the user filled; after a reset the hint reports the cell (0, 1), which
    is empty again. *)
Lemma ai_never_selects_filled_cell_witness :
  cell (board sample_game) 1 8 = 0%Z
  ∧ (∃ n dropped q',
       pops n (pq sample_user_moved) = Some (dropped, q')
       ∧ Forall (stale (board sample_user_moved)) dropped
       ∧ ∃ count candidates rest,
           heappop q' = Some ((count, 1, 8, candidates), rest)
           ∧ cell (board sample_user_moved) 1 8 = 0%Z)
  ∧ cell (board (reset_board sample_moved)) 0 1 = 0%Z.
Proof.
  split; [|split].
  - destruct (ai_never_selects_filled_cell sample_game 0) as (_ & Hai & _).
    destruct (Hai (Placed 1 8 8%Z) _ ltac:(vm_compute; reflexivity))
      as (_ & n & dropped & q' & _ & _ & count & cands & rest & _ & Hz & _).
    exact Hz.
  - destruct (ai_never_selects_filled_cell sample_user_moved 0)
      as (_ & Hai & _).
    destruct (Hai (Placed 1 8 8%Z) _ ltac:(vm_compute; reflexivity))
      as (_ & n & dropped & q' & Hpops & Hd & count & cands & rest
          & Hpop & Hz & _).
    exists n, dropped, q'. split; [exact Hpops|]. split; [exact Hd|].
    exists count, cands, rest. exact (conj Hpop Hz).
  - destruct (ai_never_selects_filled_cell (reset_board sample_moved) 0)
      as (_ & _ & _ & Hhint).
    destruct (Hhint (Hint 0 1 _) _ ltac:(vm_compute; reflexivity))
      as (_ & _ & Hz & _).
    exact Hz.
Defined.

(** C8. After [reset_board] the grid is the initial board, cell for cell,
    and the initial board itself is untouched; [is_complete] then returns
    [False] exactly when the initial board has an empty cell. *)
Theorem reset_restores_initial (st : session) :
  board (reset_board st) = initial_board st
  ∧ initial_board (reset_board st) = initial_board st
  ∧ (∀ r c, cell (board (reset_board st)) r c = cell (initial_board st) r c)
  ∧ (is_complete (reset_board st) = false
     ↔ ∃ r c, r < 9 ∧ c < 9 ∧ cell (initial_board st) r c = 0%Z).
Proof.
  split; [done|]. split; [done|]. split; [done|].
  unfold is_complete. rewrite <-not_true_iff_false, forallb_seq_true.
  setoid_rewrite forallb_seq_true. setoid_rewrite negb_true_iff.
  setoid_rewrite bool_decide_eq_false. sess_simpl. split.
  - intros Hnot.
    destruct (decide (Exists (λ rc, cell (initial_board st) rc.1 rc.2 = 0%Z)
                        all_cells)) as [Hex|Hnex].
    + apply Exists_exists in Hex as ([r c] & [? ?]%all_cells_spec & Hz).
      by exists r, c.
    + exfalso. apply Hnot. intros r Hr c Hc Hz. apply Hnex.
      apply Exists_exists. exists (r, c). split; [by apply all_cells_spec|done].
  - intros (r & c & Hr & Hc & Hz) Hall. by apply (Hall r Hr c Hc).
Qed.

(** An instance: the sample puzzle has an empty cell. *)
Lemma reset_restores_initial_witness :
  is_complete (reset_board sample_played) = false.
Proof.
  apply (proj2 (proj2 (proj2 (reset_restores_initial sample_played)))).
  exists 0, 1. split; [lia|]. split; [lia|]. vm_compute. reflexivity.
Defined.

(** C9. After [SudokuDuel.__init__] the heap is empty, although the puzzle
    has an empty cell with a candidate and the heap that [new_game] had
    built was not empty.  So on the fresh session [ai_make_move] returns
    [False] and [show_hint] reports no cell, whatever is drawn; an edit
    that is not accepted and a reset leave the heap empty; an accepted
    digit fills it, through [update_neighbors], with 21 entries. *)
Theorem fresh_session_frontier_empty (d : draws) :
  draws_ok d →
  pq (init d) = []
  ∧ (∀ st, pq (new_game d st) ≠ [])
  ∧ (∃ r c, r < 9 ∧ c < 9 ∧ cell (board (init d)) r c = 0%Z
            ∧ get_candidates (board (init d)) r c ≠ ∅)
  ∧ (∀ k, ai_make_move k (init d) = Some (NoMove, init d))
  ∧ show_hint (init d) = Some (NoHint, init d)
  ∧ pq (reset_board (init d)) = []
  ∧ (∀ row col value,
       (∀ complete, (on_cell_edit (init d) row col value).1 ≠ Accepted complete) →
       pq (on_cell_edit (init d) row col value).2 = [])
  ∧ (∀ row col value complete,
       row < 9 → col < 9 →
       (on_cell_edit (init d) row col value).1 = Accepted complete →
       length (pq (on_cell_edit (init d) row col value).2) = 21).
Proof.
  intros Hd. split; [apply init_pq|].
  split; [intros st; by apply new_game_pq_nonempty|]. split.
  { rewrite init_board. by apply generate_puzzle_live_cell. }
  split; [intros k; apply ai_make_move_empty, init_pq|].
  split; [apply show_hint_empty, init_pq|].
  split; [apply init_pq|]. split.
  - intros row col value Hres.
    rewrite (edit_rejected_pq _ _ _ _ _ _
               (on_cell_edit_outcome (init d) row col value) Hres).
    apply init_pq.
  - intros row col value complete Hr Hc Hres.
    pose proof (on_cell_edit_outcome (init d) row col value) as Hout.
    rewrite Hres in Hout.
    apply edit_accepted_inv in Hout as (_ & _ & _ & _ & _ & _ & _ & _ & Hq).
    rewrite Hq, length_app, length_fmap, init_pq, Nat.add_0_r.
    by apply size_neighbours.
Qed.

(** An instance: the fresh sample session, and the user's first digit. *)
Lemma fresh_session_frontier_empty_witness :
  pq (init sample_draws) = []
  ∧ length (pq (on_cell_edit (init sample_draws) 0 1 (IntText 9)).2) = 21.
Proof.
  assert (draws_ok sample_draws) as Hd.
  { split; unfold draw_ok; apply (bool_decide_unpack _); vm_compute; exact I. }
  destruct (fresh_session_frontier_empty sample_draws Hd)
    as (H1 & _ & _ & _ & _ & _ & _ & H2).
  split; [exact H1|].
  refine (H2 0 1 (IntText 9) false _ _ _); [lia|lia|].
  vm_compute. reflexivity.
Defined.

(** C10. [reset_board] restores the grid from the initial board, the turn
    flag and the cell colours, and leaves the heap exactly as it was.  So
    entries pushed before the reset survive it, and [ai_make_move] can act
    on one: in the sample session the user writes 9 into cell (0, 1),
    which pushes for that cell the snapshot with count 0 and no candidate;
    after a reset the cell is empty again with candidates 1 and 9, the
    snapshot is still in the heap, and the next [ai_make_move] (and
    [show_hint]) selects that cell through it. *)
Theorem reset_keeps_frontier :
  (∀ st, pq (reset_board st) = pq st
         ∧ board (reset_board st) = initial_board st
         ∧ initial_board (reset_board st) = initial_board st
         ∧ current_turn (reset_board st) = user
         ∧ cell_colors (reset_board st) = no_colors)
  ∧ (reachable sample_moved
     ∧ cell (board sample_moved) 0 1 = 9%Z
     ∧ (0, 0, 1, ∅) ∈ pq sample_moved
     ∧ (0, 0, 1, ∅) ∈ pq (reset_board sample_moved)
     ∧ cell (board (reset_board sample_moved)) 0 1 = 0%Z
     ∧ get_candidates (board (reset_board sample_moved)) 0 1 = {[1%Z; 9%Z]}
     ∧ fst <$> ai_make_move 0 (reset_board sample_moved)
       = Some (Placed 0 1 9)
     ∧ fst <$> show_hint (reset_board sample_moved)
       = Some (Hint 0 1 {[1%Z; 9%Z]})).
Proof.
  split; [done|]. split; [apply sample_moved_reachable|].
  split; [vm_compute; reflexivity|].
  split; [apply (bool_decide_unpack _); vm_compute; exact I|].
  split; [apply (bool_decide_unpack _); vm_compute; exact I|].
  split; [vm_compute; reflexivity|].
  split; [apply (bool_decide_unpack _); vm_compute; exact I|].
  split; vm_compute; reflexivity.
Qed.

(** * The order of the frontier, and further properties *)

(** ** The heap is ordered *)

Section heap_order.
Implicit Types (h : list entry) (x y z : entry).

Lemma key_le_refl x : key_le x x.
Proof. unfold key_le. lia. Qed.

Lemma key_le_trans x y z : key_le x y → key_le y z → key_le x z.
Proof. unfold key_le. lia. Qed.

(** What [<] on tuples says about the keys. *)
Lemma entry_lt_true_key_le x y : entry_lt x y = true → key_le x y.
Proof.
  destruct x as [[[n1 r1] c1] s1], y as [[[n2 r2] c2] s2].
  unfold entry_lt, key_le, entry_count, entry_row, entry_col. simpl.
  repeat case_bool_decide; intros; simplify_eq; lia.
Qed.

Lemma entry_lt_false_key_le x y : entry_lt x y = false → key_le y x.
Proof.
  destruct x as [[[n1 r1] c1] s1], y as [[[n2 r2] c2] s2].
  unfold entry_lt, key_le, entry_count, entry_row, entry_col. simpl.
  repeat case_bool_decide; intros; simplify_eq; lia.
Qed.

Lemma lookup_total_insert_at h i j x :
  i < length h → <[i := x]> h !!! j = if decide (i = j) then x else h !!! j.
Proof.
  intros Hi. rewrite list_lookup_total_insert.
  destruct (decide (i = j)); case_decide; try done; lia.
Qed.

Lemma parent_child pos : 0 < pos → child ((pos - 1) / 2) pos.
Proof.
  intros Hpos. unfold child.
  pose proof (Nat.div_mod_eq (pos - 1) 2).
  pose proof (Nat.mod_upper_bound (pos - 1) 2). lia.
Qed.

(** Putting the item into the hole, once it fits below the parent. *)
Lemma hole_fits_fill h pos x :
  pos < length h → hole_fits h pos x →
  (∀ pp, child pp pos → key_le (h !!! pp) x) →
  heap_ordered (<[pos := x]> h).
Proof.
  intros Hpos (Ha & Hb & Hc) Hparent p c Hlen Hch.
  rewrite length_insert in Hlen. rewrite !lookup_total_insert_at by done.
  destruct (decide (pos = p)) as [<-|Hp], (decide (pos = c)) as [<-|Hcp].
  - unfold child in Hch. lia.
  - by apply Hb.
  - by apply Hparent.
  - apply Ha; auto.
Qed.

(** One round of [_siftdown]: the parent comes down, the hole goes up. *)
Lemma hole_fits_up h pos x pp :
  pos < length h → child pp pos → hole_fits h pos x →
  key_le x (h !!! pp) →
  hole_fits (<[pos := h !!! pp]> h) pp x.
Proof.
  intros Hpos Hpp (Ha & Hb & Hc) Hx.
  assert (pp < pos) as Hlt by (unfold child in Hpp; lia).
  split; [|split].
  - intros p c Hlen Hch Hc1 Hp1. rewrite length_insert in Hlen.
    rewrite !lookup_total_insert_at by done.
    destruct (decide (pos = p)) as [<-|Hp], (decide (pos = c)) as [<-|Hcp].
    + unfold child in Hch. lia.
    + by apply Hc.
    + unfold child in *. lia.
    + apply Ha; auto.
  - intros c Hlen Hch. rewrite length_insert in Hlen.
    rewrite lookup_total_insert_at by done.
    destruct (decide (pos = c)) as [<-|Hcp]; [done|].
    eapply key_le_trans; [exact Hx|]. apply Ha; auto. lia.
  - intros ppp c Hppp Hlen Hch. rewrite length_insert in Hlen.
    assert (ppp < pp) by (unfold child in Hppp; lia).
    rewrite !lookup_total_insert_at by done.
    rewrite decide_False by lia.
    assert (key_le (h !!! ppp) (h !!! pp)) as Hup.
    { apply Ha; auto; lia. }
    destruct (decide (pos = c)) as [<-|Hcp]; [done|].
    eapply key_le_trans; [exact Hup|]. apply Ha; auto. lia.
Qed.

(** [_siftdown(heap, 0, pos)] ends with an ordered heap. *)
Lemma siftdown_loop_ordered fuel h pos x :
  pos ≤ fuel → pos < length h → hole_fits h pos x →
  heap_ordered (siftdown_loop fuel h 0 pos x).
Proof.
  revert h pos. induction fuel as [|fuel IH]; intros h pos Hfuel Hpos Hfit.
  - assert (pos = 0) as -> by lia. cbn [siftdown_loop].
    apply hole_fits_fill; try done. intros pp Hpp. unfold child in Hpp. lia.
  - cbn [siftdown_loop]. case_bool_decide as Hgt.
    + pose proof (parent_child pos Hgt) as Hpp.
      assert ((pos - 1) / 2 < pos) by (unfold child in Hpp; lia).
      destruct (entry_lt x (h !!! ((pos - 1) / 2))) eqn:Hlt.
      * apply IH; [lia|rewrite length_insert; lia|].
        apply hole_fits_up; try done. by apply entry_lt_true_key_le.
      * apply hole_fits_fill; try done. intros pp Hpp'.
        assert (pp = (pos - 1) / 2) as -> by (unfold child in *; lia).
        by apply entry_lt_false_key_le.
    + assert (pos = 0) as -> by lia.
      apply hole_fits_fill; try done. intros pp Hpp. unfold child in Hpp. lia.
Qed.

(** One round of [_siftup]: the smaller child comes up, the hole goes
    down. *)
Lemma hole_sinks_down h pos c :
  pos < length h → c < length h → child pos c →
  (∀ c', c' < length h → child pos c' → key_le (h !!! c) (h !!! c')) →
  hole_sinks h pos → hole_sinks (<[pos := h !!! c]> h) c.
Proof.
  intros Hpos Hc Hch Hleast (Ha & Hgrand).
  assert (pos < c) by (unfold child in Hch; lia).
  split.
  - intros p q Hlen Hpq Hq1 Hp1. rewrite length_insert in Hlen.
    rewrite !lookup_total_insert_at by done.
    destruct (decide (pos = p)) as [<-|Hp], (decide (pos = q)) as [<-|Hq].
    + unfold child in Hpq. lia.
    + by apply Hleast.
    + by apply Hgrand.
    + apply Ha; auto.
  - intros pp g Hpp Hlen Hg. rewrite length_insert in Hlen.
    assert (pp = pos) as -> by (unfold child in *; lia).
    assert (c < g) by (unfold child in Hg; lia).
    rewrite !lookup_total_insert_at by done.
    rewrite decide_True by done. rewrite decide_False by lia.
    apply Ha; auto; lia.
Qed.

(** The loop of [_siftup] takes the hole down to a leaf. *)
Lemma siftup_loop_sinks fuel h pos :
  pos < length h → length h ≤ fuel + pos → hole_sinks h pos →
  hole_sinks (siftup_loop fuel h (length h) pos).1
             (siftup_loop fuel h (length h) pos).2
  ∧ length (siftup_loop fuel h (length h) pos).1 = length h
  ∧ (siftup_loop fuel h (length h) pos).2 < length h
  ∧ length h ≤ 2 * (siftup_loop fuel h (length h) pos).2 + 1.
Proof.
  revert h pos. induction fuel as [|fuel IH]; intros h pos Hpos Hfuel Hs;
    [lia|].
  cbn [siftup_loop]. case_bool_decide as Hleft; [|simpl; split_and!; [done..|lia]].
  set (c := if bool_decide (2 * pos + 1 + 1 < length h)
               && negb (entry_lt (h !!! (2 * pos + 1))
                          (h !!! (2 * pos + 1 + 1)))
            then 2 * pos + 1 + 1 else 2 * pos + 1).
  assert (c < length h ∧ child pos c
          ∧ ∀ c', c' < length h → child pos c' →
                  key_le (h !!! c) (h !!! c')) as (Hc & Hch & Hleast).
  { unfold c, child.
    destruct (bool_decide (2 * pos + 1 + 1 < length h)) eqn:Hright;
      cbn [andb].
    - apply bool_decide_eq_true in Hright.
      destruct (entry_lt (h !!! (2 * pos + 1)) (h !!! (2 * pos + 1 + 1)))
        eqn:Hlt; cbn [negb].
      + split; [lia|]. split; [lia|]. intros c' Hc' [->| ->].
        * apply key_le_refl.
        * replace (2 * pos + 2) with (2 * pos + 1 + 1) by lia.
          by apply entry_lt_true_key_le.
      + split; [lia|]. split; [lia|]. intros c' Hc' [->| ->].
        * by apply entry_lt_false_key_le.
        * replace (2 * pos + 2) with (2 * pos + 1 + 1) by lia.
          apply key_le_refl.
    - apply bool_decide_eq_false in Hright.
      split; [lia|]. split; [lia|]. intros c' Hc' [->| ->];
        [apply key_le_refl|lia]. }
  assert (pos < c) by (unfold child in Hch; lia).
  destruct (IH (<[pos := h !!! c]> h) c) as (H1 & H2 & H3 & H4).
  - by rewrite length_insert.
  - rewrite length_insert. lia.
  - by apply hole_sinks_down.
  - rewrite length_insert in *. done.
Qed.

(** [_siftup(heap, 0)], as [heappop] calls it. *)
Lemma siftup_ordered h :
  0 < length h → hole_sinks h 0 → heap_ordered (siftup h 0).
Proof.
  intros Hlen Hs. unfold siftup.
  destruct (siftup_loop_sinks (length h) h 0 Hlen) as ((Ha & Hg) & H2 & H3 & H4);
    [lia|done|].
  destruct (siftup_loop (length h) h (length h) 0) as [h' pos]. simpl in *.
  unfold siftdown.
  rewrite list_lookup_total_insert_eq by lia.
  apply siftdown_loop_ordered; [done|rewrite length_insert; lia|].
  split; [|split].
  - intros p c Hc Hch Hc1 Hp1. rewrite length_insert in Hc.
    rewrite !list_lookup_total_insert_ne by done. apply Ha; auto.
  - intros c Hc Hch. rewrite length_insert in Hc. unfold child in Hch. lia.
  - intros pp c _ Hc Hch. rewrite length_insert in Hc. unfold child in Hch. lia.
Qed.

(** [heappush] keeps the heap ordered. *)
Lemma heappush_ordered h x : heap_ordered h → heap_ordered (heappush h x).
Proof.
  intros Hh. unfold heappush, siftdown.
  rewrite length_app, Nat.add_sub. simpl.
  rewrite lookup_total_app_r, Nat.sub_diag by done. simpl.
  apply siftdown_loop_ordered; [done|rewrite length_app; simpl; lia|].
  split; [|split].
  - intros p c Hc Hch Hc1 Hp1. rewrite length_app in Hc. simpl in Hc.
    assert (p < c) by (unfold child in Hch; lia).
    rewrite !lookup_total_app_l by lia. apply Hh; [lia|done].
  - intros c Hc Hch. rewrite length_app in Hc. simpl in Hc.
    unfold child in Hch. lia.
  - intros pp c _ Hc Hch. rewrite length_app in Hc. simpl in Hc.
    unfold child in Hch. lia.
Qed.

(** The root of an ordered heap is below every entry. *)
Lemma heap_root_least h i :
  heap_ordered h → i < length h → key_le (h !!! 0) (h !!! i).
Proof.
  intros Hh. induction i as [i IH] using lt_wf_ind. intros Hi.
  destruct (decide (i = 0)) as [->|Hne]; [apply key_le_refl|].
  pose proof (parent_child i ltac:(lia)) as Hp.
  assert ((i - 1) / 2 < i) by (unfold child in Hp; lia).
  eapply key_le_trans; [apply IH; [done|lia]|]. by apply Hh.
Qed.

(** [heappop] returns an entry below all the others and keeps the heap
    ordered. *)
Lemma heappop_ordered h x rest :
  heap_ordered h → heappop h = Some (x, rest) →
  heap_ordered rest ∧ ∀ y, y ∈ h → key_le x y.
Proof.
  intros Hh Hpop. split.
  - revert Hpop. unfold heappop.
    destruct (last h) as [lastelt|] eqn:Hlast; [|done].
    apply last_Some in Hlast as [front ->].
    rewrite length_app, Nat.add_sub, take_app_length.
    destruct front as [|r t]; intros [= <- <-].
    { intros p c Hc. simpl in Hc. lia. }
    apply siftup_ordered; [simpl; lia|]. split.
    + intros p c Hc Hch Hc1 Hp1. cbn [length] in Hc.
      assert (p < c) by (unfold child in Hch; lia).
      change (lastelt :: t) with (<[0 := lastelt]> (r :: t)).
      rewrite !list_lookup_total_insert_ne by done.
      rewrite <- (lookup_total_app_l (r :: t) [lastelt] p) by (simpl; lia).
      rewrite <- (lookup_total_app_l (r :: t) [lastelt] c) by (simpl; lia).
      apply Hh; [|done]. rewrite length_app. simpl. lia.
    + intros pp c Hpp. unfold child in Hpp. lia.
  - intros y [i Hy]%list_elem_of_lookup.
    assert (i < length h) as Hi by (by eapply lookup_lt_Some).
    destruct h as [|top q]; [simpl in Hi; lia|].
    pose proof (heappop_head _ _ _ _ Hpop) as ->.
    pose proof (heap_root_least (top :: q) i Hh Hi) as Hle.
    by rewrite (list_lookup_total_correct _ _ _ Hy) in Hle.
Qed.

Lemma heappush_sized h x : Forall sized h → sized x → Forall sized (heappush h x).
Proof. intros Hh Hx. rewrite heappush_Permutation. by constructor. Qed.

Lemma heappop_sized h x rest :
  Forall sized h → heappop h = Some (x, rest) → sized x ∧ Forall sized rest.
Proof.
  intros Hh Hpop%heappop_Permutation. rewrite Hpop in Hh.
  by apply Forall_cons in Hh.
Qed.
End heap_order.

(** ** The heap of a session stays ordered *)

Lemma fresh_entry_sized b rc : sized (fresh_entry b rc).
Proof. reflexivity. Qed.

Lemma heap_ordered_nil : heap_ordered [].
Proof. intros p c Hc. simpl in Hc. lia. Qed.

Lemma update_fold_ordered st (l : list (nat * nat)) :
  heap_ordered (pq st) →
  heap_ordered
    (pq (foldl (λ st rc,
                  with_pq st (heappush (pq st) (fresh_entry (board st) rc)))
           st l)).
Proof.
  revert st. induction l as [|rc l IH]; intros st Hq; [done|].
  cbn [foldl]. apply IH. sess_simpl. by apply heappush_ordered.
Qed.

Lemma update_neighbors_ordered st r c :
  heap_ordered (pq st) → heap_ordered (pq (update_neighbors st r c)).
Proof. apply update_fold_ordered. Qed.

Lemma update_neighbors_sized st r c :
  Forall sized (pq st) → Forall sized (pq (update_neighbors st r c)).
Proof.
  intros Hq. rewrite update_neighbors_pq. apply Forall_app. split; [|done].
  apply Forall_fmap, Forall_true. intros rc. apply fresh_entry_sized.
Qed.

(** The loop of [initialize_priority_queue] leaves the board alone and
    pushes what the loop of [build_priority_queue] pushes. *)
Lemma initialize_fold st (l : list (nat * nat)) :
  pq (foldl (λ st '(i, j),
       if bool_decide (cell (board st) i j = 0%Z) then
         let candidates := get_candidates (board st) i j in
         if bool_decide (candidates ≠ ∅)
         then with_pq st (heappush (pq st) (size candidates, i, j, candidates))
         else st
       else st) st l)
  = foldl (λ pq '(i, j),
       if bool_decide (cell (board st) i j = 0%Z) then
         let candidates := get_candidates (board st) i j in
         if bool_decide (candidates ≠ ∅)
         then heappush pq (size candidates, i, j, candidates)
         else pq
       else pq) (pq st) l.
Proof.
  revert st. induction l as [|[i j] l IH]; intros st; [done|].
  cbn [foldl]. cbn zeta.
  destruct (bool_decide (cell (board st) i j = 0%Z)); [|apply IH].
  destruct (bool_decide (get_candidates (board st) i j ≠ ∅)); [|apply IH].
  rewrite IH. reflexivity.
Qed.

Lemma build_priority_queue_initialize st :
  build_priority_queue st = pq (initialize_priority_queue st).
Proof.
  unfold build_priority_queue, initialize_priority_queue. cbn zeta.
  rewrite initialize_fold. reflexivity.
Qed.

Lemma build_fold_ordered b (l : list (nat * nat)) q :
  heap_ordered q →
  heap_ordered (foldl (λ pq '(i, j),
       if bool_decide (cell b i j = 0%Z) then
         let candidates := get_candidates b i j in
         if bool_decide (candidates ≠ ∅)
         then heappush pq (size candidates, i, j, candidates)
         else pq
       else pq) q l).
Proof.
  revert q. induction l as [|[i j] l IH]; intros q Hq; [done|].
  cbn [foldl]. cbn zeta.
  destruct (bool_decide (cell b i j = 0%Z)); [|by apply IH].
  destruct (bool_decide (get_candidates b i j ≠ ∅)); [|by apply IH].
  apply IH. by apply heappush_ordered.
Qed.

Lemma build_priority_queue_ordered st : heap_ordered (build_priority_queue st).
Proof. apply build_fold_ordered, heap_ordered_nil. Qed.

Lemma initialize_priority_queue_ordered st :
  heap_ordered (pq (initialize_priority_queue st)).
Proof.
  rewrite <- build_priority_queue_initialize.
  apply build_priority_queue_ordered.
Qed.

Lemma initialize_priority_queue_sized st :
  Forall sized (pq (initialize_priority_queue st)).
Proof.
  destruct (initialize_priority_queue_spec st) as (_ & _ & _ & _ & Hq).
  rewrite Hq. apply Forall_fmap, Forall_true. intros rc.
  apply fresh_entry_sized.
Qed.

(** *** The loop of [ai_make_move] *)

Lemma ai_loop_ordered fuel k st res st' :
  heap_ordered (pq st) → ai_loop fuel k st = Some (res, st') →
  heap_ordered (pq st').
Proof.
  revert st. induction fuel as [|fuel IH]; intros st Hq; cbn [ai_loop];
    destruct (pq st) as [|e0 q0] eqn:E; try done.
  { intros [= <- <-]. by rewrite E. }
  { intros [= <- <-]. by rewrite E. }
  rewrite <- E in *.
  destruct (heappop (pq st)) as [[[[[count row] col] cands] rest]|] eqn:Hpop;
    [|done].
  destruct (heappop_ordered _ _ _ Hq Hpop) as [Hrest _]. sess_simpl.
  case_bool_decide as Hstale.
  { apply IH. by sess_simpl. }
  case_bool_decide as Hdead.
  { intros [= <- <-]. by sess_simpl. }
  intros [= <- <-]. apply update_neighbors_ordered. by sess_simpl.
Qed.

(** The entry played is below every entry of the heap that is not
    stale. *)
Lemma ai_loop_least fuel k st row col value st' :
  heap_ordered (pq st) →
  ai_loop fuel k st = Some (Placed row col value, st') →
  ∃ count cands,
    (count, row, col, cands) ∈ pq st
    ∧ ∀ e, e ∈ pq st → ¬ stale (board st) e →
           key_le (count, row, col, cands) e.
Proof.
  revert st. induction fuel as [|fuel IH]; intros st Hq; cbn [ai_loop];
    destruct (pq st) as [|e0 q0] eqn:E; try done.
  rewrite <- E in *.
  destruct (heappop (pq st)) as [[[[[count r] c] cands] rest]|] eqn:Hpop;
    [|done].
  destruct (heappop_ordered _ _ _ Hq Hpop) as [Hrest Hleast].
  pose proof (heappop_Permutation _ _ _ Hpop) as Hperm. sess_simpl.
  case_bool_decide as Hstale.
  { intros Hrun. apply IH in Hrun as (n & s & Hin & Hmin); [|by sess_simpl].
    sess_simpl. exists n, s. split.
    - rewrite Hperm. by right.
    - intros e He Hlive. rewrite Hperm in He.
      apply elem_of_cons in He as [->|He]; [|by apply Hmin].
      by destruct Hlive. }
  case_bool_decide as Hdead; [done|].
  intros [= <- <- <- <-]. exists count, cands. split.
  - rewrite Hperm. by left.
  - intros e He _. by apply Hleast.
Qed.

(** When every entry is stale the loop empties the heap and gives up. *)
Lemma ai_loop_all_stale fuel k st :
  length (pq st) ≤ fuel → Forall (stale (board st)) (pq st) →
  ai_loop fuel k st = Some (NoMove, with_pq st []).
Proof.
  revert st. induction fuel as [|fuel IH]; intros st Hfuel Hst;
    cbn [ai_loop]; destruct (pq st) as [|e0 q0] eqn:E.
  - by destruct st; simplify_eq/=.
  - simpl in Hfuel. lia.
  - by destruct st; simplify_eq/=.
  - rewrite <- E in *.
    destruct (heappop_is_Some (pq st)) as [[[[[count r] c] cands] rest] Hpop];
      [by rewrite E|].
    rewrite Hpop.
    pose proof (heappop_Permutation _ _ _ Hpop) as Hperm.
    pose proof (heappop_length _ _ _ Hpop) as Hlen.
    rewrite Hperm in Hst. apply Forall_cons in Hst as [Hs Hrest].
    sess_simpl. rewrite bool_decide_true by exact Hs.
    rewrite IH; [done| |done]. sess_simpl. lia.
Qed.

(** *** The loop of [show_hint] *)

Lemma clean_top_ordered fuel b q q' :
  heap_ordered q → clean_top fuel b q = Some q' →
  heap_ordered q'
  ∧ ∀ top rest, q' = top :: rest →
      ∀ e, e ∈ q → ¬ stale b e → key_le top e.
Proof.
  revert q. induction fuel as [|fuel IH]; intros q Hq; cbn [clean_top];
    destruct q as [|top q0] eqn:E.
  - intros [= <-]. by split.
  - case_bool_decide as Hstale; [done|]. intros [= <-]. split; [done|].
    intros top' rest' [= <- <-] e [i He]%list_elem_of_lookup _.
    pose proof (heap_root_least (top :: q0) i Hq
                  (lookup_lt_Some _ _ _ He)) as Hle.
    by rewrite (list_lookup_total_correct _ _ _ He) in Hle.
  - intros [= <-]. by split.
  - case_bool_decide as Hstale.
    + destruct (heappop (top :: q0)) as [[item rest]|] eqn:Hpop; [|done].
      destruct (heappop_ordered _ _ _ Hq Hpop) as [Hrest _].
      pose proof (heappop_Permutation _ _ _ Hpop) as Hperm.
      pose proof (heappop_head _ _ _ _ Hpop) as ->.
      intros Hrun. destruct (IH _ Hrest Hrun) as [Ho Hmin]. split; [done|].
      intros top' rest' Hq' e He Hlive. rewrite Hperm in He.
      apply elem_of_cons in He as [->|He]; [by destruct Hlive|].
      by eapply Hmin.
    + intros [= <-]. split; [done|].
      intros top' rest' [= <- <-] e [i He]%list_elem_of_lookup _.
      pose proof (heap_root_least (top :: q0) i Hq
                    (lookup_lt_Some _ _ _ He)) as Hle.
      by rewrite (list_lookup_total_correct _ _ _ He) in Hle.
Qed.

(** ** Clues and digits *)

Lemma cell_set_cell_cases b r c v r' c' :
  cell (set_cell b r c v) r' c' = v
  ∨ cell (set_cell b r c v) r' c' = cell b r' c'.
Proof.
  destruct (decide ((r', c') = (r, c))) as [[= -> ->]|Hne];
    [|right; by apply cell_set_cell_ne].
  unfold cell, set_cell. rewrite list_lookup_alter, decide_True by done.
  destruct (b !! r) as [l|]; simpl; [|by right].
  destruct (decide (c < length l)) as [Hc|Hc].
  - left. by rewrite list_lookup_insert_eq.
  - right. rewrite !lookup_ge_None_2; [done|lia|rewrite length_insert; lia].
Qed.

Lemma cell_out_of_range b r c :
  wf_board b → ¬ (r < 9 ∧ c < 9) → cell b r c = 0%Z.
Proof.
  intros [Hlen Hrows] Hout. unfold cell.
  destruct (b !! r) as [l|] eqn:Hr; [|done].
  destruct (l !! c) as [v|] eqn:Hc; [|done].
  exfalso. apply Hout. split.
  - rewrite <- Hlen. by eapply lookup_lt_Some.
  - rewrite Forall_lookup in Hrows. rewrite <- (Hrows _ _ Hr).
    by eapply lookup_lt_Some.
Qed.

Lemma digits_only_set_cell b r c v :
  digits_only b → (0 ≤ v ≤ 9)%Z → digits_only (set_cell b r c v).
Proof.
  intros Hb Hv r' c'.
  destruct (cell_set_cell_cases b r c v r' c') as [-> | ->]; [done|apply Hb].
Qed.

Lemma generate_puzzle_digits d : draws_ok d → digits_only (generate_puzzle d).
Proof.
  intros Hd r c.
  destruct (decide (r < 9 ∧ c < 9)) as [[Hr Hc]|Hout].
  - destruct (generate_puzzle_erased d r c) as [-> | ->]; [lia|].
    destruct (full_board_solved d Hd) as (_ & Hfull & _).
    specialize (Hfull r c Hr Hc). lia.
  - rewrite cell_out_of_range; [lia| |done]. by apply generate_puzzle_wf.
Qed.

(** ** [session_order] along the operations *)

Lemma order_with_pq st q :
  session_order st → heap_ordered q → Forall sized q →
  session_order (with_pq st q).
Proof. intros [] ??. by split. Qed.

Lemma order_with_turn st t : session_order st → session_order (with_turn st t).
Proof. intros []. by split. Qed.

Lemma order_paint st row col who :
  session_order st → session_order (paint st row col who).
Proof. intros []. by split. Qed.

Lemma order_write st row col v :
  session_order st → cell (initial_board st) row col = 0%Z →
  (0 ≤ v ≤ 9)%Z → session_order (write_cell st row col v).
Proof.
  intros [Hh Hs Hc Hd] Hfree Hv. split; sess_simpl; try done.
  - intros r c Hclue. sess_simpl. rewrite cell_set_cell_ne; [by apply Hc|].
    intros [= -> ->]. done.
  - by apply digits_only_set_cell.
Qed.

Lemma order_update_neighbors st row col :
  session_order st → session_order (update_neighbors st row col).
Proof.
  intros [Hh Hs Hc Hd]. split.
  - by apply update_neighbors_ordered.
  - by apply update_neighbors_sized.
  - unfold clues_kept.
    by rewrite update_neighbors_board, update_neighbors_initial.
  - by rewrite update_neighbors_board.
Qed.

Lemma order_new_game d st : draws_ok d → session_order (new_game d st).
Proof.
  intros Hd. split.
  - unfold new_game. apply initialize_priority_queue_ordered.
  - unfold new_game. apply initialize_priority_queue_sized.
  - unfold clues_kept. by rewrite new_game_board, new_game_initial.
  - rewrite new_game_board. by apply generate_puzzle_digits.
Qed.

Lemma order_init d : draws_ok d → session_order (init d).
Proof.
  intros Hd. split.
  - rewrite init_pq. apply heap_ordered_nil.
  - rewrite init_pq. constructor.
  - unfold clues_kept. by rewrite init_board, init_initial.
  - rewrite init_board. by apply generate_puzzle_digits.
Qed.

Lemma order_reset st : session_order st → session_order (reset_board st).
Proof.
  intros [Hh Hs Hc Hd]. split; cbn [reset_board pq board initial_board];
    try done.
  intros r c. destruct (decide (cell (initial_board st) r c = 0%Z)) as [->|Hne];
    [lia|]. rewrite <- (Hc r c Hne). apply Hd.
Qed.

Lemma with_board_same st : with_board st (board st) = st.
Proof. by destruct st. Qed.

Lemma order_edit st row col value res st' :
  session_order st → edit_outcome st row col value res st' →
  session_order st'.
Proof.
  intros Ho. inversion 1 as [| | | | | |num st1 Ht Hl Hn Hv Hst1]; subst;
    try done.
  - apply order_paint, order_write; [done..|lia].
  - apply order_write; [done..|lia].
  - apply order_write; [done..|lia].
  - apply order_write.
    + apply order_write; [done..|lia].
    + done.
    + apply Ho.
  - assert (session_order
              (paint (update_neighbors
                        (write_cell (write_cell st row col 0%Z) row col num)
                        row col) row col (Some user))) as Ho1.
    { apply order_paint, order_update_neighbors, order_write.
      - apply order_write; [done..|lia].
      - done.
      - lia. }
    destruct (is_complete _); [done|by apply order_with_turn].
Qed.

Lemma order_ai_make_move k st res st' :
  session_order st → ai_make_move k st = Some (res, st') →
  session_order st'.
Proof.
  intros [Hh Hs Hc Hd] Hrun.
  pose proof (ai_loop_ordered _ _ _ _ _ Hh Hrun) as Hh'.
  apply ai_make_move_outcome in Hrun. destruct res as [row col value|].
  - apply ai_placed_inv in Hrun
      as (Hz & Hv & Hb & Hi & _ & dropped & count & cands & rest & Hq & _ & Hq').
    split; [done| | |].
    + rewrite Hq'. apply Forall_app. split.
      * apply Forall_fmap, Forall_true. intros rc. apply fresh_entry_sized.
      * rewrite Hq in Hs. apply Forall_app in Hs as [_ Hs].
        by apply Forall_cons in Hs as [_ Hs].
    + intros r c. rewrite Hb, Hi. intros Hclue.
      rewrite cell_set_cell_ne; [by apply Hc|].
      intros [= -> ->]. rewrite (Hc _ _ Hclue) in Hz. done.
    + rewrite Hb. apply digits_only_set_cell; [done|].
      apply get_candidates_range in Hv. lia.
  - apply ai_nomove_inv in Hrun as (Hb & Hi & _ & _ & dropped & Hq).
    split; [done| | |].
    + rewrite Hq in Hs. by apply Forall_app in Hs as [_ Hs].
    + unfold clues_kept. by rewrite Hb, Hi.
    + by rewrite Hb.
Qed.

Lemma order_ai_turn k st res st' :
  session_order st → ai_turn k st = Some (res, st') → session_order st'.
Proof.
  intros Ho. unfold ai_turn.
  destruct (ai_make_move k st) as [[[r c v|] st1]|] eqn:Hrun; [| |done].
  - pose proof (order_ai_make_move _ _ _ _ Ho Hrun) as Ho1.
    destruct (is_complete st1); intros [= <- <-]; [done|].
    by apply order_with_turn.
  - intros [= <- <-]. by eapply order_ai_make_move.
Qed.

Lemma order_hint st res st' :
  session_order st → show_hint st = Some (res, st') → session_order st'.
Proof.
  intros Ho Hrun. pose proof (show_hint_spec _ _ _ Hrun)
    as (Hb & Hi & _ & _ & (dropped & Hq & _) & _).
  destruct Ho as [Hh Hs Hc Hd]. split.
  - revert Hrun. unfold show_hint. destruct (pq st) as [|e0 q0] eqn:E.
    { intros [= <- <-]. by rewrite E. }
    rewrite <- E in *.
    destruct (clean_top _ _ _) as [q'|] eqn:Hclean; [|done].
    apply clean_top_ordered in Hclean as [Hq' _]; [|done].
    destruct q' as [|[[[count row] col] cands] rest]; intros [= <- <-];
      by sess_simpl.
  - rewrite Hq in Hs. by apply Forall_app in Hs as [_ Hs].
  - unfold clues_kept. by rewrite Hb, Hi.
  - by rewrite Hb.
Qed.

Lemma reachable_order st : reachable st → session_order st.
Proof.
  induction 1 as [d Hd|d st Hd _ _|st row col value _ IH Hr Hc
                 |st k r st' _ IH Hrun|st k r st' _ IH Hrun
                 |st r st' _ IH Hrun|st _ IH].
  - by apply order_init.
  - by apply order_new_game.
  - eapply order_edit; [exact IH|apply on_cell_edit_outcome].
  - by eapply order_ai_turn.
  - by eapply order_ai_make_move.
  - by eapply order_hint.
  - by apply order_reset.
Qed.

(** ** Cells in row-major order *)

Lemma all_cells_index : all_cells = (λ j, (j / 9, j mod 9)) <$> seq 0 81.
Proof. vm_compute. reflexivity. Qed.

Lemma all_cells_lookup j r c :
  all_cells !! j = Some (r, c) ↔ r < 9 ∧ c < 9 ∧ j = 9 * r + c.
Proof.
  rewrite all_cells_index, list_lookup_fmap. split.
  - destruct (seq 0 81 !! j) as [i|] eqn:E; [|done].
    intros Heq. apply lookup_seq in E as [Hi Hj].
    assert (i = j) as -> by lia.
    assert (r = j / 9 ∧ c = j mod 9) as [-> ->]
      by (by injection Heq as <- <-).
    pose proof (Nat.div_mod_eq j 9).
    pose proof (Nat.mod_upper_bound j 9 ltac:(lia)).
    split; [|lia]. apply Nat.Div0.div_lt_upper_bound. lia.
  - intros (Hr & Hc & ->). rewrite lookup_seq_lt by lia.
    assert ((0 + (9 * r + c)) / 9 = r) as Hdiv
      by (symmetry; apply (Nat.div_unique _ 9 r c); lia).
    assert ((0 + (9 * r + c)) mod 9 = c) as Hmod
      by (symmetry; apply (Nat.mod_unique _ 9 r c); lia).
    cbv [fmap option_fmap option_map]. by rewrite Hdiv, Hmod.
Qed.

Lemma NoDup_all_cells : NoDup all_cells.
Proof. apply (bool_decide_unpack _). vm_compute. exact I. Qed.

Lemma find_empty_Some b r c :
  find_empty b = Some (r, c) ↔
  r < 9 ∧ c < 9 ∧ cell b r c = 0%Z
  ∧ ∀ r' c', r' < 9 → c' < 9 → r' < r ∨ (r' = r ∧ c' < c) →
      cell b r' c' ≠ 0%Z.
Proof.
  unfold find_empty. split.
  - destruct (list_find _ _) as [[i x]|] eqn:E; [|done]. simpl.
    intros [= ->]. apply list_find_Some in E as (Hi & Hz & Hbefore).
    apply all_cells_lookup in Hi as (Hr & Hc & ->). simpl in Hz.
    split; [done|]. split; [done|]. split; [done|].
    intros r' c' Hr' Hc' Hlt.
    apply (Hbefore (9 * r' + c') (r', c')); [by apply all_cells_lookup|lia].
  - intros (Hr & Hc & Hz & Hbefore).
    assert (list_find (λ rc, cell b rc.1 rc.2 = 0%Z) all_cells
            = Some (9 * r + c, (r, c))) as ->; [|done].
    apply list_find_Some. split; [by apply all_cells_lookup|].
    split; [done|]. intros j [r' c'] Hj Hlt.
    apply all_cells_lookup in Hj as (Hr' & Hc' & ->). simpl.
    apply Hbefore; [done..|lia].
Qed.

Lemma find_empty_None b :
  find_empty b = None ↔ ∀ r c, r < 9 → c < 9 → cell b r c ≠ 0%Z.
Proof.
  unfold find_empty. rewrite fmap_None, list_find_None, Forall_forall. split.
  - intros H r c Hr Hc. apply (H (r, c)). by apply all_cells_spec.
  - intros H [r c] [Hr Hc]%all_cells_spec. by apply H.
Qed.

Lemma is_complete_spec st :
  is_complete st = true ↔ ∀ r c, r < 9 → c < 9 → cell (board st) r c ≠ 0%Z.
Proof.
  unfold is_complete. rewrite forallb_seq_true. split.
  - intros H r c Hr Hc. specialize (H r Hr).
    rewrite forallb_seq_true in H. specialize (H c Hc).
    apply negb_true_iff, bool_decide_eq_false in H. done.
  - intros H r Hr. apply forallb_seq_true. intros c Hc.
    apply negb_true_iff, bool_decide_eq_false. by apply H.
Qed.

(** ** The cells [generate_puzzle] empties *)

Lemma remove_cells_other cs b r c :
  (r, c) ∉ cs → cell (remove_cells cs b) r c = cell b r c.
Proof.
  unfold remove_cells. revert b.
  induction cs as [|[r0 c0] cs IH]; intros b Hnot; [done|].
  cbn [foldl]. apply not_elem_of_cons in Hnot as [Hne Hnot].
  rewrite IH by done. by apply cell_set_cell_ne.
Qed.

Lemma generate_puzzle_removed d :
  draws_ok d →
  shuffle (g_cells d) all_cells ≡ₚ all_cells
  ∧ length (take (g_count d) (shuffle (g_cells d) all_cells)) = g_count d.
Proof.
  intros Hd.
  assert (draw_ok (length all_cells) (g_cells d)) as Hcells
    by exact (ok_cells d Hd).
  split; [by apply shuffle_Permutation|].
  rewrite length_take, shuffle_length by done.
  pose proof (ok_count d Hd). change (length all_cells) with 81. lia.
Qed.

Lemma generate_puzzle_empty_iff d r c :
  draws_ok d → r < 9 → c < 9 →
  cell (generate_puzzle d) r c = 0%Z
  ↔ (r, c) ∈ take (g_count d) (shuffle (g_cells d) all_cells).
Proof.
  intros Hd Hr Hc. unfold generate_puzzle. cbn zeta. split.
  - intros Hz.
    destruct (decide ((r, c) ∈ take (g_count d) (shuffle (g_cells d) all_cells)))
      as [|Hnot]; [done|].
    rewrite remove_cells_other in Hz by done.
    destruct (full_board_solved d Hd) as (_ & Hfull & _).
    specialize (Hfull r c Hr Hc). lia.
  - apply remove_cells_zero.
Qed.

Lemma generate_puzzle_empty_cells d :
  draws_ok d →
  empty_cells (generate_puzzle d)
  ≡ₚ take (g_count d) (shuffle (g_cells d) all_cells).
Proof.
  intros Hd. destruct (generate_puzzle_removed d Hd) as [Hperm _].
  apply NoDup_Permutation.
  - apply NoDup_filter, NoDup_all_cells.
  - eapply sublist_NoDup; [|apply sublist_take].
    rewrite Hperm. apply NoDup_all_cells.
  - intros [r c]. unfold empty_cells.
    rewrite list_elem_of_filter, all_cells_spec. simpl. split.
    + intros [Hz [Hr Hc]]. by apply generate_puzzle_empty_iff.
    + intros Hin.
      assert (r < 9 ∧ c < 9) as [Hr Hc].
      { apply all_cells_spec. rewrite <- Hperm.
        eapply elem_of_sublist; [exact Hin|apply sublist_take]. }
      split; [|done]. by apply generate_puzzle_empty_iff.
Qed.

Lemma elem_of_empty_cells b r c :
  (r, c) ∈ empty_cells b ↔ r < 9 ∧ c < 9 ∧ cell b r c = 0%Z.
Proof.
  unfold empty_cells. rewrite list_elem_of_filter, all_cells_spec. simpl.
  tauto.
Qed.

(** ** Candidates when a cell is written *)

Lemma neighbours_sym r c r' c' :
  r < 9 → c < 9 → r' < 9 → c' < 9 →
  (r', c') ∈ neighbours r c → (r, c) ∈ neighbours r' c'.
Proof.
  intros Hr Hc Hr' Hc'. rewrite !elem_of_neighbours by done.
  unfold same_box. intros (_ & _ & H). repeat split; try done.
  destruct H as [->| [->|[-> ->]]]; auto.
Qed.

Lemma get_candidates_shrink b r c v r' c' :
  wf_board b → r' < 9 → c' < 9 → cell b r c = 0%Z →
  get_candidates (set_cell b r c v) r' c' ⊆ get_candidates b r' c'.
Proof.
  intros Hwf Hr' Hc' Hz d.
  rewrite !candidate_no_conflict by (try apply wf_set_cell; done).
  intros (Hz' & Hd & Hnc). split; [|split; [done|]].
  - destruct (decide ((r', c') = (r, c))) as [[= -> ->]|Hne]; [done|].
    by rewrite cell_set_cell_ne in Hz'.
  - intros r2 c2 Hr2 Hc2 Hrel.
    destruct (decide ((r2, c2) = (r, c))) as [[= -> ->]|Hne].
    + rewrite Hz. lia.
    + rewrite <- (cell_set_cell_ne b r c v) by done. by apply Hnc.
Qed.

Lemma get_candidates_far b r c v r' c' :
  wf_board b → r < 9 → c < 9 → r' < 9 → c' < 9 →
  (r', c') ∉ neighbours r c →
  get_candidates (set_cell b r c v) r' c' = get_candidates b r' c'.
Proof.
  intros Hwf Hr Hc Hr' Hc' Hfar.
  rewrite elem_of_neighbours in Hfar by done.
  assert ((r', c') ≠ (r, c)) as Hne.
  { intros [= -> ->]. apply Hfar. auto. }
  apply set_eq. intros d.
  rewrite !candidate_no_conflict by (try apply wf_set_cell; done).
  rewrite cell_set_cell_ne by done.
  assert (no_conflict (set_cell b r c v) r' c' d ↔ no_conflict b r' c' d)
    as ->; [|done].
  unfold no_conflict.
  assert (∀ r2 c2, r2 = r' ∨ c2 = c' ∨ same_box r' c' r2 c2 →
            (r2, c2) ≠ (r, c)) as Hoff.
  { intros r2 c2 Hrel [= -> ->]. apply Hfar. split; [done|]. split; [done|].
    unfold same_box in *. destruct Hrel as [->| [->|[-> ->]]]; auto. }
  split; intros H r2 c2 Hr2 Hc2 Hrel; specialize (H r2 c2 Hr2 Hc2 Hrel).
  - by rewrite cell_set_cell_ne in H by (by apply Hoff).
  - by rewrite cell_set_cell_ne by (by apply Hoff).
Qed.

(** ** What [on_cell_edit] accepts *)

Lemma no_conflict_erased_peers b row col num :
  wf_board b → row < 9 → col < 9 → (1 ≤ num ≤ 9)%Z →
  no_conflict (set_cell b row col 0%Z) row col num
  ↔ ∀ r c, r < 9 → c < 9 → peers row col r c → cell b r c ≠ num.
Proof.
  intros Hwf Hrow Hcol Hnum. unfold no_conflict, peers. split.
  - intros H r c Hr Hc [Hne Hrel].
    rewrite <- (cell_set_cell_ne b row col 0%Z) by done.
    apply H; try done. destruct Hrel as [->| [->|?]]; auto.
  - intros H r c Hr Hc Hrel.
    destruct (decide ((r, c) = (row, col))) as [[= -> ->]|Hne].
    + rewrite cell_set_cell_zero. lia.
    + rewrite cell_set_cell_ne by done. apply H; try done.
      split; [done|]. destruct Hrel as [->| [->|?]]; auto.
Qed.

Lemma write_back st row col :
  write_cell (write_cell st row col 0%Z) row col (cell (board st) row col)
  = st.
Proof.
  unfold write_cell. sess_simpl.
  rewrite set_cell_set_cell, set_cell_same. by destruct st.
Qed.

Lemma edit_invalid_unchanged st row col value :
  (on_cell_edit st row col value).1 = InvalidMove →
  (on_cell_edit st row col value).2 = st.
Proof.
  unfold on_cell_edit.
  destruct (negb _); [done|]. case_bool_decide; [done|].
  destruct value as [| |num]; try done.
  destruct (_ || _); [done|]. cbn zeta.
  destruct (is_valid _ _ _ _).
  - by destruct (is_complete _).
  - intros _. apply write_back.
Qed.

Lemma edit_digit st row col num :
  wf_board (board st) → row < 9 → col < 9 →
  current_turn st = user → cell (initial_board st) row col = 0%Z →
  (1 ≤ num ≤ 9)%Z →
  if is_valid (set_cell (board st) row col 0%Z) row col num
  then ∃ complete,
         (on_cell_edit st row col (IntText num)).1 = Accepted complete
         ∧ board (on_cell_edit st row col (IntText num)).2
           = set_cell (board st) row col num
  else on_cell_edit st row col (IntText num) = (InvalidMove, st).
Proof.
  intros Hwf Hrow Hcol Ht Hl Hn. unfold on_cell_edit.
  rewrite Ht. cbn [turn_eqb negb].
  rewrite (bool_decide_false (cell (initial_board st) row col ≠ 0%Z))
    by (rewrite Hl; intros H; by apply H).
  rewrite (bool_decide_false (num < 1)%Z), (bool_decide_false (9 < num)%Z)
    by lia.
  cbn [orb]. cbn zeta.
  change (board (write_cell st row col 0%Z))
    with (set_cell (board st) row col 0%Z).
  destruct (is_valid _ _ _ _).
  - destruct (is_complete _); eexists; (split; [reflexivity|]); cbn [snd];
      sess_simpl; rewrite update_neighbors_board; sess_simpl;
      apply set_cell_set_cell.
  - by rewrite write_back.
Qed.

(** ** The frontier of a new game *)

Lemma generate_puzzle_live d r c :
  draws_ok d → r < 9 → c < 9 → cell (generate_puzzle d) r c = 0%Z →
  get_candidates (generate_puzzle d) r c ≠ ∅.
Proof.
  intros Hd Hr Hc Hz Hnone.
  pose proof (erased_cell_candidate (generate_puzzle d) (full_board d) r c
                (generate_puzzle_wf d Hd) (generate_puzzle_erased d)
                (full_board_solved d Hd) Hr Hc Hz) as Hin.
  rewrite Hnone in Hin. by apply elem_of_empty in Hin.
Qed.

Lemma generate_puzzle_live_cells d :
  draws_ok d →
  filter (live_cell (generate_puzzle d)) all_cells
  ≡ₚ empty_cells (generate_puzzle d).
Proof.
  intros Hd. apply NoDup_Permutation.
  - apply NoDup_filter, NoDup_all_cells.
  - apply NoDup_filter, NoDup_all_cells.
  - intros [r c]. unfold empty_cells.
    rewrite !list_elem_of_filter, all_cells_spec. unfold live_cell. simpl.
    rewrite andb_True, !bool_decide_spec. split; [tauto|].
    intros [Hz [Hr Hc]]. split; [|done]. split; [done|].
    by apply generate_puzzle_live.
Qed.

Lemma new_game_pq_empty_cells d st :
  draws_ok d →
  pq (new_game d st)
  ≡ₚ fresh_entry (generate_puzzle d) <$> empty_cells (generate_puzzle d).
Proof.
  intros Hd. rewrite new_game_pq. apply fmap_Permutation.
  by apply generate_puzzle_live_cells.
Qed.

Lemma new_game_entries d st e :
  draws_ok d →
  e ∈ pq (new_game d st)
  ↔ ∃ r c, r < 9 ∧ c < 9 ∧ cell (generate_puzzle d) r c = 0%Z
           ∧ e = fresh_entry (generate_puzzle d) (r, c).
Proof.
  intros Hd. rewrite new_game_pq_empty_cells by done.
  rewrite list_elem_of_fmap. split.
  - intros ([r c] & -> & Hin). apply elem_of_empty_cells in Hin.
    exists r, c. tauto.
  - intros (r & c & Hr & Hc & Hz & ->). exists (r, c). split; [done|].
    by apply elem_of_empty_cells.
Qed.

(** ** [ai_make_move] on a heap without stale or dead entries *)

Lemma ai_loop_live fuel k st res st' :
  Forall (λ e, cell (board st) (entry_row e) (entry_col e) = 0%Z
               ∧ get_candidates (board st) (entry_row e) (entry_col e) ≠ ∅)
    (pq st) →
  pq st ≠ [] →
  ai_loop fuel k st = Some (res, st') → res ≠ NoMove.
Proof.
  intros Hlive Hne. destruct fuel as [|fuel]; cbn [ai_loop];
    destruct (pq st) as [|e0 q0] eqn:E; try done.
  rewrite <- E in *.
  destruct (heappop (pq st)) as [[[[[count row] col] cands] rest]|] eqn:Hpop;
    [|done].
  pose proof (heappop_Permutation _ _ _ Hpop) as Hperm.
  rewrite Hperm in Hlive. apply Forall_cons in Hlive as [[Hz Hc] _].
  sess_simpl. unfold entry_row, entry_col in Hz, Hc. simpl in Hz, Hc.
  rewrite bool_decide_false by (by intros ?).
  rewrite bool_decide_false by done.
  by intros [= <- <-].
Qed.

(** On such a heap the move succeeds, on the entry at the top. *)
Lemma ai_make_move_live k st :
  Forall (λ e, cell (board st) (entry_row e) (entry_col e) = 0%Z
               ∧ get_candidates (board st) (entry_row e) (entry_col e) ≠ ∅)
    (pq st) →
  pq st ≠ [] →
  ∃ row col value st',
    ai_make_move k st = Some (Placed row col value, st')
    ∧ cell (board st) row col = 0%Z
    ∧ value ∈ get_candidates (board st) row col
    ∧ (heap_ordered (pq st) →
       ∃ count cands,
         (count, row, col, cands) ∈ pq st
         ∧ ∀ e, e ∈ pq st → ¬ stale (board st) e →
                key_le (count, row, col, cands) e).
Proof.
  intros Hlive Hne.
  destruct (ai_make_move_total k st) as [[res st'] Hrun].
  pose proof (ai_loop_live _ _ _ _ _ Hlive Hne Hrun) as Hres.
  destruct res as [row col value|]; [|done].
  exists row, col, value, st'. split; [done|].
  pose proof (ai_make_move_outcome _ _ _ _ Hrun) as Hout.
  apply ai_placed_inv in Hout as (Hz & Hv & _).
  split; [done|]. split; [done|]. intros Hh. by eapply ai_loop_least.
Qed.

(** ** The hint and the move *)

Lemma ai_loop_fuel fuel fuel' k st :
  length (pq st) ≤ fuel → length (pq st) ≤ fuel' →
  ai_loop fuel k st = ai_loop fuel' k st.
Proof.
  revert fuel' st. induction fuel as [|fuel IH]; intros fuel' st H1 H2;
    destruct fuel' as [|fuel']; cbn [ai_loop];
    destruct (pq st) as [|e0 q0] eqn:E; try done;
    try (simpl in *; lia).
  rewrite <- E in *.
  destruct (heappop (pq st)) as [[[[[count row] col] cands] rest]|] eqn:Hpop;
    [|done].
  pose proof (heappop_length _ _ _ Hpop) as Hlen. sess_simpl.
  case_bool_decide; [|done]. apply IH; sess_simpl; lia.
Qed.

Lemma with_pq_same st : with_pq st (pq st) = st.
Proof. by destruct st. Qed.

(** The pops of [show_hint] are the first pops of [ai_make_move]. *)
Lemma clean_top_then_ai fuel fuel' k st q' :
  clean_top fuel (board st) (pq st) = Some q' →
  length (pq st) ≤ fuel' →
  ai_loop fuel' k st = ai_loop fuel' k (with_pq st q').
Proof.
  revert fuel' st. induction fuel as [|fuel IH]; intros fuel' st;
    cbn [clean_top]; destruct (pq st) as [|top q0] eqn:E.
  - intros [= <-] _. by rewrite <- E, with_pq_same.
  - case_bool_decide as Hstale; [done|]. intros [= <-] _.
    by rewrite <- E, with_pq_same.
  - intros [= <-] _. by rewrite <- E, with_pq_same.
  - case_bool_decide as Hstale;
      [|intros [= <-] _; by rewrite <- E, with_pq_same].
    destruct (heappop (top :: q0)) as [[item rest]|] eqn:Hpop; [|done].
    pose proof (heappop_head _ _ _ _ Hpop) as ->.
    pose proof (heappop_length _ _ _ Hpop) as Hlen.
    intros Hclean Hfuel. simpl in Hlen, Hfuel.
    destruct fuel' as [|fuel']; [lia|].
    pose proof (clean_top_spec _ _ _ _ Hclean) as [(dropped & Hperm & _) _].
    assert (length q' ≤ length rest) as Hq'.
    { rewrite Hperm, length_app. lia. }
    rewrite (ai_loop_fuel (S fuel') fuel' k (with_pq st q'))
      by (sess_simpl; lia).
    cbn [ai_loop]. rewrite E, Hpop.
    destruct top as [[[count row] col] cands].
    unfold entry_row, entry_col in Hstale. simpl in Hstale. sess_simpl.
    rewrite bool_decide_true by done.
    rewrite (IH fuel' (with_pq st rest)); [done|by sess_simpl|sess_simpl; lia].
Qed.

Lemma hint_then_ai st k row col cands st' :
  show_hint st = Some (Hint row col cands, st') →
  ∃ st'',
    ai_make_move k st
    = Some (if bool_decide (cands = ∅) then NoMove
            else Placed row col (choice k (elements cands)), st'').
Proof.
  unfold show_hint, ai_make_move. destruct (pq st) as [|e0 q0] eqn:E; [done|].
  rewrite <- E in *.
  destruct (clean_top _ _ _) as [q'|] eqn:Hclean; [|done].
  pose proof (clean_top_spec _ _ _ _ Hclean) as [_ Htop].
  rewrite (clean_top_then_ai _ _ k _ _ Hclean) by done.
  destruct q' as [|[[[count r] c] snap] rest]; [done|].
  intros [= <- <- <- <-].
  specialize (Htop _ _ eq_refl). unfold stale, entry_row, entry_col in Htop.
  simpl in Htop. apply dec_stable in Htop.
  destruct (length (pq st)) as [|fuel] eqn:Hlen.
  { rewrite E in Hlen. done. }
  cbn [ai_loop]. sess_simpl.
  destruct (heappop_is_Some ((count, r, c, snap) :: rest))
    as [[item rest'] Hpop]; [done|].
  pose proof (heappop_head _ _ _ _ Hpop) as ->. rewrite Hpop. sess_simpl.
  rewrite bool_decide_false by (by intros ?).
  case_bool_decide; eexists; reflexivity.
Qed.

Lemma no_hint_then_ai st k st' :
  show_hint st = Some (NoHint, st') → ai_make_move k st = Some (NoMove, st').
Proof.
  unfold show_hint. destruct (pq st) as [|e0 q0] eqn:E.
  { intros [= <-]. by apply ai_make_move_empty. }
  rewrite <- E in *.
  destruct (clean_top _ _ _) as [q'|] eqn:Hclean; [|done].
  unfold ai_make_move. rewrite (clean_top_then_ai _ _ k _ _ Hclean) by done.
  destruct q' as [|[[[count r] c] snap] rest]; [|done].
  intros [= <-]. by destruct (length (pq st)).
Qed.

(** On a heap without stale entries the hint is the entry at the top,
    and nothing is popped. *)
Lemma show_hint_live st :
  pq st ≠ [] →
  Forall (λ e, cell (board st) (entry_row e) (entry_col e) = 0%Z) (pq st) →
  heap_ordered (pq st) →
  ∃ row col,
    show_hint st = Some (Hint row col (get_candidates (board st) row col), st)
    ∧ cell (board st) row col = 0%Z
    ∧ ∃ count snap,
        (count, row, col, snap) ∈ pq st
        ∧ ∀ e, e ∈ pq st → key_le (count, row, col, snap) e.
Proof.
  intros Hne Hlive Hh. unfold show_hint.
  destruct (pq st) as [|[[[count row] col] snap] q0] eqn:E; [done|].
  apply Forall_cons in Hlive as [Hz _].
  unfold entry_row, entry_col in Hz. simpl in Hz.
  exists row, col. cbn [length clean_top].
  rewrite bool_decide_false
    by (unfold entry_row, entry_col; simpl; by intros ?).
  rewrite <- E, with_pq_same. split; [done|]. split; [done|].
  exists count, snap. rewrite E. split; [by left|].
  intros e [i Hi]%list_elem_of_lookup.
  pose proof (heap_root_least _ i Hh (lookup_lt_Some _ _ _ Hi)) as Hle.
  by rewrite (list_lookup_total_correct _ _ _ Hi) in Hle.
Qed.

(** The hint does not change what the AI does next. *)
Lemma hint_keeps_ai_move st k res st' :
  show_hint st = Some (res, st') → ai_make_move k st' = ai_make_move k st.
Proof.
  unfold show_hint. destruct (pq st) as [|e0 q0] eqn:E.
  { by intros [= <- <-]. }
  rewrite <- E in *.
  destruct (clean_top _ _ _) as [q'|] eqn:Hclean; [|done].
  pose proof (clean_top_spec _ _ _ _ Hclean) as [(dropped & Hperm & _) _].
  assert (length q' ≤ length (pq st)) as Hlen.
  { rewrite Hperm, length_app. lia. }
  assert (ai_make_move k (with_pq st q') = ai_make_move k st) as Heq.
  { unfold ai_make_move.
    rewrite (clean_top_then_ai _ (length (pq st)) k _ _ Hclean) by done.
    apply ai_loop_fuel; by sess_simpl. }
  destruct q' as [|[[[count r] c] snap] rest]; by intros [= <- <-].
Qed.

(** ** Runs of the sample *)

Lemma ai_plays_reachable ks st : reachable st → reachable (ai_plays ks st).
Proof.
  unfold ai_plays. revert st. induction ks as [|k ks IH]; intros st Hst;
    [done|].
  cbn [foldl]. apply IH.
  destruct (ai_play k st) as [[res st']|] eqn:Hrun; [|done].
  by eapply reach_ai_play.
Qed.

Lemma sample_finished_reachable : reachable sample_finished.
Proof. apply ai_plays_reachable, sample_game_reachable. Qed.

Lemma init_sample_reachable : reachable (init sample_draws).
Proof. apply reach_init, sample_draws_ok. Qed.

Lemma sample_stuck_reachable : reachable sample_stuck.
Proof. apply reach_edit; [apply init_sample_reachable|lia|lia]. Qed.

(** ** Moves change one cell *)

Lemma edit_frame st row col value r c :
  (r, c) ≠ (row, col) →
  cell (board (on_cell_edit st row col value).2) r c = cell (board st) r c.
Proof.
  intros Hne. unfold on_cell_edit.
  destruct (negb _); [done|]. case_bool_decide; [done|].
  destruct value as [| |num]; cbn [snd]; sess_simpl;
    try by apply cell_set_cell_ne.
  destruct (_ || _); cbn [snd]; sess_simpl; [by apply cell_set_cell_ne|].
  destruct (is_valid _ _ _ _).
  - destruct (is_complete _); cbn [snd]; sess_simpl;
      rewrite update_neighbors_board; sess_simpl;
      rewrite set_cell_set_cell; by apply cell_set_cell_ne.
  - cbn [snd]. sess_simpl. rewrite set_cell_set_cell.
    by apply cell_set_cell_ne.
Qed.

Lemma edit_initial st row col value :
  initial_board (on_cell_edit st row col value).2 = initial_board st.
Proof.
  unfold on_cell_edit.
  destruct (negb _); [done|]. case_bool_decide; [done|].
  destruct value as [| |num]; cbn [snd]; sess_simpl; try done.
  destruct (_ || _); cbn [snd]; sess_simpl; [done|].
  destruct (is_valid _ _ _ _); [|done].
  destruct (is_complete _); cbn [snd]; sess_simpl;
    by rewrite update_neighbors_initial.
Qed.

(** ** [shuffle_board] as a renumbering of rows and columns *)

Lemma band_map_compose σ τ :
  band_map σ → band_map τ → band_map (λ r, σ (τ r)).
Proof.
  intros Hs Ht r1 r2 H1 H2.
  destruct (Ht r1 r2 H1 H2) as (Ht1 & Hti & Htb).
  destruct (Ht r2 r1 H2 H1) as (Ht2 & _ & _).
  destruct (Hs (τ r1) (τ r2) Ht1 Ht2) as (Hs1 & Hsi & Hsb).
  split; [done|]. split; auto.
Qed.

Lemma shuffle_within_grid p0 p3 p6 f :
  draw_ok 3 p0 → draw_ok 3 p3 → draw_ok 3 p6 →
  shuffle_within p0 p3 p6 (grid_of f)
  = grid_of (λ r c,
      f (block_src p0 0 (block_src p3 3 (block_src p6 6 r))) c).
Proof.
  intros H0 H3 H6. unfold shuffle_within.
  rewrite (shuffle_block_grid p0 0) by (done || set_solver).
  rewrite (shuffle_block_grid p3 3) by (done || set_solver).
  rewrite (shuffle_block_grid p6 6) by (done || set_solver).
  reflexivity.
Qed.

Lemma shuffle_within_band_map p0 p3 p6 :
  draw_ok 3 p0 → draw_ok 3 p3 → draw_ok 3 p6 →
  band_map (λ r, block_src p0 0 (block_src p3 3 (block_src p6 6 r))).
Proof.
  intros H0 H3 H6.
  apply (band_map_compose (block_src p0 0)
           (λ r, block_src p3 3 (block_src p6 6 r)));
    [apply block_src_band_map; [done|set_solver]|].
  apply (band_map_compose (block_src p3 3) (block_src p6 6));
    apply block_src_band_map; (done || set_solver).
Qed.

Lemma shuffle_board_grid d :
  draws_ok d →
  ∃ ρ γ, band_map ρ ∧ band_map γ
    ∧ ∀ f, shuffle_board d (grid_of f) = grid_of (λ r c, f (ρ r) (γ c)).
Proof.
  intros [].
  exists (λ r, block_src (g_rows0 d) 0 (block_src (g_rows3 d) 3
                 (block_src (g_rows6 d) 6 (band_src (g_bands d) r)))).
  exists (λ c, block_src (g_cols0 d) 0 (block_src (g_cols3 d) 3
                 (block_src (g_cols6 d) 6 (band_src (g_stacks d) c)))).
  split; [|split].
  - apply (band_map_compose
             (λ r, block_src (g_rows0 d) 0 (block_src (g_rows3 d) 3
                     (block_src (g_rows6 d) 6 r))) (band_src (g_bands d)));
      [by apply shuffle_within_band_map|by apply band_src_band_map].
  - apply (band_map_compose
             (λ r, block_src (g_cols0 d) 0 (block_src (g_cols3 d) 3
                     (block_src (g_cols6 d) 6 r))) (band_src (g_stacks d)));
      [by apply shuffle_within_band_map|by apply band_src_band_map].
  - intros f. unfold shuffle_board, shuffle_step4, shuffle_step3,
      shuffle_step2, shuffle_step1.
    rewrite shuffle_within_grid by done.
    rewrite transpose_grid, shuffle_within_grid, transpose_grid by done.
    rewrite shuffle_bands_grid by done.
    rewrite transpose_grid, shuffle_bands_grid, transpose_grid by done.
    reflexivity.
Qed.

(** * Further properties of the program *)

Ltac draws_check :=
  split; unfold draw_ok; apply (bool_decide_unpack _); vm_compute; exact I.

Ltac board_check := split; [vm_compute; reflexivity|vm_compute; repeat constructor].

(** ** Scanning the board *)

(** X1. On a 9x9 board [find_empty] returns the first empty cell in
    row-major order: the cell it returns is empty and every cell before it
    is filled; it returns [None] exactly when no cell is empty. *)
Theorem find_empty_returns_first_empty_cell b :
  wf_board b →
  (∀ r c, find_empty b = Some (r, c) ↔
     r < 9 ∧ c < 9 ∧ cell b r c = 0%Z
     ∧ ∀ r' c', r' < 9 → c' < 9 → r' < r ∨ (r' = r ∧ c' < c) →
         cell b r' c' ≠ 0%Z)
  ∧ (find_empty b = None ↔ ∀ r c, r < 9 → c < 9 → cell b r c ≠ 0%Z).
Proof.
  intros _. split.
  - intros r c. apply find_empty_Some.
  - apply find_empty_None.
Qed.

(** An instance: the first empty cell of the sample puzzle is (0, 1). *)
Lemma find_empty_returns_first_empty_cell_witness :
  cell (generate_puzzle sample_draws) 0 1 = 0%Z
  ∧ cell (generate_puzzle sample_draws) 0 0 ≠ 0%Z.
Proof.
  assert (wf_board (generate_puzzle sample_draws)) as Hwf by board_check.
  destruct (find_empty_returns_first_empty_cell _ Hwf) as [Hsome _].
  destruct (proj1 (Hsome 0 1)) as (_ & _ & Hz & Hbefore);
    [vm_compute; reflexivity|].
  split; [exact Hz|]. apply Hbefore; lia.
Defined.

(** X2. [find_empty] and [is_complete] agree: on a 9x9 board [find_empty]
    finds nothing exactly when [is_complete] returns [True]. *)
Theorem find_empty_none_iff_complete st :
  wf_board (board st) →
  find_empty (board st) = None ↔ is_complete st = true.
Proof. intros _. by rewrite find_empty_None, is_complete_spec. Qed.

(** An instance: the finished sample game. *)
Lemma find_empty_none_iff_complete_witness :
  find_empty (board sample_finished) = None.
Proof.
  assert (wf_board (board sample_finished)) as Hwf by board_check.
  apply (find_empty_none_iff_complete _ Hwf). vm_compute. reflexivity.
Defined.

(** ** The generator *)

(** X3. [generate_puzzle] empties exactly [remove_count] cells, so the
    puzzle has between 40 and 45 empty cells; every other cell keeps the
    digit of the full board built before the removal. *)
Theorem generate_puzzle_removes_count_cells d :
  draws_ok d →
  length (empty_cells (generate_puzzle d)) = g_count d
  ∧ 40 ≤ length (empty_cells (generate_puzzle d)) ≤ 45
  ∧ ∀ r c, cell (generate_puzzle d) r c ≠ 0%Z →
      cell (generate_puzzle d) r c = cell (full_board d) r c.
Proof.
  intros Hd.
  assert (length (empty_cells (generate_puzzle d)) = g_count d) as Hlen.
  { rewrite (generate_puzzle_empty_cells d Hd).
    apply (generate_puzzle_removed d Hd). }
  split; [done|]. split; [rewrite Hlen; apply (ok_count d Hd)|].
  intros r c Hne. by destruct (generate_puzzle_erased d r c).
Qed.

(** An instance: the sample puzzle has 42 empty cells. *)
Lemma generate_puzzle_removes_count_cells_witness :
  length (empty_cells (generate_puzzle sample_draws)) = 42.
Proof.
  assert (draws_ok sample_draws) as Hd by draws_check.
  exact (proj1 (generate_puzzle_removes_count_cells sample_draws Hd)).
Defined.

(** X4. A fresh puzzle has no dead cell: at every empty cell the digit of
    the full board is among the candidates, so the full board is a
    solution that the candidate calculator never rules out. *)
Theorem generate_puzzle_has_no_dead_cell d r c :
  draws_ok d → r < 9 → c < 9 → cell (generate_puzzle d) r c = 0%Z →
  cell (full_board d) r c ∈ get_candidates (generate_puzzle d) r c.
Proof.
  intros Hd Hr Hc Hz.
  apply erased_cell_candidate; try done.
  - by apply generate_puzzle_wf.
  - apply generate_puzzle_erased.
  - by apply full_board_solved.
Qed.

(** An instance: cell (0, 1) of the sample puzzle. *)
Lemma generate_puzzle_has_no_dead_cell_witness :
  cell (full_board sample_draws) 0 1
  ∈ get_candidates (generate_puzzle sample_draws) 0 1.
Proof.
  assert (draws_ok sample_draws) as Hd by draws_check.
  apply (generate_puzzle_has_no_dead_cell sample_draws 0 1 Hd); [lia|lia|].
  vm_compute. reflexivity.
Defined.

(** X5. [shuffle_board] only renumbers rows and columns: there are a
    renumbering of the rows and one of the columns, each a bijection of
    0..8 that keeps the three bands (stacks) together, fixed by the draws
    alone, such that cell (r, c) of the result is cell (ρ r, γ c) of the
    input, for every 9x9 input. *)
Theorem shuffle_board_relocates_cells d :
  draws_ok d →
  ∃ ρ γ, band_map ρ ∧ band_map γ
    ∧ ∀ b, wf_board b →
        wf_board (shuffle_board d b)
        ∧ ∀ r c, r < 9 → c < 9 →
            cell (shuffle_board d b) r c = cell b (ρ r) (γ c).
Proof.
  intros Hd. destruct (shuffle_board_grid d Hd) as (ρ & γ & Hρ & Hγ & Hgrid).
  exists ρ, γ. split; [done|]. split; [done|]. intros b Hwf.
  assert (shuffle_board d b = grid_of (λ r c, cell b (ρ r) (γ c))) as ->.
  { rewrite (wf_board_grid_of b Hwf) at 1. apply Hgrid. }
  split; [apply wf_grid_of|]. intros r c Hr Hc. by rewrite cell_grid_of.
Qed.

(** An instance: the sample draws. *)
Lemma shuffle_board_relocates_cells_witness :
  ∃ ρ γ, band_map ρ ∧ band_map γ
    ∧ ∀ b, wf_board b →
        wf_board (shuffle_board sample_draws b)
        ∧ ∀ r c, r < 9 → c < 9 →
            cell (shuffle_board sample_draws b) r c = cell b (ρ r) (γ c).
Proof.
  assert (draws_ok sample_draws) as Hd by draws_check.
  exact (shuffle_board_relocates_cells sample_draws Hd).
Defined.

(** ** Candidates *)

(** X6. Writing into an empty cell never adds a candidate anywhere: the
    candidate set of every cell afterwards is included in the one
    before. *)
Theorem filling_never_adds_candidates b r c v r' c' :
  wf_board b → r' < 9 → c' < 9 → cell b r c = 0%Z →
  get_candidates (set_cell b r c v) r' c' ⊆ get_candidates b r' c'.
Proof. apply get_candidates_shrink. Qed.

(** An instance: a 9 written at (0, 1) of the sample puzzle, seen from
    (0, 4). *)
Lemma filling_never_adds_candidates_witness :
  get_candidates (set_cell (generate_puzzle sample_draws) 0 1 9%Z) 0 4
  ⊆ get_candidates (generate_puzzle sample_draws) 0 4.
Proof.
  assert (wf_board (generate_puzzle sample_draws)) as Hwf by board_check.
  apply (filling_never_adds_candidates _ 0 1 9%Z 0 4 Hwf); [lia|lia|].
  vm_compute. reflexivity.
Defined.

(** X7. Writing a cell changes candidates only among the 21 cells that
    [update_neighbors] refreshes: a cell outside the neighbour set of
    (r, c) has the same candidate set after [board[r][c] = v] as before,
    so the heap entries of such cells stay exact. *)
Theorem candidates_change_only_near b r c v r' c' :
  wf_board b → r < 9 → c < 9 → r' < 9 → c' < 9 →
  (r', c') ∉ neighbours r c →
  get_candidates (set_cell b r c v) r' c' = get_candidates b r' c'.
Proof. apply get_candidates_far. Qed.

(** An instance: a 9 written at (0, 1) of the sample puzzle, seen from
    (4, 4). *)
Lemma candidates_change_only_near_witness :
  get_candidates (set_cell (generate_puzzle sample_draws) 0 1 9%Z) 4 4
  = get_candidates (generate_puzzle sample_draws) 4 4.
Proof.
  assert (wf_board (generate_puzzle sample_draws)) as Hwf by board_check.
  apply (candidates_change_only_near _ 0 1 9%Z 4 4 Hwf); [lia|lia|lia|lia|].
  apply (bool_decide_unpack _). vm_compute. exact I.
Defined.

(** ** Building the frontier *)

(** X8. [build_priority_queue] returns exactly the heap that
    [initialize_priority_queue] stores in [self.pq]; the heap is ordered
    and holds one entry, computed on the current board, for each empty
    cell that has a candidate. *)
Theorem build_priority_queue_matches_initialize st :
  wf_board (board st) →
  build_priority_queue st = pq (initialize_priority_queue st)
  ∧ heap_ordered (build_priority_queue st)
  ∧ build_priority_queue st
    ≡ₚ fresh_entry (board st) <$> filter (live_cell (board st)) all_cells.
Proof.
  intros _. split; [apply build_priority_queue_initialize|].
  split; [apply build_priority_queue_ordered|].
  rewrite build_priority_queue_initialize.
  apply (initialize_priority_queue_spec st).
Qed.

(** An instance: the sample game. *)
Lemma build_priority_queue_matches_initialize_witness :
  build_priority_queue sample_game = pq (initialize_priority_queue sample_game).
Proof.
  assert (wf_board (board sample_game)) as Hwf by board_check.
  exact (proj1 (build_priority_queue_matches_initialize sample_game Hwf)).
Defined.

(** X9. [initialize_priority_queue] discards the old heap and changes
    nothing else; the new heap is ordered, and unlike [update_neighbors]
    it never inserts an entry for a filled cell or with an empty candidate
    set: every entry is the current snapshot of an empty cell that has a
    candidate. *)
Theorem initialize_priority_queue_only_live_cells st :
  wf_board (board st) →
  board (initialize_priority_queue st) = board st
  ∧ initial_board (initialize_priority_queue st) = initial_board st
  ∧ current_turn (initialize_priority_queue st) = current_turn st
  ∧ heap_ordered (pq (initialize_priority_queue st))
  ∧ ∀ e, e ∈ pq (initialize_priority_queue st) →
      ¬ stale (board st) e ∧ entry_cands e ≠ ∅
      ∧ e = fresh_entry (board st) (entry_row e, entry_col e).
Proof.
  intros _.
  destruct (initialize_priority_queue_spec st) as (Hb & Hi & Ht & _ & Hq).
  split; [done|]. split; [done|]. split; [done|].
  split; [apply initialize_priority_queue_ordered|].
  intros e He. rewrite Hq in He.
  apply list_elem_of_fmap in He as ([r c] & -> & Hin).
  apply list_elem_of_filter in Hin as [Hlive _].
  unfold live_cell in Hlive. simpl in Hlive.
  apply andb_True in Hlive as [Hz%bool_decide_spec Hc%bool_decide_spec].
  split; [|done]. unfold stale. simpl. by intros ?.
Qed.

(** An instance: the heap rebuilt in the sample game holds an entry. *)
Lemma initialize_priority_queue_only_live_cells_witness :
  heap_ordered (pq (initialize_priority_queue sample_game)).
Proof.
  assert (wf_board (board sample_game)) as Hwf by board_check.
  exact (proj1 (proj2 (proj2 (proj2
    (initialize_priority_queue_only_live_cells sample_game Hwf))))).
Defined.

(** X10. After "New Game" the heap holds exactly one entry for each empty
    cell of the puzzle, with its exact candidates, and none for a clue: as
    many entries as [remove_count]. *)
Theorem new_game_frontier_is_the_empty_cells d st :
  draws_ok d →
  pq (new_game d st)
  ≡ₚ fresh_entry (generate_puzzle d) <$> empty_cells (generate_puzzle d)
  ∧ length (pq (new_game d st)) = g_count d.
Proof.
  intros Hd. pose proof (new_game_pq_empty_cells d st Hd) as Hq.
  split; [done|]. rewrite Hq, length_fmap.
  rewrite (generate_puzzle_empty_cells d Hd).
  apply (generate_puzzle_removed d Hd).
Qed.

(** An instance: the sample game starts with 42 entries. *)
Lemma new_game_frontier_is_the_empty_cells_witness :
  length (pq sample_game) = 42.
Proof.
  assert (draws_ok sample_draws) as Hd by draws_check.
  exact (proj2 (new_game_frontier_is_the_empty_cells
                  sample_draws (init sample_draws) Hd)).
Defined.

(** ** What every reachable session satisfies *)

(** X11. In every reachable session [self.pq] is a heap in the sense of
    [heapq]: no entry is below its parent in the order of (count, row,
    col), the count of every entry is the size of its candidate set, and
    the entry at index 0 is below all the others. *)
Theorem reachable_heap_is_ordered st :
  reachable st →
  heap_ordered (pq st) ∧ Forall sized (pq st)
  ∧ ∀ i, i < length (pq st) → key_le (pq st !!! 0) (pq st !!! i).
Proof.
  intros [Hh Hs _ _]%reachable_order. split; [done|]. split; [done|].
  intros i Hi. by apply heap_root_least.
Qed.

(** An instance: the sample game after one move of each player. *)
Lemma reachable_heap_is_ordered_witness :
  key_le (pq sample_played !!! 0) (pq sample_played !!! 20).
Proof.
  assert (reachable sample_played) as Hreach by apply sample_played_reachable.
  apply (proj2 (proj2 (reachable_heap_is_ordered sample_played Hreach))).
  vm_compute. lia.
Defined.

(** X12. No run of the program changes a clue: in every reachable session
    each nonzero cell of [initial_board] holds the same digit in [board];
    and every cell of [board] holds 0 or a digit of 1..9. *)
Theorem reachable_clues_in_place st :
  reachable st → clues_kept st ∧ digits_only (board st).
Proof. intros [_ _ Hc Hd]%reachable_order. by split. Qed.

(** An instance: the clue 3 at (0, 0) of the sample game after one move of
    each player. *)
Lemma reachable_clues_in_place_witness :
  cell (board sample_played) 0 0 = cell (initial_board sample_played) 0 0.
Proof.
  assert (reachable sample_played) as Hreach by apply sample_played_reachable.
  apply (proj1 (reachable_clues_in_place sample_played Hreach)).
  vm_compute. discriminate.
Defined.

(** X13. When [is_complete] returns [True] in a reachable session, the
    board is a solved Sudoku: every cell holds a digit of 1..9 and no
    digit occurs twice in a row, a column or a box. *)
Theorem complete_board_is_solved st :
  reachable st → is_complete st = true →
  solved_grid (board st) ∧ distinct_lines (board st).
Proof.
  intros Hreach Hdone.
  assert (solved_grid (board st)) as Hs.
  { destruct (reachable_inv st Hreach) as [Hwf _ Hv _ _].
    destruct (reachable_order st Hreach) as [_ _ _ Hd].
    split; [done|]. split; [|done]. intros r c Hr Hc.
    pose proof (proj1 (is_complete_spec st) Hdone r c Hr Hc).
    specialize (Hd r c). lia. }
  split; [done|]. by apply solved_grid_distinct_lines.
Qed.

(** An instance: the sample game played to its end by the AI. *)
Lemma complete_board_is_solved_witness :
  solved_grid (board sample_finished).
Proof.
  assert (reachable sample_finished) as Hreach
    by apply sample_finished_reachable.
  apply (complete_board_is_solved sample_finished Hreach).
  vm_compute. reflexivity.
Defined.

(** ** The automated mover *)

(** X14. In a reachable session the entry [ai_make_move] plays is the
    least, in the order of (count, row, col), among the entries of the heap
    whose cell is still empty. *)
Theorem ai_plays_least_live_entry st k row col value st' :
  reachable st →
  ai_make_move k st = Some (Placed row col value, st') →
  ∃ count cands,
    (count, row, col, cands) ∈ pq st
    ∧ ∀ e, e ∈ pq st → ¬ stale (board st) e →
           key_le (count, row, col, cands) e.
Proof.
  intros [Hh _ _ _]%reachable_order Hrun. by eapply ai_loop_least.
Qed.

(** An instance: the AI's answer to the user's first move in the sample
    game. *)
Lemma ai_plays_least_live_entry_witness :
  ∃ count cands,
    (count, 1, 8, cands) ∈ pq sample_user_moved
    ∧ ∀ e, e ∈ pq sample_user_moved → ¬ stale (board sample_user_moved) e →
           key_le (count, 1, 8, cands) e.
Proof.
  assert (reachable sample_user_moved) as Hreach.
  { apply reach_edit; [apply sample_game_reachable|lia|lia]. }
  refine (ai_plays_least_live_entry sample_user_moved 0 1 8 8%Z _ Hreach _).
  vm_compute. reflexivity.
Defined.

(** X15. Pressed right after "New Game", "AI Play" always places a digit,
    and it places it in a most constrained cell: an empty cell with the
    fewest candidates, the first of them in row-major order.  The digit is
    one of the candidates of that cell. *)
Theorem new_game_ai_plays_most_constrained d st k :
  draws_ok d →
  ∃ row col value st',
    ai_play k (new_game d st) = Some (Placed row col value, st')
    ∧ most_constrained (generate_puzzle d) row col
    ∧ value ∈ get_candidates (generate_puzzle d) row col.
Proof.
  intros Hd.
  destruct (ai_make_move_live k (new_game d st))
    as (row & col & value & st' & Hrun & Hz & Hv & Hleast).
  { apply Forall_forall. intros e He. rewrite new_game_board.
    apply new_game_entries in He as (r & c & Hr & Hc & Hz & ->); [|done].
    split; [done|]. by apply generate_puzzle_live. }
  { by apply new_game_pq_nonempty. }
  destruct (Hleast (ord_heap _ (order_new_game d st Hd)))
    as (count & cands & Hin & Hmin).
  clear Hleast. rewrite new_game_board in Hz, Hv.
  exists row, col, value, st'. split; [exact Hrun|]. split; [|exact Hv].
  split; [exact Hz|]. intros r' c' Hr' Hc' Hz'.
  apply new_game_entries in Hin as (r & c & Hr & Hc & _ & Heq); [|done].
  assert (fresh_entry (generate_puzzle d) (row, col) = (count, row, col, cands))
    as ->.
  { rewrite Heq. unfold fresh_entry in Heq. by injection Heq as _ -> -> _. }
  apply Hmin.
  - apply new_game_entries; [done|]. by exists r', c'.
  - rewrite new_game_board. unfold stale, fresh_entry, entry_row, entry_col.
    cbn [fst snd]. by intros ?.
Qed.

(** An instance: the sample game. *)
Lemma new_game_ai_plays_most_constrained_witness :
  ∃ row col value st',
    ai_play 0 sample_game = Some (Placed row col value, st')
    ∧ most_constrained (generate_puzzle sample_draws) row col
    ∧ value ∈ get_candidates (generate_puzzle sample_draws) row col.
Proof.
  assert (draws_ok sample_draws) as Hd by draws_check.
  exact (new_game_ai_plays_most_constrained
           sample_draws (init sample_draws) 0 Hd).
Defined.

(** X16. When every entry of the heap is stale, [ai_make_move] pops them
    all, returns [False] and changes nothing but the heap, which it leaves
    empty. *)
Theorem ai_gives_up_when_all_stale st k :
  reachable st → Forall (stale (board st)) (pq st) →
  ai_make_move k st = Some (NoMove, with_pq st []).
Proof. intros _ Hst. by apply ai_loop_all_stale. Qed.

(** An instance: the finished sample game, whose heap holds 111 stale
    entries. *)
Lemma ai_gives_up_when_all_stale_witness :
  ai_make_move 0 sample_finished = Some (NoMove, with_pq sample_finished []).
Proof.
  assert (reachable sample_finished) as Hreach
    by apply sample_finished_reachable.
  apply (ai_gives_up_when_all_stale sample_finished 0 Hreach).
  unfold stale. apply (bool_decide_unpack _). vm_compute. exact I.
Defined.

(** X17. On a complete board of a reachable session the AI cannot move and
    the hint finds nothing: [ai_make_move] returns [False] and empties the
    heap, [show_hint] reports that no empty cell remains. *)
Theorem complete_board_no_move st k :
  reachable st → is_complete st = true →
  ai_make_move k st = Some (NoMove, with_pq st [])
  ∧ ∃ st', show_hint st = Some (NoHint, st').
Proof.
  intros Hreach Hdone.
  destruct (reachable_inv st Hreach) as [_ _ _ _ Hrange].
  assert (Forall (stale (board st)) (pq st)) as Hstale.
  { eapply Forall_impl; [exact Hrange|]. intros e [Hr Hc].
    by apply (proj1 (is_complete_spec st) Hdone). }
  split; [by apply ai_loop_all_stale|].
  destruct (show_hint_total st) as [[res st'] Hrun].
  destruct res as [|row col cands]; [by exists st'|].
  apply show_hint_spec in Hrun
    as (_ & _ & _ & _ & (dropped & Hq & _) & Hz & _ & count & snap & rest & Htop).
  rewrite Htop in Hq. rewrite Hq in Hstale.
  apply Forall_app in Hstale as [_ Hstale].
  apply Forall_cons in Hstale as [Hstale _]. by destruct Hstale.
Qed.

(** An instance: the finished sample game. *)
Lemma complete_board_no_move_witness :
  ai_make_move 0 sample_finished = Some (NoMove, with_pq sample_finished []).
Proof.
  assert (reachable sample_finished) as Hreach
    by apply sample_finished_reachable.
  apply (complete_board_no_move sample_finished 0 Hreach).
  vm_compute. reflexivity.
Defined.

(** ** The hint *)

(** X18. The hint names the AI's next move: when [show_hint] highlights
    cell (row, col) with candidate set [cands], [ai_make_move] called next
    fills that very cell with a digit of [cands], or fails when [cands] is
    empty; when [show_hint] finds no cell, [ai_make_move] fails.  The
    entries [show_hint] pops make no difference: the move is the same
    whether it is made before or after the hint. *)
Theorem hint_names_the_ai_move st k res st' :
  reachable st → show_hint st = Some (res, st') →
  ai_make_move k st' = ai_make_move k st
  ∧ match res with
    | NoHint => ai_make_move k st = Some (NoMove, st')
    | Hint row col cands =>
        ∃ st'',
          ai_make_move k st
          = Some (if bool_decide (cands = ∅) then NoMove
                  else Placed row col (choice k (elements cands)), st'')
          ∧ (cands ≠ ∅ → choice k (elements cands) ∈ cands)
    end.
Proof.
  intros _ Hrun. split; [by eapply hint_keeps_ai_move|].
  destruct res as [|row col cands].
  - by apply no_hint_then_ai.
  - destruct (hint_then_ai st k row col cands st' Hrun) as [st'' Hai].
    exists st''. split; [done|]. apply choice_candidate.
Qed.

(** An instance: in the sample game the hint shows (1, 8), where the AI
    then plays 8. *)
Lemma hint_names_the_ai_move_witness :
  ∃ st'', ai_make_move 0 sample_game = Some (Placed 1 8 8%Z, st'').
Proof.
  assert (reachable sample_game) as Hreach by apply sample_game_reachable.
  assert (show_hint sample_game
          = Some (Hint 1 8 {[8%Z]}, sample_game)) as Hhint
    by (vm_compute; reflexivity).
  destruct (hint_names_the_ai_move sample_game 0 _ _ Hreach Hhint)
    as (_ & st'' & Hai & _).
  exists st''. exact Hai.
Defined.

(** X19. In a reachable session the cell [show_hint] highlights is that of
    the least entry, in the order of (count, row, col), among the entries
    whose cell is still empty, and that entry is left at the top of the
    heap. *)
Theorem hint_shows_least_live_entry st row col cands st' :
  reachable st → show_hint st = Some (Hint row col cands, st') →
  ∃ count snapshot rest,
    pq st' = (count, row, col, snapshot) :: rest
    ∧ ∀ e, e ∈ pq st → ¬ stale (board st) e →
           key_le (count, row, col, snapshot) e.
Proof.
  intros [Hh _ _ _]%reachable_order. unfold show_hint.
  destruct (pq st) as [|e0 q0] eqn:E; [done|]. rewrite <- E in *.
  destruct (clean_top _ _ _) as [q'|] eqn:Hclean; [|done].
  destruct (clean_top_ordered _ _ _ _ Hh Hclean) as [_ Hleast].
  destruct q' as [|[[[count r] c] snap] rest]; [done|].
  intros [= <- <- <- <-]. exists count, snap, rest. split; [done|].
  by apply (Hleast _ _ eq_refl).
Qed.

(** An instance: the hint in the sample game after the user's first
    move. *)
Lemma hint_shows_least_live_entry_witness :
  ∃ count snapshot rest,
    pq (default sample_user_moved (snd <$> show_hint sample_user_moved))
    = (count, 1, 8, snapshot) :: rest
    ∧ ∀ e, e ∈ pq sample_user_moved → ¬ stale (board sample_user_moved) e →
           key_le (count, 1, 8, snapshot) e.
Proof.
  assert (reachable sample_user_moved) as Hreach.
  { apply reach_edit; [apply sample_game_reachable|lia|lia]. }
  refine (hint_shows_least_live_entry sample_user_moved 1 8 {[8%Z]} _ Hreach _).
  vm_compute. reflexivity.
Defined.

(** X20. Right after "New Game" the hint shows a most constrained cell of
    the puzzle (fewest candidates, first in row-major order) with its
    exact candidates, and leaves the session as it was. *)
Theorem new_game_hint_most_constrained d st :
  draws_ok d →
  ∃ row col,
    show_hint (new_game d st)
    = Some (Hint row col (get_candidates (generate_puzzle d) row col),
            new_game d st)
    ∧ most_constrained (generate_puzzle d) row col.
Proof.
  intros Hd.
  destruct (show_hint_live (new_game d st))
    as (row & col & Hrun & Hz & count & snap & Hin & Hmin).
  { by apply new_game_pq_nonempty. }
  { apply Forall_forall. intros e He. rewrite new_game_board.
    by apply new_game_entries in He as (r & c & Hr & Hc & Hz & ->). }
  { apply (order_new_game d st Hd). }
  rewrite new_game_board in Hrun, Hz.
  exists row, col. split; [exact Hrun|]. split; [exact Hz|].
  intros r' c' Hr' Hc' Hz'.
  apply new_game_entries in Hin as (r & c & Hr & Hc & _ & Heq); [|done].
  assert (fresh_entry (generate_puzzle d) (row, col) = (count, row, col, snap))
    as ->.
  { rewrite Heq. unfold fresh_entry in Heq. by injection Heq as _ -> -> _. }
  apply Hmin. apply new_game_entries; [done|]. by exists r', c'.
Qed.

(** An instance: the sample game. *)
Lemma new_game_hint_most_constrained_witness :
  ∃ row col,
    show_hint sample_game
    = Some (Hint row col (get_candidates (generate_puzzle sample_draws) row col),
            sample_game)
    ∧ most_constrained (generate_puzzle sample_draws) row col.
Proof.
  assert (draws_ok sample_draws) as Hd by draws_check.
  exact (new_game_hint_most_constrained sample_draws (init sample_draws) Hd).
Defined.

(** ** Key events and turns *)

(** X21. On the user's turn, for a digit of 1..9 typed into a cell that is
    not a clue, [on_cell_edit] accepts the digit exactly when no other
    cell of the row, the column or the box holds it (what the cell itself
    held does not count); an accepted digit is in the cell afterwards, and
    a rejected one leaves the whole session as it was. *)
Theorem edit_accepted_iff_no_peer_holds_digit st row col num :
  reachable st → row < 9 → col < 9 →
  current_turn st = user → cell (initial_board st) row col = 0%Z →
  (1 ≤ num ≤ 9)%Z →
  ((∃ complete, (on_cell_edit st row col (IntText num)).1 = Accepted complete)
   ↔ ∀ r c, r < 9 → c < 9 → peers row col r c → cell (board st) r c ≠ num)
  ∧ ((∃ complete, (on_cell_edit st row col (IntText num)).1 = Accepted complete)
     → cell (board (on_cell_edit st row col (IntText num)).2) row col = num)
  ∧ (¬ (∃ complete,
          (on_cell_edit st row col (IntText num)).1 = Accepted complete)
     → on_cell_edit st row col (IntText num) = (InvalidMove, st)).
Proof.
  intros Hreach Hrow Hcol Ht Hl Hn.
  destruct (reachable_inv st Hreach) as [Hwf _ _ _ _].
  pose proof (edit_digit st row col num Hwf Hrow Hcol Ht Hl Hn) as Hedit.
  pose proof (is_valid_no_conflict (set_cell (board st) row col 0%Z)
                row col num (wf_set_cell _ _ _ _ Hwf) Hrow Hcol) as Hvalid.
  rewrite (no_conflict_erased_peers _ _ _ _ Hwf Hrow Hcol Hn) in Hvalid.
  destruct (is_valid _ _ _ _).
  - destruct Hedit as (complete & Hres & Hb).
    split; [|split].
    + split; [intros _; by apply Hvalid|intros _; by exists complete].
    + intros _. rewrite Hb. by apply cell_set_cell_eq.
    + intros Hno. destruct Hno. by exists complete.
  - split; [|split].
    + split.
      * intros [complete Hres]. by rewrite Hedit in Hres.
      * intros Hfree. by apply Hvalid in Hfree.
    + intros [complete Hres]. by rewrite Hedit in Hres.
    + done.
Qed.

(** An instance: in the sample game 9 is accepted at (0, 1). *)
Lemma edit_accepted_iff_no_peer_holds_digit_witness :
  cell (board (on_cell_edit sample_game 0 1 (IntText 9)).2) 0 1 = 9%Z.
Proof.
  assert (reachable sample_game) as Hreach by apply sample_game_reachable.
  refine (proj1 (proj2 (edit_accepted_iff_no_peer_holds_digit
                          sample_game 0 1 9%Z Hreach _ _ _ _ _)) _);
    [lia|lia|vm_compute; reflexivity|vm_compute; reflexivity|lia|].
  exists false. vm_compute. reflexivity.
Defined.

(** X22. A key event changes at most the cell it was typed into: whatever
    the text and whatever the outcome, every other cell of the board and
    the whole initial board are as before. *)
Theorem edit_changes_one_cell st row col value r c :
  reachable st → row < 9 → col < 9 → (r, c) ≠ (row, col) →
  cell (board (on_cell_edit st row col value).2) r c = cell (board st) r c
  ∧ initial_board (on_cell_edit st row col value).2 = initial_board st.
Proof.
  intros _ _ _ Hne. split; [by apply edit_frame|apply edit_initial].
Qed.

(** An instance: 9 typed at (0, 1) of the sample game leaves (0, 0)
    alone. *)
Lemma edit_changes_one_cell_witness :
  cell (board (on_cell_edit sample_game 0 1 (IntText 9)).2) 0 0
  = cell (board sample_game) 0 0.
Proof.
  assert (reachable sample_game) as Hreach by apply sample_game_reachable.
  refine (proj1 (edit_changes_one_cell sample_game 0 1 (IntText 9) 0 0
                   Hreach _ _ _)); [lia|lia|].
  intros [= ?].
Defined.

(** X23. When the AI's turn fails, the turn is not handed back: after
    [ai_turn] has reported that the AI cannot move, [current_turn] is
    still ["ai"], and [on_cell_edit] ignores every key event. *)
Theorem ai_turn_failure_locks_user st k st' :
  reachable st → current_turn st = ai →
  ai_turn k st = Some (NoMove, st') →
  current_turn st' = ai
  ∧ ∀ row col value, on_cell_edit st' row col value = (Ignored, st').
Proof.
  intros _ Ht Hrun.
  assert (current_turn st' = ai) as Ht'.
  { revert Hrun. unfold ai_turn.
    destruct (ai_make_move k st) as [[[r c v|] s]|] eqn:Hai; [| |done].
    - by destruct (is_complete s).
    - intros [= <-].
      apply ai_make_move_outcome, ai_nomove_inv in Hai as (_ & _ & Hturn & _).
      by rewrite Hturn. }
  split; [done|]. intros row col value. unfold on_cell_edit. by rewrite Ht'.
Qed.

(** An instance: in a fresh session the user types 5 at (0, 4); the move
    is accepted, the AI cannot answer, and the user is locked out. *)
Lemma ai_turn_failure_locks_user_witness :
  current_turn sample_locked = ai
  ∧ on_cell_edit sample_locked 0 1 (IntText 9) = (Ignored, sample_locked).
Proof.
  assert (reachable sample_stuck) as Hreach by apply sample_stuck_reachable.
  destruct (ai_turn_failure_locks_user sample_stuck 0 sample_locked Hreach)
    as [Ht Hlock]; [vm_compute; reflexivity|vm_compute; reflexivity|].
  exact (conj Ht (Hlock 0 1 (IntText 9))).
Defined.

(** X24. How the turn moves: an accepted digit that does not complete the
    board hands the turn to the AI; a successful [ai_turn] hands it to the
    user unless the board is complete; [ai_play] never changes the
    turn. *)
Theorem turn_moves_only_on_success st :
  reachable st →
  (∀ row col value,
     (on_cell_edit st row col value).1 = Accepted false →
     current_turn (on_cell_edit st row col value).2 = ai)
  ∧ (∀ k r c v st',
       ai_turn k st = Some (Placed r c v, st') → is_complete st' = false →
       current_turn st' = user)
  ∧ (∀ k res st',
       ai_play k st = Some (res, st') → current_turn st' = current_turn st).
Proof.
  intros _. split; [|split].
  - intros row col value. unfold on_cell_edit.
    destruct (negb _); [done|]. case_bool_decide; [done|].
    destruct value as [| |num]; try done.
    destruct (_ || _); [done|]. cbn zeta.
    destruct (is_valid _ _ _ _); [|done].
    by destruct (is_complete _).
  - intros k r c v st'. unfold ai_turn.
    destruct (ai_make_move k st) as [[[r0 c0 v0|] s]|]; [| |done..].
    + destruct (is_complete s) eqn:Hs; intros [= <- <- <- <-]; [congruence|].
      done.
    + done.
  - intros k res st' Hrun. apply ai_make_move_outcome in Hrun.
    destruct res as [r c v|].
    + by apply ai_placed_inv in Hrun as (_ & _ & _ & _ & Ht & _).
    + by apply ai_nomove_inv in Hrun as (_ & _ & Ht & _).
Qed.

(** An instance: after the user's 9 at (0, 1) of the sample game it is the
    AI's turn. *)
Lemma turn_moves_only_on_success_witness :
  current_turn sample_user_moved = ai.
Proof.
  assert (reachable sample_game) as Hreach by apply sample_game_reachable.
  apply (proj1 (turn_moves_only_on_success sample_game Hreach) 0 1 (IntText 9)).
  vm_compute. reflexivity.
Defined.
